(** * A* path finder of MCServer ([src/Mobs/Path.cpp]): model and properties

    The C++ class [cPath] is embedded as a state-and-error monad over a
    record that holds the members of the object.  Cells live on the C++ heap
    and are reached through pointers stored in [m_Map], in the open list and
    in [m_Parent]; here a pointer is the key of the cell in [m_Map] (the map
    owns exactly one heap cell per key until [FinishCalculation] frees them
    all), so two pointers alias exactly when the keys are equal and a write
    through one pointer is seen through every other. *)

From stdpp Require Import gmap list.
From Stdlib Require Import ZArith Lia.

Local Open Scope Z_scope.

(** ** Data model *)

(** [Vector3i] (Vector3.h, not part of the translated file): three [int]
    coordinates.  Coordinates are kept as mathematical integers. *)
Record Vector3i := Vector3 { vx : Z; vy : Z; vz : Z }.

#[global] Instance Vector3i_eq_dec : EqDecision Vector3i.
Proof. solve_decision. Defined.

#[global] Instance Vector3i_countable : Countable Vector3i :=
  inj_countable'
    (fun v => (vx v, vy v, vz v))
    (fun t => Vector3 t.1.1 t.1.2 t.2)
    (fun v => match v with Vector3 _ _ _ => eq_refl end).

Definition vadd (a b : Vector3i) : Vector3i :=
  Vector3 (vx a + vx b) (vy a + vy b) (vz a + vz b).

Definition vsub (a b : Vector3i) : Vector3i :=
  Vector3 (vx a - vx b) (vy a - vy b) (vz a - vz b).

Infix "+v" := vadd (at level 50, left associativity).

(** [enum class eCellStatus {OPENLIST, CLOSEDLIST, NOLIST}] *)
Inductive eCellStatus := OPENLIST | CLOSEDLIST | NOLIST.

#[global] Instance eCellStatus_eq_dec : EqDecision eCellStatus.
Proof. solve_decision. Defined.

(** [ePathFinderStatus] (Path.h); the three values used by the file. *)
Inductive ePathFinderStatus := CALCULATING | PATH_FOUND | PATH_NOT_FOUND.

#[global] Instance ePathFinderStatus_eq_dec : EqDecision ePathFinderStatus.
Proof. solve_decision. Defined.

(** A cell pointer: the key under which [m_Map] holds the cell. *)
Abbreviation cell_ptr := Vector3i (only parsing).

(** [struct cPathCell] *)
Module Cell.
Record t := mk {
  m_Location : Vector3i;
  m_F : Z;
  m_G : Z;
  m_H : Z;
  m_Status : eCellStatus;
  m_Parent : option cell_ptr;
  m_IsSolid : bool
}.

(** [new cPathCell()] value-initialises the members: integers zero, the
    status the enumerator of value 0, the parent null, the flag false. *)
Definition fresh : t := mk (Vector3 0 0 0) 0 0 0 OPENLIST None false.

Definition set_Location (v : Vector3i) (c : t) : t :=
  mk v (m_F c) (m_G c) (m_H c) (m_Status c) (m_Parent c) (m_IsSolid c).
Definition set_F (v : Z) (c : t) : t :=
  mk (m_Location c) v (m_G c) (m_H c) (m_Status c) (m_Parent c) (m_IsSolid c).
Definition set_G (v : Z) (c : t) : t :=
  mk (m_Location c) (m_F c) v (m_H c) (m_Status c) (m_Parent c) (m_IsSolid c).
Definition set_H (v : Z) (c : t) : t :=
  mk (m_Location c) (m_F c) (m_G c) v (m_Status c) (m_Parent c) (m_IsSolid c).
Definition set_Status (v : eCellStatus) (c : t) : t :=
  mk (m_Location c) (m_F c) (m_G c) (m_H c) v (m_Parent c) (m_IsSolid c).
Definition set_Parent (v : option cell_ptr) (c : t) : t :=
  mk (m_Location c) (m_F c) (m_G c) (m_H c) (m_Status c) v (m_IsSolid c).
Definition set_IsSolid (v : bool) (c : t) : t :=
  mk (m_Location c) (m_F c) (m_G c) (m_H c) (m_Status c) (m_Parent c) v.
End Cell.

Abbreviation cPathCell := Cell.t.

(** Block types are [unsigned char] values. *)
Definition BLOCKTYPE := Z.

(** Ghost events: what the search did, in order.  No code of the file
    branches on them. *)
Inductive event :=
| EvRead (loc : Vector3i) (solid : bool)
| EvConsider (loc : Vector3i) (parent : cell_ptr) (cost : Z)
| EvProcess (cell : cell_ptr) (caller : option cell_ptr) (cost : Z)
| EvPush (cell : cell_ptr)
| EvPop (cell : cell_ptr).

#[global] Instance event_eq_dec : EqDecision event.
Proof. solve_decision. Defined.

(** The members of [cPath] that the file uses, and three ghost fields:
    [g_oracle] lists the locations [IsSolid] was called on (latest first),
    [g_trace] the events of the search (oldest first), [g_steps] counts the
    calls of [StepOnce]. *)
Record cPath := mkPath {
  m_Destination : Vector3i;
  m_Source : Vector3i;
  m_Status : ePathFinderStatus;
  m_StepsLeft : Z;
  m_Map : gmap Vector3i cPathCell;
  m_OpenList : list cell_ptr;
  m_PathPoints : list Vector3i;
  g_oracle : list Vector3i;
  g_trace : list event;
  g_steps : nat
}.

Definition set_Status (v : ePathFinderStatus) (s : cPath) : cPath :=
  mkPath (m_Destination s) (m_Source s) v (m_StepsLeft s) (m_Map s)
         (m_OpenList s) (m_PathPoints s) (g_oracle s) (g_trace s) (g_steps s).
Definition set_StepsLeft (v : Z) (s : cPath) : cPath :=
  mkPath (m_Destination s) (m_Source s) (m_Status s) v (m_Map s)
         (m_OpenList s) (m_PathPoints s) (g_oracle s) (g_trace s) (g_steps s).
Definition set_Map (v : gmap Vector3i cPathCell) (s : cPath) : cPath :=
  mkPath (m_Destination s) (m_Source s) (m_Status s) (m_StepsLeft s) v
         (m_OpenList s) (m_PathPoints s) (g_oracle s) (g_trace s) (g_steps s).
Definition set_OpenList (v : list cell_ptr) (s : cPath) : cPath :=
  mkPath (m_Destination s) (m_Source s) (m_Status s) (m_StepsLeft s) (m_Map s)
         v (m_PathPoints s) (g_oracle s) (g_trace s) (g_steps s).
Definition set_PathPoints (v : list Vector3i) (s : cPath) : cPath :=
  mkPath (m_Destination s) (m_Source s) (m_Status s) (m_StepsLeft s) (m_Map s)
         (m_OpenList s) v (g_oracle s) (g_trace s) (g_steps s).
Definition set_oracle (v : list Vector3i) (s : cPath) : cPath :=
  mkPath (m_Destination s) (m_Source s) (m_Status s) (m_StepsLeft s) (m_Map s)
         (m_OpenList s) (m_PathPoints s) v (g_trace s) (g_steps s).
Definition set_trace (v : list event) (s : cPath) : cPath :=
  mkPath (m_Destination s) (m_Source s) (m_Status s) (m_StepsLeft s) (m_Map s)
         (m_OpenList s) (m_PathPoints s) (g_oracle s) v (g_steps s).
Definition set_steps (v : nat) (s : cPath) : cPath :=
  mkPath (m_Destination s) (m_Source s) (m_Status s) (m_StepsLeft s) (m_Map s)
         (m_OpenList s) (m_PathPoints s) (g_oracle s) (g_trace s) v.

(** What the file needs from the rest of the server and from the C++
    library and does not define.

    The world behind [cChunk] and the block tables: [GetBlock loc] is [None]
    when [GetNeighborChunk] yields no chunk or an invalid one, and otherwise
    the block type that [GetBlockTypeMeta] reports at [loc] (the chunk
    pointer [m_Chunk] only caches where the lookup starts from).

    The heap behind [std::priority_queue]: which of several entries of least
    [m_F] its [top()] returns is a matter of the library and of the pushes
    and pops made so far, all of which the object records.  [heap_tie s] is
    the choice it makes in the state [s], as an index into the entries of
    least [m_F]; it may be any function of the state. *)
Record World := {
  GetBlock : Vector3i -> option BLOCKTYPE;
  cBlockInfo_IsSolid : BLOCKTYPE -> bool;
  E_BLOCK_FENCE : BLOCKTYPE;
  E_BLOCK_FENCE_GATE : BLOCKTYPE;
  E_BLOCK_STATIONARY_WATER : BLOCKTYPE;
  heap_tie : cPath -> nat
}.

(** ** The monad of member functions

    A member function reads and writes the object and may fail to return a
    value: the model ran out of fuel (the C++ recursion or loop is still
    running), a signed [int] operation overflowed, or a null or dangling
    cell pointer was dereferenced (both undefined behaviour in C++). *)
Inductive error := OutOfFuel | SignedOverflow | BadPointer.

Inductive result (A : Type) := Ok (a : A) | Err (e : error).
Arguments Ok {A} a.
Arguments Err {A} e.

Definition M (A : Type) : Type := cPath -> result (A * cPath).

#[global] Instance M_ret : MRet M := fun A a s => Ok (a, s).
#[global] Instance M_bind : MBind M := fun A B f m s =>
  match m s with
  | Ok (a, s') => f a s'
  | Err e => Err e
  end.

Definition fail {A} (e : error) : M A := fun _ => Err e.
Definition skip : M unit := mret tt.
Definition get : M cPath := fun s => Ok (s, s).
Definition modify (f : cPath -> cPath) : M unit := fun s => Ok (tt, f s).
Definition log (e : event) : M unit :=
  modify (fun s => set_trace (g_trace s ++ [e]) s).

(** [int] is 32 bits wide. *)
Definition INT_MIN : Z := - 2 ^ 31.
Definition INT_MAX : Z := 2 ^ 31 - 1.
Definition in_int (z : Z) : bool := (INT_MIN <=? z) && (z <=? INT_MAX).
Definition int_of (z : Z) : M Z :=
  if in_int z then mret z else fail SignedOverflow.

(** [p->field] and [p->field = v] *)
Definition deref (p : cell_ptr) : M cPathCell := fun s =>
  match m_Map s !! p with
  | Some c => Ok (c, s)
  | None => Err BadPointer
  end.

Definition store (p : cell_ptr) (f : cPathCell -> cPathCell) : M unit := fun s =>
  match m_Map s !! p with
  | Some c => Ok (tt, set_Map (<[p := f c]> (m_Map s)) s)
  | None => Err BadPointer
  end.

#[local] Definition CALCULATIONS_PER_STEP : Z := 5.

(** Modelled from the spec: [Vector3i::Length] (Vector3.h) is not part of the
    translated file.  The default configuration ([DISTANCE_MANHATTAN] is 0)
    takes [h] as "true Euclidean distance x10", truncated to [int]: the
    integer part of [10 * sqrt (dx^2 + dy^2 + dz^2)], which is the integer
    square root of [100 * (dx^2 + dy^2 + dz^2)]. *)
Definition Length10 (d : Vector3i) : Z :=
  Z.sqrt (100 * (vx d * vx d + vy d * vy d + vz d * vz d)).

Section Path.

Context (W : World).

(** [cPath::IsSolid], with the call back into [GetCell] as a parameter. *)
Definition IsSolid_with (getCell : Vector3i -> M cell_ptr)
    (a_Location : Vector3i) : M bool :=
  modify (fun s => set_oracle (a_Location :: g_oracle s) s);;
  match GetBlock W a_Location with
  | None => mret true
  | Some BlockType =>
      (if decide (BlockType = E_BLOCK_FENCE W \/ BlockType = E_BLOCK_FENCE_GATE W)
       then p ← getCell (a_Location +v Vector3 0 1 0);
            store p (Cell.set_IsSolid true)
       else skip);;
      (if decide (BlockType = E_BLOCK_STATIONARY_WATER W)
       then p ← getCell (a_Location +v Vector3 0 (-1) 0);
            store p (Cell.set_IsSolid true)
       else skip);;
      mret (cBlockInfo_IsSolid W BlockType)
  end.

(** [cPath::GetCell].  [depth] bounds the nesting of [GetCell] inside
    [IsSolid] inside [GetCell]. *)
Fixpoint GetCell (depth : nat) (a_Location : Vector3i) : M cell_ptr :=
  s ← get;
  match m_Map s !! a_Location with
  | None =>
      match depth with
      | O => fail OutOfFuel
      | S depth' =>
          let Cell := a_Location in
          modify (fun s =>
            set_Map (<[a_Location := Cell.set_Location a_Location Cell.fresh]> (m_Map s)) s);;
          solid ← IsSolid_with (GetCell depth') a_Location;
          store Cell (Cell.set_IsSolid solid);;
          store Cell (Cell.set_Status NOLIST);;
          mret Cell
      end
  | Some _ => mret a_Location
  end.

Definition IsSolid (depth : nat) : Vector3i -> M bool :=
  IsSolid_with (GetCell depth).

(** [GetCell(loc)->m_IsSolid] read in a condition of the search. *)
Definition read_IsSolid (loc : Vector3i) (p : cell_ptr) : M bool :=
  c ← deref p;
  log (EvRead loc (Cell.m_IsSolid c));;
  mret (Cell.m_IsSolid c).

Definition GetCell_IsSolid (depth : nat) (loc : Vector3i) : M bool :=
  p ← GetCell depth loc;
  read_IsSolid loc p.

(** [cPath::FinishCalculation()]: every cell is deleted, the map and the
    open list are emptied. *)
Definition FinishCalculation0 : M unit :=
  modify (fun s => set_OpenList [] (set_Map ∅ s)).

(** [cPath::FinishCalculation(ePathFinderStatus)] *)
Definition FinishCalculation (a_NewStatus : ePathFinderStatus) : M unit :=
  modify (set_Status a_NewStatus);;
  FinishCalculation0.

(** [cPath::~cPath]: an object that is still calculating frees its cells;
    the status is left as it is. *)
Definition cPath_dtor : M unit :=
  s ← get;
  if decide (m_Status s = CALCULATING) then FinishCalculation0 else skip.

(** [cPath::OpenListAdd] *)
Definition OpenListAdd (a_Cell : cell_ptr) : M unit :=
  store a_Cell (Cell.set_Status OPENLIST);;
  modify (fun s => set_OpenList (m_OpenList s ++ [a_Cell]) s);;
  log (EvPush a_Cell).

(** [m_OpenList] is a [std::priority_queue] of cell pointers under
    [compareHeuristics] ([a->m_F > b->m_F]): its top is an entry that the
    comparison puts below no entry, that is, an entry of least [m_F].
    [m_F] of a cell is written only before the cell is pushed, so the order
    of the queue is the order of the current [m_F] values.  The list keeps
    the entries in the order they were pushed. *)
Definition F_of (m : gmap Vector3i cPathCell) (p : cell_ptr) : Z :=
  match m !! p with
  | Some c => Cell.m_F c
  | None => 0
  end.

Definition compareHeuristics (m : gmap Vector3i cPathCell)
    (a_Cell1 a_Cell2 : cell_ptr) : bool :=
  F_of m a_Cell2 <? F_of m a_Cell1.

(** The entries that may be on top of the heap: those that
    [compareHeuristics] puts below no entry. *)
Definition is_top (m : gmap Vector3i cPathCell) (l : list cell_ptr)
    (p : cell_ptr) : bool :=
  forallb (fun q => negb (compareHeuristics m p q)) l.

Definition top_candidates (m : gmap Vector3i cPathCell) (l : list cell_ptr)
  : list cell_ptr :=
  List.filter (is_top m l) l.

(** [m_OpenList.top()] on the open list [p :: l]: the only candidate, or
    among several the one that the heap has on top. *)
Definition queue_top (s : cPath) (p : cell_ptr) (l : list cell_ptr) : cell_ptr :=
  match top_candidates (m_Map s) (p :: l) with
  | [] => p
  | [c] => c
  | c :: cs => nth (heap_tie W s mod length (c :: cs)) (c :: cs) c
  end.

#[local] Arguments queue_top : simpl never.

Fixpoint remove_first (p : cell_ptr) (l : list cell_ptr) : list cell_ptr :=
  match l with
  | [] => []
  | q :: l' => if decide (p = q) then l' else q :: remove_first p l'
  end.

(** [cPath::OpenListPop]: [None] is the null pointer. *)
Definition OpenListPop : M (option cell_ptr) :=
  s ← get;
  match m_OpenList s with
  | [] => mret None
  | p :: l =>
      let Ret := queue_top s p l in
      modify (set_OpenList (remove_first Ret (p :: l)));;
      store Ret (Cell.set_Status CLOSEDLIST);;
      log (EvPop Ret);;
      mret (Some Ret)
  end.

(** [cPath::ProcessCell]; a null [a_Caller] is [None]. *)
Definition ProcessCell (a_Cell : cell_ptr) (a_Caller : option cell_ptr)
    (a_GDelta : Z) : M unit :=
  log (EvProcess a_Cell a_Caller a_GDelta);;
  c ← deref a_Cell;
  match Cell.m_Status c with
  | CLOSEDLIST => skip
  | NOLIST =>
      store a_Cell (Cell.set_Parent a_Caller);;
      match a_Caller with
      | Some caller =>
          cc ← deref caller;
          g ← int_of (Cell.m_G cc + a_GDelta);
          store a_Cell (Cell.set_G g)
      | None => store a_Cell (Cell.set_G 0)
      end;;
      s ← get;
      c ← deref a_Cell;
      h ← int_of (Length10 (vsub (Cell.m_Location c) (m_Destination s)));
      store a_Cell (Cell.set_H h);;
      c ← deref a_Cell;
      f ← int_of (Cell.m_H c + Cell.m_G c);
      store a_Cell (Cell.set_F f);;
      OpenListAdd a_Cell
  | OPENLIST =>
      match a_Caller with
      | None => fail BadPointer
      | Some caller =>
          cc ← deref caller;
          NewG ← int_of (Cell.m_G cc + a_GDelta);
          c ← deref a_Cell;
          if NewG <? Cell.m_G c then
            store a_Cell (Cell.set_G NewG);;
            c ← deref a_Cell;
            h ← int_of (Cell.m_F c + Cell.m_G c);
            store a_Cell (Cell.set_H h);;
            store a_Cell (Cell.set_Parent (Some caller))
          else skip
      end
  end.

(** [cPath::ProcessIfWalkable]; [&&] evaluates left to right and stops at the
    first false operand. *)
Definition ProcessIfWalkable (depth : nat) (a_Location : Vector3i)
    (a_Parent : cell_ptr) (a_Cost : Z) : M unit :=
  log (EvConsider a_Location a_Parent a_Cost);;
  cell ← GetCell depth a_Location;
  solid ← read_IsSolid a_Location cell;
  if solid : bool then skip else
  below ← GetCell_IsSolid depth (a_Location +v Vector3 0 (-1) 0);
  if negb below then skip else
  above ← GetCell_IsSolid depth (a_Location +v Vector3 0 1 0);
  if above : bool then skip else
  ProcessCell cell (Some a_Parent) a_Cost.

(** A [for] loop over a fixed list of values. *)
Fixpoint for_each {A} (l : list A) (body : A -> M unit) : M unit :=
  match l with
  | [] => skip
  | a :: l' => body a;; for_each l' body
  end.

(** The [do ... while (CurrentCell != nullptr)] loop of [StepOnce]. *)
Fixpoint collect_path (depth : nat) (CurrentCell : cell_ptr) : M unit :=
  match depth with
  | O => fail OutOfFuel
  | S depth' =>
      c ← deref CurrentCell;
      modify (fun s => set_PathPoints (m_PathPoints s ++ [Cell.m_Location c]) s);;
      match Cell.m_Parent c with
      | Some parent => collect_path depth' parent
      | None => skip
      end
  end.

(** The five places next to the destination at which the search stops. *)
Definition goal_offsets : list Vector3i :=
  [Vector3 0 0 1; Vector3 1 0 0; Vector3 (-1) 0 0; Vector3 0 0 (-1); Vector3 0 (-1) 0].

Definition at_goal (dest loc : Vector3i) : bool :=
  bool_decide (Exists (fun o => loc = dest +v o) goal_offsets).

(** The diagonal part of the body of [StepOnce], for one [x] and [z]. *)
Definition diagonal (depth : nat) (CurrentCell : cell_ptr) (loc : Vector3i)
    (x z : Z) : M unit :=
  c1 ← GetCell_IsSolid depth (loc +v Vector3 x 0 0);
  if c1 : bool then skip else
  c2 ← GetCell_IsSolid depth (loc +v Vector3 0 0 z);
  if c2 : bool then skip else
  f1 ← GetCell_IsSolid depth (loc +v Vector3 x (-1) 0);
  if negb f1 then skip else
  f2 ← GetCell_IsSolid depth (loc +v Vector3 0 (-1) z);
  if negb f2 then skip else
  ProcessIfWalkable depth (loc +v Vector3 x 0 z) CurrentCell 14.

(** One turn of the first loop of the expansion: the four neighbours at the
    height offset [i].  [CurrentCell->m_Location] is read at each call. *)
Definition expand_row (depth : nat) (CurrentCell : cell_ptr) (i : Z) : M unit :=
  c ← deref CurrentCell;
  ProcessIfWalkable depth (Cell.m_Location c +v Vector3 1 i 0) CurrentCell 10;;
  c ← deref CurrentCell;
  ProcessIfWalkable depth (Cell.m_Location c +v Vector3 (-1) i 0) CurrentCell 10;;
  c ← deref CurrentCell;
  ProcessIfWalkable depth (Cell.m_Location c +v Vector3 0 i 1) CurrentCell 10;;
  c ← deref CurrentCell;
  ProcessIfWalkable depth (Cell.m_Location c +v Vector3 0 i (-1)) CurrentCell 10.

(** The expansion of [CurrentCell]: everything in [StepOnce] after the two
    early returns. *)
Definition expand (depth : nat) (CurrentCell : cell_ptr) : M unit :=
  for_each [-1; 0; 1] (expand_row depth CurrentCell);;
  for_each [-1; 1] (fun x =>
    for_each [-1; 1] (fun z =>
      c ← deref CurrentCell;
      diagonal depth CurrentCell (Cell.m_Location c) x z)).

(** [cPath::StepOnce] *)
Definition StepOnce (depth : nat) : M bool :=
  modify (fun s => set_steps (S (g_steps s)) s);;
  cur ← OpenListPop;
  match cur with
  | None =>
      FinishCalculation PATH_NOT_FOUND;;
      mret true
  | Some CurrentCell =>
      c ← deref CurrentCell;
      s ← get;
      if at_goal (m_Destination s) (Cell.m_Location c) then
        collect_path depth CurrentCell;;
        FinishCalculation PATH_FOUND;;
        mret true
      else
        expand depth CurrentCell;;
        mret false
  end.

(** The loop of [cPath::Step]: [Step] is the loop counter, [fuel] bounds the
    number of iterations the model follows. *)
Fixpoint Step_loop (depth fuel : nat) (Step : Z) : M ePathFinderStatus :=
  s ← get;
  bound ← int_of (CALCULATIONS_PER_STEP * m_StepsLeft s);
  if decide (Step = bound) then
    FinishCalculation PATH_NOT_FOUND;;
    s ← get;
    mret (m_Status s)
  else
    match fuel with
    | O => fail OutOfFuel
    | S fuel' =>
        done ← StepOnce depth;
        if done : bool then
          s ← get;
          mret (m_Status s)
        else
          Step' ← int_of (Step + 1);
          Step_loop depth fuel' Step'
    end.

(** [cPath::Step] *)
Definition Step (depth fuel : nat) : M ePathFinderStatus :=
  Step_loop depth fuel 1.

(** The object before the body of the constructor runs: the two locations
    are set by the member initialisers, the containers are empty;
    [m_Status] and [m_StepsLeft] hold no value yet (the placeholders are
    overwritten before they are read). *)
Definition cPath_init (a_StartingPoint a_EndingPoint : Vector3i) : cPath :=
  mkPath a_EndingPoint a_StartingPoint PATH_FOUND 0 ∅ [] [] [] [] 0.

(** The body of the constructor [cPath::cPath].  The result tells whether
    [std::async] was asked to run [Step]. *)
Definition cPath_body (depth : nat) (a_StartingPoint : Vector3i)
    (a_MaxSteps : Z) : M bool :=
  s ← get;
  src ← GetCell_IsSolid depth (m_Source s);
  dst ← (if src : bool then mret true else GetCell_IsSolid depth (m_Destination s));
  if dst : bool then
    modify (set_Status PATH_NOT_FOUND);;
    mret false
  else
    modify (set_Status CALCULATING);;
    modify (set_StepsLeft a_MaxSteps);;
    start ← GetCell depth a_StartingPoint;
    ProcessCell start None 0;;
    mret true.

Definition cPath_new (depth : nat) (a_StartingPoint a_EndingPoint : Vector3i)
    (a_MaxSteps : Z) : result (bool * cPath) :=
  cPath_body depth a_StartingPoint a_MaxSteps
    (cPath_init a_StartingPoint a_EndingPoint).

(** A whole search: the constructor, and the asynchronous call of [Step]
    run to its end when the constructor started one. *)
Definition search (depth fuel : nat) (a_StartingPoint a_EndingPoint : Vector3i)
    (a_MaxSteps : Z) : result (ePathFinderStatus * cPath) :=
  match cPath_new depth a_StartingPoint a_EndingPoint a_MaxSteps with
  | Ok (true, s) => Step depth fuel s
  | Ok (false, s) => Ok (m_Status s, s)
  | Err e => Err e
  end.

End Path.

(** ** Sample worlds *)

Definition AIR : BLOCKTYPE := 0.
Definition STONE : BLOCKTYPE := 1.
Definition STATIONARY_WATER : BLOCKTYPE := 9.
Definition FENCE : BLOCKTYPE := 85.
Definition FENCE_GATE : BLOCKTYPE := 107.

Definition sample_IsSolid (b : BLOCKTYPE) : bool :=
  bool_decide (b ∈ [STONE; FENCE; FENCE_GATE]).

(** The heap of a sample world has the entry on top that was pushed first
    among those of least [m_F]. *)
Definition world_of (blocks : Vector3i -> option BLOCKTYPE) : World :=
  {| GetBlock := blocks;
     cBlockInfo_IsSolid := sample_IsSolid;
     E_BLOCK_FENCE := FENCE;
     E_BLOCK_FENCE_GATE := FENCE_GATE;
     E_BLOCK_STATIONARY_WATER := STATIONARY_WATER;
     heap_tie := fun _ => 0%nat |}.

(** The world [W] with a heap that breaks ties as [tie] says. *)
Definition with_tie (tie : cPath -> nat) (W : World) : World :=
  {| GetBlock := GetBlock W;
     cBlockInfo_IsSolid := cBlockInfo_IsSolid W;
     E_BLOCK_FENCE := E_BLOCK_FENCE W;
     E_BLOCK_FENCE_GATE := E_BLOCK_FENCE_GATE W;
     E_BLOCK_STATIONARY_WATER := E_BLOCK_STATIONARY_WATER W;
     heap_tie := tie |}.

(** A flat floor: stone below height 0, air from height 0 upwards. *)
Definition flat_floor : World :=
  world_of (fun loc => Some (if vy loc <? 0 then STONE else AIR)).

(** ** Vocabulary of the statements *)

(** The cache as [GetCell] keeps it: the oracle was asked once for each
    location that has a cell and for no other, and the cell stored for a
    location carries that location. *)
Definition cache_inv (s : cPath) : Prop :=
  NoDup (g_oracle s) /\
  (forall loc, loc ∈ g_oracle s <-> is_Some (m_Map s !! loc)) /\
  (forall k c, m_Map s !! k = Some c -> Cell.m_Location c = k).

(** What one call of [GetCell] does to a cache that satisfies [cache_inv]. *)
Definition GetCell_post (g : Vector3i -> M cell_ptr) : Prop :=
  forall loc s p s1,
    cache_inv s -> g loc s = Ok (p, s1) ->
    p = loc /\ cache_inv s1 /\ is_Some (m_Map s1 !! loc) /\
    (forall k, is_Some (m_Map s !! k) -> is_Some (m_Map s1 !! k)) /\
    (is_Some (m_Map s !! loc) -> s1 = s) /\
    (m_Map s !! loc = None ->
       exists new, g_oracle s1 = new ++ loc :: g_oracle s).

Definition keeps {X A} (proj : cPath -> X) (m : M A) : Prop :=
  forall s a s1, m s = Ok (a, s1) -> proj s1 = proj s.

(** A projection that does not look at the map, at the oracle log, ... *)
Definition ignores_Map {X} (proj : cPath -> X) :=
  forall s m, proj (set_Map m s) = proj s.
Definition ignores_oracle {X} (proj : cPath -> X) :=
  forall s o, proj (set_oracle o s) = proj s.
Definition ignores_trace {X} (proj : cPath -> X) :=
  forall s t, proj (set_trace t s) = proj s.
Definition ignores_OpenList {X} (proj : cPath -> X) :=
  forall s l, proj (set_OpenList l s) = proj s.

Definition ignores_Status {X} (proj : cPath -> X) :=
  forall s v, proj (set_Status v s) = proj s.
Definition ignores_PathPoints {X} (proj : cPath -> X) :=
  forall s v, proj (set_PathPoints v s) = proj s.
Definition ignores_steps {X} (proj : cPath -> X) :=
  forall s v, proj (set_steps v s) = proj s.

(** Reference behaviour for a loop without budget: [StepOnce] again and
    again until it says that no more calculation is needed. *)
Fixpoint run_to_end (W : World) (depth fuel : nat) : M ePathFinderStatus :=
  match fuel with
  | O => fail OutOfFuel
  | S fuel' =>
      done ← StepOnce W depth;
      if done : bool then
        s ← get;
        mret (m_Status s)
      else run_to_end W depth fuel'
  end.

(** What a finished search shows to the caller, and the number of calls of
    [StepOnce] it took. *)
Definition report (r : result (ePathFinderStatus * cPath))
  : option (ePathFinderStatus * list Vector3i * nat) :=
  match r with
  | Ok (st, s) => Some (st, m_PathPoints s, g_steps s)
  | Err _ => None
  end.

(** [n] calls of [StepOnce] in a row (fewer when one of them finishes). *)
Fixpoint StepOnce_times (W : World) (depth n : nat) : M bool :=
  match n with
  | O => mret false
  | S n' =>
      done ← StepOnce W depth;
      if done : bool then mret true else StepOnce_times W depth n'
  end.

(** The cell of [loc] after the constructor and [n] calls of [StepOnce]. *)
Definition cell_after (W : World) (depth n : nat)
    (a_StartingPoint a_EndingPoint : Vector3i) (a_MaxSteps : Z)
    (loc : Vector3i) : option cPathCell :=
  match cPath_new W depth a_StartingPoint a_EndingPoint a_MaxSteps with
  | Ok (true, s) =>
      match StepOnce_times W depth n s with
      | Ok (false, s1) => m_Map s1 !! loc
      | _ => None
      end
  | _ => None
  end.

(** The flat floor with two stone blocks on it. *)
Definition two_blocks : World :=
  world_of (fun loc =>
    Some (if vy loc <? 0 then STONE
          else if bool_decide (loc = Vector3 3 0 0 \/ loc = Vector3 2 0 1) then STONE
          else AIR)).

(** The flat floor with a fence post at the origin and a block of
    stationary water on top of the post. *)
Definition water_on_fence : World :=
  world_of (fun loc =>
    Some (if vy loc <? 0 then STONE
          else if bool_decide (loc = Vector3 0 0 0) then FENCE
          else if bool_decide (loc = Vector3 0 1 0) then STATIONARY_WATER
          else AIR)).

(** The flat floor with a fence post in the floor, at (1,-1,1). *)
Definition fence_in_floor : World :=
  world_of (fun loc =>
    Some (if bool_decide (loc = Vector3 1 (-1) 1) then FENCE
          else if vy loc <? 0 then STONE else AIR)).

(** The trace after the constructor and [n] calls of [StepOnce]. *)
Definition trace_after (W : World) (depth n : nat)
    (a_StartingPoint a_EndingPoint : Vector3i) (a_MaxSteps : Z) : list event :=
  match cPath_new W depth a_StartingPoint a_EndingPoint a_MaxSteps with
  | Ok (true, s) =>
      match StepOnce_times W depth n s with
      | Ok (_, s1) => g_trace s1
      | Err _ => []
      end
  | _ => []
  end.

(** The last [n] events of a trace. *)
Definition last_events (n : nat) (t : list event) : list event :=
  drop (length t - n) t.

(** [IsSolid] of the cell of [loc] after the given calls of [GetCell] on an
    empty cache, and the locations the oracle was asked for (latest first). *)
Definition solid_after (W : World) (calls : list Vector3i) (loc : Vector3i)
  : option (bool * list Vector3i) :=
  match for_each calls (fun l => GetCell W 5 l;; skip)
          (cPath_init (Vector3 0 0 0) (Vector3 0 0 0)) with
  | Ok (_, s) =>
      match m_Map s !! loc with
      | Some c => Some (Cell.m_IsSolid c, g_oracle s)
      | None => None
      end
  | Err _ => None
  end.

(** The only write of [IsSolid] to a cell that exists is [m_IsSolid = true]. *)
Definition cell_upd (c c1 : cPathCell) : Prop :=
  c1 = c \/ c1 = Cell.set_IsSolid true c.

(** A cell as [GetCell] leaves it when it has created it. *)
Definition new_cell (k : Vector3i) (solid : bool) : cPathCell :=
  Cell.mk k 0 0 0 NOLIST None solid.

Definition map_grows (m m1 : gmap Vector3i cPathCell) : Prop :=
  (forall k c, m !! k = Some c -> exists c1, m1 !! k = Some c1 /\ cell_upd c c1) /\
  (forall k c1, m1 !! k = Some c1 -> m !! k = None -> exists b, c1 = new_cell k b).

Definition GetCell_grows_post (g : Vector3i -> M cell_ptr) : Prop :=
  forall loc s p s1, g loc s = Ok (p, s1) ->
    p = loc /\ map_grows (m_Map s) (m_Map s1) /\ is_Some (m_Map s1 !! loc).

(** The value that [IsSolid] returns for a location. *)
Definition world_solid (W : World) (loc : Vector3i) : bool :=
  match GetBlock W loc with
  | None => true
  | Some BlockType => cBlockInfo_IsSolid W BlockType
  end.

(** How the cached flag of a location relates to the world.  A flag that is
    clear belongs to a block that is not solid.  A flag that is set belongs
    to a solid block (or to a location without a valid chunk), or was forced
    by [IsSolid] of the fence or fence gate right below, or of the
    stationary water right above. *)
Definition fence_below (W : World) (k : Vector3i) : Prop :=
  exists bt, GetBlock W (k +v Vector3 0 (-1) 0) = Some bt /\
    (bt = E_BLOCK_FENCE W \/ bt = E_BLOCK_FENCE_GATE W).

Definition water_above (W : World) (k : Vector3i) : Prop :=
  GetBlock W (k +v Vector3 0 1 0) = Some (E_BLOCK_STATIONARY_WATER W).

Definition read_ok (W : World) (loc : Vector3i) (solid : bool) : Prop :=
  if solid then world_solid W loc = true \/ fence_below W loc \/ water_above W loc
  else world_solid W loc = false.

(** The cache agrees with the world in that sense, but for the cells in
    [pending], whose [GetCell] has not returned yet. *)
Definition cache_faithful_ex (W : World) (pending : Vector3i -> Prop)
    (s : cPath) : Prop :=
  forall k c, m_Map s !! k = Some c ->
    pending k \/ read_ok W k (Cell.m_IsSolid c).

Definition cache_faithful (W : World) (s : cPath) : Prop :=
  forall k c, m_Map s !! k = Some c -> read_ok W k (Cell.m_IsSolid c).

(** Every read in the trace has a value that agrees with the world. *)
Definition reads_explained (W : World) (t : list event) : Prop :=
  forall loc b, EvRead loc b ∈ t -> read_ok W loc b.

Definition reads_faithful (W : World) (s : cPath) : Prop :=
  cache_faithful W s /\ reads_explained W (g_trace s).

Definition hoare {A} (P : cPath -> Prop) (m : M A) (Q : A -> cPath -> Prop) : Prop :=
  forall s a s1, P s -> m s = Ok (a, s1) -> Q a s1.

Definition preserves {A} (I : cPath -> Prop) (m : M A) : Prop :=
  hoare I m (fun _ => I).

(** The three reads of [ProcessIfWalkable] that let a candidate through. *)
Definition walk_reads (loc : Vector3i) : list event :=
  [EvRead loc false;
   EvRead (loc +v Vector3 0 (-1) 0) true;
   EvRead (loc +v Vector3 0 1 0) false].

(** The four reads of [StepOnce] that let the diagonal [(x, 0, z)] of the
    cell at [c] through: both flanking cells not solid, both cells below the
    flanking cells solid. *)
Definition flank_reads (c : Vector3i) (x z : Z) : list event :=
  [EvRead (c +v Vector3 x 0 0) false;
   EvRead (c +v Vector3 0 0 z) false;
   EvRead (c +v Vector3 x (-1) 0) true;
   EvRead (c +v Vector3 0 (-1) z) true].

Definition is_unit (x : Z) : Prop := x = -1 \/ x = 1.

Definition orthogonal (off : Vector3i) : Prop :=
  exists i, (i = -1 \/ i = 0 \/ i = 1) /\
    (off = Vector3 1 i 0 \/ off = Vector3 (-1) i 0 \/
     off = Vector3 0 i 1 \/ off = Vector3 0 i (-1)).

(** What must come right before an event:
    - [ProcessCell] is entered with a caller only from [ProcessIfWalkable],
      right after its three reads came out not solid, solid, not solid;
    - [ProcessIfWalkable] is entered at cost 10 for an orthogonal neighbour
      of the caller, and at cost 14 for a diagonal neighbour right after the
      four reads of the flanks came out not solid, not solid, solid, solid;
    - a cell is pushed only inside [ProcessCell] for that cell. *)
Definition justified (pre : list event) (e : event) : Prop :=
  match e with
  | EvProcess cell (Some p) cost =>
      exists pre1, pre = pre1 ++ EvConsider cell p cost :: walk_reads cell
  | EvConsider d c cost =>
      (cost = 10 /\ exists off, orthogonal off /\ d = c +v off) \/
      (cost = 14 /\ exists x z, is_unit x /\ is_unit z /\ d = c +v Vector3 x 0 z /\
         exists pre1, pre = pre1 ++ flank_reads c x z)
  | EvPush cell =>
      exists pre1 caller cost, pre = pre1 ++ [EvProcess cell caller cost]
  | _ => True
  end.

Definition wf_trace (t : list event) : Prop :=
  forall pre e post, t = pre ++ e :: post -> justified pre e.

Fixpoint justified_all (t ext : list event) : Prop :=
  match ext with
  | [] => True
  | e :: ext' => justified t e /\ justified_all (t ++ [e]) ext'
  end.

(** What one call of [ProcessCell] does, case by case. *)
Definition ProcessCell_result (cell : Vector3i) (caller : option Vector3i)
    (cost : Z) (s s1 : cPath) : Prop :=
  exists c, m_Map s !! cell = Some c /\
  let logged := set_trace (g_trace s ++ [EvProcess cell caller cost]) s in
  match Cell.m_Status c with
  | CLOSEDLIST => s1 = logged
  | NOLIST =>
      exists g,
        match caller with
        | Some p => exists cc, m_Map s !! p = Some cc /\ g = Cell.m_G cc + cost
        | None => g = 0
        end /\
        let h := Length10 (vsub (Cell.m_Location c) (m_Destination s)) in
        s1 = set_trace (g_trace s ++ [EvProcess cell caller cost; EvPush cell])
               (set_OpenList (m_OpenList s ++ [cell])
                  (set_Map (<[cell := Cell.mk (Cell.m_Location c) (h + g) g h
                                        OPENLIST caller (Cell.m_IsSolid c)]> (m_Map s)) s))
  | OPENLIST =>
      exists p cc, caller = Some p /\ m_Map s !! p = Some cc /\
        let NewG := Cell.m_G cc + cost in
        if NewG <? Cell.m_G c then
          s1 = set_Map (<[cell := Cell.mk (Cell.m_Location c) (Cell.m_F c) NewG
                                    (Cell.m_F c + NewG) OPENLIST (Some p)
                                    (Cell.m_IsSolid c)]> (m_Map s)) logged
        else s1 = logged
  end.

(** The two ways out of [ProcessIfWalkable]: one of the three checks failed
    and nothing but the cache has changed, or all three passed and
    [ProcessCell] ran on the candidate. *)
Definition walk_rejected (loc : Vector3i) (reads : list event) : Prop :=
  reads = [EvRead loc true] \/
  reads = [EvRead loc false; EvRead (loc +v Vector3 0 (-1) 0) false] \/
  reads = [EvRead loc false; EvRead (loc +v Vector3 0 (-1) 0) true;
           EvRead (loc +v Vector3 0 1 0) true].

Definition ProcessIfWalkable_result (loc par : Vector3i) (cost : Z)
    (s s1 : cPath) : Prop :=
  (exists reads, walk_rejected loc reads /\
     g_trace s1 = g_trace s ++ EvConsider loc par cost :: reads /\
     m_OpenList s1 = m_OpenList s /\ map_grows (m_Map s) (m_Map s1)) \/
  (exists s0,
     g_trace s0 = g_trace s ++ EvConsider loc par cost :: walk_reads loc /\
     m_OpenList s0 = m_OpenList s /\ map_grows (m_Map s) (m_Map s0) /\
     (cache_inv s -> cache_inv s0) /\
     ProcessCell loc (Some par) cost s0 = Ok (tt, s1)).

(** The same for the diagonal [(x, 0, z)] of the cell at [loc]. *)
Definition flank_rejected (loc : Vector3i) (x z : Z) (reads : list event) : Prop :=
  reads = [EvRead (loc +v Vector3 x 0 0) true] \/
  reads = [EvRead (loc +v Vector3 x 0 0) false; EvRead (loc +v Vector3 0 0 z) true] \/
  reads = [EvRead (loc +v Vector3 x 0 0) false; EvRead (loc +v Vector3 0 0 z) false;
           EvRead (loc +v Vector3 x (-1) 0) false] \/
  reads = [EvRead (loc +v Vector3 x 0 0) false; EvRead (loc +v Vector3 0 0 z) false;
           EvRead (loc +v Vector3 x (-1) 0) true; EvRead (loc +v Vector3 0 (-1) z) false].

Definition diagonal_result (W : World) (depth : nat) (cur loc : Vector3i) (x z : Z)
    (s s1 : cPath) : Prop :=
  (exists reads, flank_rejected loc x z reads /\
     g_trace s1 = g_trace s ++ reads /\
     m_OpenList s1 = m_OpenList s /\ map_grows (m_Map s) (m_Map s1)) \/
  (exists s0,
     g_trace s0 = g_trace s ++ flank_reads loc x z /\
     m_OpenList s0 = m_OpenList s /\ map_grows (m_Map s) (m_Map s0) /\
     (cache_inv s -> cache_inv s0) /\
     ProcessIfWalkable W depth (loc +v Vector3 x 0 z) cur 14 s0 = Ok (tt, s1)).

(** Every parent link was written by a call of [ProcessCell] that is in the
    trace. *)
Definition parents_logged (s : cPath) : Prop :=
  forall k c p, m_Map s !! k = Some c -> Cell.m_Parent c = Some p ->
    exists cost, EvProcess k (Some p) cost ∈ g_trace s.

Definition search_inv (s : cPath) : Prop :=
  cache_inv s /\ wf_trace (g_trace s) /\ parents_logged s.

(** Every step of a reported path is a parent link that was logged. *)
Definition path_logged (s : cPath) : Prop :=
  forall i a b, m_PathPoints s !! i = Some a -> m_PathPoints s !! S i = Some b ->
    exists cost, EvProcess a (Some b) cost ∈ g_trace s.

(** The way points that the loop of [StepOnce] collects from [cur]. *)
Fixpoint chain (m : gmap Vector3i cPathCell) (cur : Vector3i)
    (pts : list Vector3i) : Prop :=
  match pts with
  | [] => False
  | a :: rest =>
      exists c, m !! cur = Some c /\ a = Cell.m_Location c /\
        match Cell.m_Parent c with
        | None => rest = []
        | Some p => chain m p rest
        end
  end.

(** A search that is still calculating, and one that has come to its end. *)
Definition running (s : cPath) : Prop := search_inv s /\ m_PathPoints s = [].
Definition finished (s : cPath) : Prop := wf_trace (g_trace s) /\ path_logged s.

(** The trace only grows. *)
Definition prefix_of (t : list event) (s : cPath) : Prop :=
  exists ext, g_trace s = t ++ ext.

(** ** Vocabulary of the further properties *)

(** The cells that [OpenListAdd] pushed and the cells that [OpenListPop]
    popped, in the order of the trace. *)
Definition pushes (t : list event) : list Vector3i :=
  omap (fun e => match e with EvPush k => Some k | _ => None end) t.

Definition pops (t : list event) : list Vector3i :=
  omap (fun e => match e with EvPop k => Some k | _ => None end) t.

(** [m_Status] of the cell of [k], when there is one. *)
Definition status_of (m : gmap Vector3i cPathCell) (k : Vector3i)
  : option eCellStatus :=
  Cell.m_Status <$> m !! k.

(** [rooted m src n k]: the cell of [k] is on the closed list and [n] parent
    links, each to a cell on the closed list, lead from it to the cell of
    [src], which has no parent. *)
Fixpoint rooted (m : gmap Vector3i cPathCell) (src : Vector3i) (n : nat)
    (k : Vector3i) : Prop :=
  match m !! k with
  | Some c =>
      Cell.m_Status c = CLOSEDLIST /\
      match n, Cell.m_Parent c with
      | O, None => k = src
      | S n', Some p => rooted m src n' p
      | _, _ => False
      end
  | None => False
  end.

(** A cell on the open list is the start cell without a parent, or has a
    parent that is rooted. *)
Definition open_ok (m : gmap Vector3i cPathCell) (src k : Vector3i)
    (c : cPathCell) : Prop :=
  match Cell.m_Parent c with
  | None => k = src
  | Some p => exists n, rooted m src n p
  end.

(** The discipline of the two lists while the search runs: the open list
    holds, once each, the cells of status [OPENLIST]; the cells that were
    pushed are those on the open or the closed list and the cells that were
    popped are those on the closed list, each pushed and popped once; every
    cell on the closed list is rooted and every cell on the open list is
    [open_ok]. *)
Definition lists_inv (src : Vector3i) (s : cPath) : Prop :=
  NoDup (m_OpenList s) /\
  (forall k, k ∈ m_OpenList s <-> status_of (m_Map s) k = Some OPENLIST) /\
  (forall k, status_of (m_Map s) k = Some CLOSEDLIST ->
     exists n, rooted (m_Map s) src n k) /\
  (forall k c, m_Map s !! k = Some c -> Cell.m_Status c = OPENLIST ->
     open_ok (m_Map s) src k c) /\
  NoDup (pushes (g_trace s)) /\ NoDup (pops (g_trace s)) /\
  (forall k, k ∈ pushes (g_trace s) <->
     status_of (m_Map s) k = Some OPENLIST \/ status_of (m_Map s) k = Some CLOSEDLIST) /\
  (forall k, k ∈ pops (g_trace s) <-> status_of (m_Map s) k = Some CLOSEDLIST).

(** Two maps that agree on the status and the parent of every cell that is
    on a list. *)
Definition lists_same (m m1 : gmap Vector3i cPathCell) : Prop :=
  (forall k c, m !! k = Some c ->
     exists c1, m1 !! k = Some c1 /\ Cell.m_Status c1 = Cell.m_Status c /\
       Cell.m_Parent c1 = Cell.m_Parent c) /\
  (forall k c1, m1 !! k = Some c1 -> Cell.m_Status c1 <> NOLIST ->
     exists c, m !! k = Some c /\ Cell.m_Status c = Cell.m_Status c1 /\
       Cell.m_Parent c = Cell.m_Parent c1).

(** Every cell on the closed list of [m] is still there in [m1], with the
    same parent. *)
Definition closed_kept (m m1 : gmap Vector3i cPathCell) : Prop :=
  forall k c, m !! k = Some c -> Cell.m_Status c = CLOSEDLIST ->
    exists c1, m1 !! k = Some c1 /\ Cell.m_Status c1 = CLOSEDLIST /\
      Cell.m_Parent c1 = Cell.m_Parent c.

(** The cell of [k] is on the closed list. *)
Definition is_closed (s : cPath) (k : Vector3i) : Prop :=
  status_of (m_Map s) k = Some CLOSEDLIST.

(** The state during the expansion of the popped cell [cur]. *)
Definition expanding (src cur : Vector3i) (s : cPath) : Prop :=
  lists_inv src s /\ is_closed s cur.

(** What is left of [lists_inv] once the cache is freed. *)
Definition lists_done (s : cPath) : Prop :=
  NoDup (pushes (g_trace s)) /\ NoDup (pops (g_trace s)) /\
  (forall k, k ∈ pops (g_trace s) -> k ∈ pushes (g_trace s)).

(** The reported path: no way point twice; with [PATH_FOUND] it begins at
    one of the five places next to the destination and ends at the start;
    otherwise it is empty. *)
Definition path_ok (src dest : Vector3i) (s : cPath) : Prop :=
  NoDup (m_PathPoints s) /\
  match m_Status s with
  | PATH_FOUND =>
      exists first, head (m_PathPoints s) = Some first /\
        at_goal dest first = true /\ last (m_PathPoints s) = Some src
  | _ => m_PathPoints s = []
  end.

(** A search under way, and one that has come to its end. *)
Definition searching (src dest : Vector3i) (s : cPath) : Prop :=
  running s /\ lists_inv src s /\ m_Destination s = dest.

Definition search_done (src dest : Vector3i) (s : cPath) : Prop :=
  lists_done s /\ path_ok src dest s.

(** What may happen to a cell between two states of a running search: the
    location stays; a cell on the open list stays on a list, keeps [m_F] and
    does not raise [m_G]; a cell on the closed list changes in nothing but
    [m_IsSolid], which may be forced to true. *)
Definition settled (c c1 : cPathCell) : Prop :=
  Cell.m_Location c1 = Cell.m_Location c /\
  match Cell.m_Status c with
  | NOLIST => True
  | OPENLIST =>
      Cell.m_Status c1 <> NOLIST /\ Cell.m_F c1 = Cell.m_F c /\
      Cell.m_G c1 <= Cell.m_G c
  | CLOSEDLIST => cell_upd c c1
  end.

(** No cell of [m] is missing from [m1], and each has changed as [settled]
    allows. *)
Definition cells_settle (m m1 : gmap Vector3i cPathCell) : Prop :=
  forall k c, m !! k = Some c -> exists c1, m1 !! k = Some c1 /\ settled c c1.

(** From a state that satisfies [P], [m] dereferences no null pointer and
    no pointer to a cell that is not in the map. *)
Definition safe {A} (P : cPath -> Prop) (m : M A) : Prop :=
  forall s, P s -> m s <> Err BadPointer.

(** The map holds a cell for [k]: a pointer to it may be dereferenced. *)
Definition has_cell (k : Vector3i) (s : cPath) : Prop := is_Some (m_Map s !! k).

(** ** Reasoning about member functions *)

Lemma bind_Ok {A B} (m : M A) (f : A -> M B) s b s2 :
  ((m ≫= f) : M B) s = Ok (b, s2) ->
  exists a s1, m s = Ok (a, s1) /\ f a s1 = Ok (b, s2).
Proof.
  unfold mbind, M_bind. destruct (m s) as [[a s1]|e]; [|discriminate].
  intros H. exists a, s1. split; [reflexivity|exact H].
Qed.

Lemma ret_Ok {A} (a b : A) s s1 :
  (mret a : M A) s = Ok (b, s1) -> b = a /\ s1 = s.
Proof. unfold mret, M_ret. intros H. injection H as <- <-. auto. Qed.

Lemma skip_Ok a s s1 : skip s = Ok (a, s1) -> s1 = s.
Proof. unfold skip. intros H. apply ret_Ok in H. tauto. Qed.

Lemma get_Ok a s s1 : get s = Ok (a, s1) -> a = s /\ s1 = s.
Proof. unfold get. intros H. injection H as <- <-. auto. Qed.

Lemma modify_Ok f a s s1 : modify f s = Ok (a, s1) -> s1 = f s.
Proof. unfold modify. intros H. injection H as <-. auto. Qed.

Lemma fail_Ok {A} e s (r : A * cPath) : fail e s = Ok r -> False.
Proof. discriminate. Qed.

Lemma log_Ok e a s s1 :
  log e s = Ok (a, s1) -> s1 = set_trace (g_trace s ++ [e]) s.
Proof. unfold log. intros H. apply modify_Ok in H. exact H. Qed.

Lemma int_of_Ok z a s s1 :
  int_of z s = Ok (a, s1) -> a = z /\ s1 = s /\ in_int z = true.
Proof.
  unfold int_of. destruct (in_int z); [|discriminate].
  intros H. apply ret_Ok in H. tauto.
Qed.

Lemma deref_Ok p c s s1 :
  deref p s = Ok (c, s1) -> m_Map s !! p = Some c /\ s1 = s.
Proof.
  unfold deref. destruct (m_Map s !! p); [|discriminate].
  intros H. injection H as <- <-. auto.
Qed.

Lemma store_Ok p f a s s1 :
  store p f s = Ok (a, s1) ->
  exists c, m_Map s !! p = Some c /\ s1 = set_Map (<[p := f c]> (m_Map s)) s.
Proof.
  unfold store. destruct (m_Map s !! p) as [c|]; [|discriminate].
  intros H. injection H as <-. eauto.
Qed.

(** Take a run that returned apart, one primitive at a time. *)
Ltac minv_step :=
  match goal with
  | H : @mbind M _ _ _ _ _ _ = Ok _ |- _ =>
      apply bind_Ok in H; destruct H as (? & ? & ? & ?)
  | H : @mret M _ _ _ _ = Ok _ |- _ => apply ret_Ok in H; destruct H; subst
  | H : skip _ = Ok _ |- _ => apply skip_Ok in H; subst
  | H : get _ = Ok _ |- _ => apply get_Ok in H; destruct H; subst
  | H : modify _ _ = Ok _ |- _ => apply modify_Ok in H; subst
  | H : fail _ _ = Ok _ |- _ => destruct (fail_Ok _ _ _ H)
  | H : log _ _ = Ok _ |- _ => apply log_Ok in H; subst
  | H : int_of _ _ = Ok _ |- _ => apply int_of_Ok in H; destruct H as (? & ? & ?); subst
  | H : deref _ _ = Ok _ |- _ => apply deref_Ok in H; destruct H; subst
  | H : store _ _ _ = Ok _ |- _ => apply store_Ok in H; destruct H as (? & ? & ?); subst
  | H : (if ?b then _ else _) _ = Ok _ |- _ => destruct b eqn:?
  | H : (match ?x with _ => _ end) _ = Ok _ |- _ => destruct x eqn:?
  end.

Ltac minv := repeat minv_step.

(** ** The top of the heap *)

Lemma is_top_least m l p :
  is_top m l p = true <-> forall q, q ∈ l -> F_of m p <= F_of m q.
Proof.
  unfold is_top. rewrite forallb_forall. split.
  - intros H q Hq. apply list_elem_of_In in Hq. specialize (H q Hq).
    unfold compareHeuristics in H. apply negb_true_iff, Z.ltb_ge in H. exact H.
  - intros H q Hq. apply list_elem_of_In in Hq. specialize (H q Hq).
    unfold compareHeuristics. apply negb_true_iff, Z.ltb_ge. exact H.
Qed.

Lemma top_candidates_spec m l c :
  c ∈ top_candidates m l <-> c ∈ l /\ forall q, q ∈ l -> F_of m c <= F_of m q.
Proof.
  unfold top_candidates. split.
  - intros H. apply list_elem_of_In, filter_In in H. destruct H as [H1 H2].
    split; [apply list_elem_of_In; exact H1|apply is_top_least; exact H2].
  - intros [H1 H2]. apply list_elem_of_In, filter_In.
    split; [apply list_elem_of_In; exact H1|apply is_top_least; exact H2].
Qed.

Lemma least_entry m : forall l : list Vector3i, l <> [] ->
  exists p, p ∈ l /\ forall q, q ∈ l -> F_of m p <= F_of m q.
Proof.
  induction l as [|a l IH]; intros Hne; [contradiction|].
  destruct l as [|b l].
  - exists a. split; [left|]. intros q Hq. apply list_elem_of_singleton in Hq.
    subst q. lia.
  - destruct (IH ltac:(discriminate)) as (p & Hp & Hmin).
    destruct (Z_le_gt_dec (F_of m a) (F_of m p)) as [Hle|Hgt].
    + exists a. split; [left|]. intros q Hq. apply elem_of_cons in Hq.
      destruct Hq as [->|Hq]; [lia|]. specialize (Hmin q Hq). lia.
    + exists p. split; [right; exact Hp|]. intros q Hq. apply elem_of_cons in Hq.
      destruct Hq as [->|Hq]; [lia|]. apply Hmin. exact Hq.
Qed.

Lemma queue_top_candidate W s p l :
  queue_top W s p l ∈ top_candidates (m_Map s) (p :: l).
Proof.
  unfold queue_top.
  destruct (top_candidates (m_Map s) (p :: l)) as [|c [|c' cs]] eqn:E.
  - exfalso. destruct (least_entry (m_Map s) (p :: l) ltac:(discriminate))
      as (q & Hq & Hmin).
    assert (H : q ∈ top_candidates (m_Map s) (p :: l))
      by (apply top_candidates_spec; auto).
    rewrite E in H. inversion H.
  - left.
  - apply list_elem_of_In, nth_In, Nat.mod_upper_bound. discriminate.
Qed.

(** The top is an entry of the open list, and one of least [m_F]. *)
Lemma queue_top_in W s p l : queue_top W s p l ∈ p :: l.
Proof. apply (top_candidates_spec (m_Map s)), queue_top_candidate. Qed.

Lemma queue_top_least W s p l q :
  q ∈ p :: l -> F_of (m_Map s) (queue_top W s p l) <= F_of (m_Map s) q.
Proof. apply (top_candidates_spec (m_Map s)), queue_top_candidate. Qed.

Lemma queue_top_single W s p : queue_top W s p [] = p.
Proof.
  assert (H := queue_top_in W s p []). apply list_elem_of_singleton in H. exact H.
Qed.

Section Cache.

Context (W : World).

Lemma cache_inv_store p f s c :
  (forall c, Cell.m_Location (f c) = Cell.m_Location c) ->
  m_Map s !! p = Some c ->
  cache_inv s -> cache_inv (set_Map (<[p := f c]> (m_Map s)) s).
Proof.
  intros Hf Hp (Hnd & Hdom & Hloc). split; [exact Hnd|]. split.
  - intros loc. simpl. rewrite Hdom, lookup_insert_is_Some.
    destruct (decide (p = loc)) as [->|Hne]; [|tauto].
    split; [auto|]. intros _. rewrite Hp. eauto.
  - intros k c1. simpl. rewrite lookup_insert. case_decide as Hk.
    + intros [= <-]. rewrite Hf. subst k. eauto.
    + apply Hloc.
Qed.

Lemma store_is_Some p f s c k :
  m_Map s !! p = Some c ->
  is_Some (m_Map s !! k) ->
  is_Some (m_Map (set_Map (<[p := f c]> (m_Map s)) s) !! k).
Proof.
  intros Hp Hk. simpl. rewrite lookup_insert_is_Some.
  destruct (decide (p = k)); auto.
Qed.

(** [IsSolid] runs between the insertion of the new cell and the write of
    its [m_IsSolid]: the cell of [loc] is in the map, the oracle has not been
    asked for [loc] yet. *)
Lemma IsSolid_with_cache g :
  GetCell_post g ->
  forall loc s b s1,
    NoDup (g_oracle s) -> loc ∉ g_oracle s ->
    (forall k, k ∈ g_oracle s \/ k = loc <-> is_Some (m_Map s !! k)) ->
    (forall k c, m_Map s !! k = Some c -> Cell.m_Location c = k) ->
    IsSolid_with W g loc s = Ok (b, s1) ->
    cache_inv s1 /\
    (forall k, is_Some (m_Map s !! k) -> is_Some (m_Map s1 !! k)) /\
    exists new, g_oracle s1 = new ++ loc :: g_oracle s.
Proof.
  intros Hg loc s b s1 Hnd Hfresh Hdom Hloc H.
  set (sa := set_oracle (loc :: g_oracle s) s).
  assert (Ha : cache_inv sa).
  { split; [|split]; simpl.
    - constructor; assumption.
    - intros k. rewrite <- Hdom, elem_of_cons. intuition congruence.
    - exact Hloc. }
  unfold IsSolid_with in H.
  apply bind_Ok in H. destruct H as (? & s0 & H0 & H). apply modify_Ok in H0.
  fold sa in H0. subst s0.
  destruct (GetBlock W loc) as [bt|].
  2:{ apply ret_Ok in H. destruct H as [_ ->].
      split; [exact Ha|]. split; [auto|]. exists []. reflexivity. }
  apply bind_Ok in H. destruct H as (? & sb & Hfence & H).
  apply bind_Ok in H. destruct H as (? & sc & Hwater & H).
  apply ret_Ok in H. destruct H as [_ ->].
  assert (Hside : forall (P : Prop) (cond : Decision P) off s2 s3 u,
             cache_inv s2 ->
             (if cond then p ← g (loc +v off); store p (Cell.set_IsSolid true)
              else skip) s2 = Ok (u, s3) ->
             cache_inv s3 /\
             (forall k, is_Some (m_Map s2 !! k) -> is_Some (m_Map s3 !! k)) /\
             exists new, g_oracle s3 = new ++ g_oracle s2).
  { intros P cond off s2 s3 u I2 Hc. destruct cond.
    - apply bind_Ok in Hc. destruct Hc as (q & s4 & Hget & Hst).
      destruct (Hg _ _ _ _ I2 Hget) as (-> & I4 & _ & Hmono & Hsame & Hnew).
      apply store_Ok in Hst. destruct Hst as (c & Hc & ->).
      split; [apply cache_inv_store; auto|].
      split; [intros k Hk; apply store_is_Some; auto|].
      simpl. destruct (m_Map s2 !! (loc +v off)) eqn:E.
      + rewrite (Hsame (mk_is_Some _ _ eq_refl)). exists []. reflexivity.
      + destruct (Hnew eq_refl) as (new & ->). exists (new ++ [loc +v off]).
        rewrite <- app_assoc. reflexivity.
    - apply skip_Ok in Hc. subst. split; [auto|]. split; [auto|].
      exists []. reflexivity. }
  destruct (Hside _ _ _ _ _ _ Ha Hfence) as (Ib & Hmb & nb & Hob).
  destruct (Hside _ _ _ _ _ _ Ib Hwater) as (Ic & Hmc & nc & Hoc).
  split; [exact Ic|]. split; [auto|].
  exists (nc ++ nb). rewrite Hoc, Hob. simpl. rewrite <- app_assoc. reflexivity.
Qed.

Lemma GetCell_cache depth : GetCell_post (GetCell W depth).
Proof.
  induction depth as [|depth IH]; intros loc s p s1 Inv H; simpl in H;
    apply bind_Ok in H; destruct H as (? & ? & Hg & H);
    apply get_Ok in Hg; destruct Hg as [-> ->];
    destruct (m_Map s !! loc) as [c|] eqn:E.
  1,3: apply ret_Ok in H; destruct H as [-> ->];
       rewrite E; split; [reflexivity|]; split; [exact Inv|];
       split; [eauto|]; split; [auto|]; split; [auto|discriminate].
  - destruct (fail_Ok _ _ _ H).
  - destruct Inv as (Hnd & Hdom & Hloc).
    apply bind_Ok in H. destruct H as (? & s2 & Hins & H). apply modify_Ok in Hins.
    apply bind_Ok in H. destruct H as (solid & s3 & Hsol & H).
    apply bind_Ok in H. destruct H as (? & s4 & Hst1 & H).
    apply bind_Ok in H. destruct H as (? & s5 & Hst2 & H).
    apply ret_Ok in H. destruct H as [-> ->].
    assert (Hfresh : loc ∉ g_oracle s).
    { rewrite Hdom, E. intros [? ?]; discriminate. }
    destruct (IsSolid_with_cache _ IH loc s2 solid s3) as (I3 & Hm3 & new & Ho3);
      subst s2; simpl; auto.
    { intros k. rewrite lookup_insert_is_Some, Hdom.
      destruct (decide (loc = k)); intuition congruence. }
    { intros k c. rewrite lookup_insert. case_decide as Hk.
      - intros [= <-]. simpl. congruence.
      - apply Hloc. }
    apply store_Ok in Hst1. destruct Hst1 as (c4 & Hc4 & ->).
    apply store_Ok in Hst2. destruct Hst2 as (c5 & Hc5 & ->).
    assert (I4 := cache_inv_store loc (Cell.set_IsSolid solid) s3 c4
                    (fun _ => eq_refl) Hc4 I3).
    assert (I5 := cache_inv_store loc (Cell.set_Status NOLIST) _ c5
                    (fun _ => eq_refl) Hc5 I4).
    split; [reflexivity|]. split; [exact I5|].
    split; [simpl; rewrite lookup_insert_eq; eauto|].
    split.
    { intros k Hk. apply store_is_Some; [exact Hc5|].
      apply store_is_Some; [exact Hc4|]. apply Hm3. simpl.
      rewrite lookup_insert_is_Some. destruct (decide (loc = k)); auto. }
    split; [intros [? ?]; discriminate|].
    intros _. exists new. simpl in *. exact Ho3.
Qed.

End Cache.

(** ** Members a function leaves alone *)

Section Keeps.

Context {X : Type} (proj : cPath -> X).

Lemma keeps_ret {A} (a : A) : keeps proj (mret a : M A).
Proof. intros s b s1 H. apply ret_Ok in H. destruct H as [_ ->]. reflexivity. Qed.

Lemma keeps_skip : keeps proj skip.
Proof. apply keeps_ret. Qed.

Lemma keeps_fail {A} e : keeps proj (fail e : M A).
Proof. intros s b s1 H. destruct (fail_Ok _ _ _ H). Qed.

Lemma keeps_get : keeps proj get.
Proof. intros s b s1 H. apply get_Ok in H. destruct H as [_ ->]. reflexivity. Qed.

Lemma keeps_int_of z : keeps proj (int_of z).
Proof. intros s b s1 H. apply int_of_Ok in H. destruct H as (_ & -> & _). reflexivity. Qed.

Lemma keeps_deref p : keeps proj (deref p).
Proof. intros s b s1 H. apply deref_Ok in H. destruct H as [_ ->]. reflexivity. Qed.

Lemma keeps_modify f : (forall s, proj (f s) = proj s) -> keeps proj (modify f).
Proof. intros Hf s b s1 H. apply modify_Ok in H. subst. apply Hf. Qed.

Lemma keeps_log e :
  (forall s t, proj (set_trace t s) = proj s) -> keeps proj (log e).
Proof. intros Hf. apply keeps_modify. intros s. apply Hf. Qed.

Lemma keeps_store p f :
  (forall s m, proj (set_Map m s) = proj s) -> keeps proj (store p f).
Proof. intros Hf s b s1 H. apply store_Ok in H. destruct H as (c & _ & ->). apply Hf. Qed.

Lemma keeps_bind {A B} (m : M A) (f : A -> M B) :
  keeps proj m -> (forall a, keeps proj (f a)) -> keeps proj (m ≫= f).
Proof.
  intros Hm Hf s b s2 H. apply bind_Ok in H. destruct H as (a & s1 & H1 & H2).
  rewrite (Hf _ _ _ _ H2). apply (Hm _ _ _ H1).
Qed.

End Keeps.

Create HintDb keeps.

(** Structural proof of [keeps]: follow the binds and branches, close the
    primitive writes by computation, the calls by the hints. *)
Ltac keeps_tac :=
  repeat first
    [ apply keeps_ret | apply keeps_skip | apply keeps_fail | apply keeps_get
    | apply keeps_int_of | apply keeps_deref
    | apply keeps_modify; intros; reflexivity
    | apply keeps_log; intros; reflexivity
    | apply keeps_store; intros; reflexivity
    | apply keeps_bind; [|intros ?]
    | match goal with
      | |- keeps _ (if ?b then _ else _) => destruct b
      | |- keeps _ (match ?x with _ => _ end) => destruct x
      end
    | solve [eauto with keeps] ].

Ltac ignores_tac :=
  solve [ unfold ignores_Map, ignores_oracle, ignores_trace, ignores_OpenList;
          intros; reflexivity ].

Section KeepsFunctions.

Context (W : World) {X : Type} (proj : cPath -> X).
Context (HMap : ignores_Map proj) (Horacle : ignores_oracle proj).

Lemma IsSolid_with_keeps g loc :
  (forall l, keeps proj (g l)) -> keeps proj (IsSolid_with W g loc).
Proof.
  intros Hg. unfold IsSolid_with.
  apply keeps_bind; [apply keeps_modify; intros; apply Horacle|intros _].
  destruct (GetBlock W loc); [|apply keeps_ret].
  repeat first
    [ apply keeps_ret | apply keeps_skip | apply Hg
    | apply keeps_store; exact HMap
    | apply keeps_bind; [|intros ?]
    | match goal with |- keeps _ (if ?b then _ else _) => destruct b end ].
Qed.

Lemma GetCell_keeps depth loc : keeps proj (GetCell W depth loc).
Proof.
  revert loc. induction depth as [|depth IH]; intros loc; simpl;
    (apply keeps_bind; [apply keeps_get|intros s0]);
    destruct (m_Map s0 !! loc); try apply keeps_ret; try apply keeps_fail.
  apply keeps_bind; [apply keeps_modify; intros; apply HMap|intros _].
  apply keeps_bind; [apply IsSolid_with_keeps; exact IH|intros ?].
  apply keeps_bind; [apply keeps_store; exact HMap|intros _].
  apply keeps_bind; [apply keeps_store; exact HMap|intros _].
  apply keeps_ret.
Qed.

Context (Htrace : ignores_trace proj).

Lemma read_IsSolid_keeps loc p : keeps proj (read_IsSolid loc p).
Proof.
  unfold read_IsSolid.
  apply keeps_bind; [apply keeps_deref|intros c].
  apply keeps_bind; [apply keeps_log; exact Htrace|intros _]. apply keeps_ret.
Qed.

Lemma GetCell_IsSolid_keeps depth loc : keeps proj (GetCell_IsSolid W depth loc).
Proof.
  unfold GetCell_IsSolid.
  apply keeps_bind; [apply GetCell_keeps|intros p]. apply read_IsSolid_keeps.
Qed.

Context (HOpen : ignores_OpenList proj).

Lemma OpenListAdd_keeps p : keeps proj (OpenListAdd p).
Proof.
  unfold OpenListAdd.
  apply keeps_bind; [apply keeps_store; exact HMap|intros _].
  apply keeps_bind; [apply keeps_modify; intros; apply HOpen|intros _].
  apply keeps_log; exact Htrace.
Qed.

Lemma OpenListPop_keeps : keeps proj (OpenListPop W).
Proof.
  unfold OpenListPop.
  apply keeps_bind; [apply keeps_get|intros s0].
  destruct (m_OpenList s0); [apply keeps_ret|].
  apply keeps_bind; [apply keeps_modify; intros; apply HOpen|intros _].
  apply keeps_bind; [apply keeps_store; exact HMap|intros _].
  apply keeps_bind; [apply keeps_log; exact Htrace|intros _]. apply keeps_ret.
Qed.

Lemma ProcessCell_keeps cell caller cost : keeps proj (ProcessCell cell caller cost).
Proof.
  unfold ProcessCell.
  repeat first
    [ apply keeps_ret | apply keeps_skip | apply keeps_fail | apply keeps_get
    | apply keeps_int_of | apply keeps_deref | apply OpenListAdd_keeps
    | apply keeps_log; exact Htrace
    | apply keeps_store; exact HMap
    | apply keeps_bind; [|intros ?]
    | match goal with
      | |- keeps _ (if ?b then _ else _) => destruct b
      | |- keeps _ (match ?x with _ => _ end) => destruct x
      end ].
Qed.

Lemma ProcessIfWalkable_keeps depth loc parent cost :
  keeps proj (ProcessIfWalkable W depth loc parent cost).
Proof.
  unfold ProcessIfWalkable.
  repeat first
    [ apply keeps_skip | apply GetCell_keeps | apply read_IsSolid_keeps
    | apply GetCell_IsSolid_keeps | apply ProcessCell_keeps
    | apply keeps_log; exact Htrace
    | apply keeps_bind; [|intros ?]
    | match goal with |- keeps _ (if ?b then _ else _) => destruct b end ].
Qed.

Lemma diagonal_keeps depth cur loc x z :
  keeps proj (diagonal W depth cur loc x z).
Proof.
  unfold diagonal.
  repeat first
    [ apply keeps_skip | apply GetCell_IsSolid_keeps | apply ProcessIfWalkable_keeps
    | apply keeps_bind; [|intros ?]
    | match goal with |- keeps _ (if ?b then _ else _) => destruct b end ].
Qed.

Lemma for_each_keeps {A} (l : list A) body :
  (forall a, keeps proj (body a)) -> keeps proj (for_each l body).
Proof.
  intros Hb. induction l as [|a l IH]; simpl; [apply keeps_skip|].
  apply keeps_bind; [apply Hb|intros _; exact IH].
Qed.

Lemma expand_keeps depth cur : keeps proj (expand W depth cur).
Proof.
  unfold expand, expand_row.
  repeat first
    [ apply keeps_deref | apply ProcessIfWalkable_keeps | apply diagonal_keeps
    | apply for_each_keeps; intros ?
    | apply keeps_bind; [|intros ?] ].
Qed.

End KeepsFunctions.

Section KeepsStep.

Context (W : World) {X : Type} (proj : cPath -> X).
Context (HMap : ignores_Map proj) (Horacle : ignores_oracle proj)
        (Htrace : ignores_trace proj) (HOpen : ignores_OpenList proj).

Lemma FinishCalculation0_keeps : keeps proj FinishCalculation0.
Proof.
  apply keeps_modify. intros s. rewrite HOpen. apply HMap.
Qed.

Lemma collect_path_keeps depth cur :
  ignores_PathPoints proj -> keeps proj (collect_path depth cur).
Proof.
  intros HPath. revert cur. induction depth as [|depth IH]; intros cur; simpl;
    [apply keeps_fail|].
  apply keeps_bind; [apply keeps_deref|intros c].
  apply keeps_bind; [apply keeps_modify; intros; apply HPath|intros _].
  destruct (Cell.m_Parent c); [apply IH|apply keeps_skip].
Qed.

(** The part of [StepOnce] after the pop, when it goes on to expand. *)
Lemma StepOnce_keeps depth :
  ignores_Status proj -> ignores_PathPoints proj -> ignores_steps proj ->
  keeps proj (StepOnce W depth).
Proof.
  intros HStatus HPath Hsteps. unfold StepOnce, FinishCalculation.
  repeat first
    [ apply keeps_ret | apply keeps_get | apply keeps_deref
    | apply FinishCalculation0_keeps | apply collect_path_keeps; assumption
    | apply OpenListPop_keeps; assumption | apply expand_keeps; assumption
    | apply keeps_modify; intros; first [apply HStatus | apply Hsteps]
    | apply keeps_bind; [|intros ?]
    | match goal with
      | |- keeps _ (if ?b then _ else _) => destruct b
      | |- keeps _ (match ?x with _ => _ end) => destruct x
      end ].
Qed.

End KeepsStep.

Section StepFacts.

Context (W : World).

Lemma StepOnce_StepsLeft depth s done s1 :
  StepOnce W depth s = Ok (done, s1) -> m_StepsLeft s1 = m_StepsLeft s.
Proof. apply (StepOnce_keeps W m_StepsLeft); ignores_tac || (intros ? ?; reflexivity). Qed.

Lemma StepOnce_steps depth s done s1 :
  StepOnce W depth s = Ok (done, s1) -> g_steps s1 = S (g_steps s).
Proof.
  unfold StepOnce. intros H. apply bind_Ok in H. destruct H as (? & s0 & H0 & H).
  apply modify_Ok in H0.
  match type of H with ?m s0 = _ => assert (K : keeps g_steps m) end.
  2:{ rewrite (K _ _ _ H). subst s0. reflexivity. }
  unfold FinishCalculation.
  repeat first
    [ apply keeps_ret | apply keeps_get | apply keeps_deref
    | apply FinishCalculation0_keeps; ignores_tac
    | apply collect_path_keeps; intros ? ?; reflexivity
    | apply OpenListPop_keeps; ignores_tac
    | apply expand_keeps; ignores_tac
    | apply keeps_modify; intros; reflexivity
    | apply keeps_bind; [|intros ?]
    | match goal with
      | |- keeps _ (if ?b then _ else _) => destruct b
      | |- keeps _ (match ?x with _ => _ end) => destruct x
      end ].
Qed.

(** When [StepOnce] says that no more calculation is needed, the search has
    been finished: the status is final and the containers are empty. *)
Lemma StepOnce_done depth s s1 :
  StepOnce W depth s = Ok (true, s1) ->
  (m_Status s1 = PATH_FOUND \/
   m_Status s1 = PATH_NOT_FOUND /\ m_PathPoints s1 = m_PathPoints s) /\
  m_Map s1 = ∅ /\ m_OpenList s1 = [].
Proof.
  unfold StepOnce, FinishCalculation, FinishCalculation0. intros H.
  apply bind_Ok in H. destruct H as (? & s0 & H0 & H). apply modify_Ok in H0.
  apply bind_Ok in H. destruct H as (cur & s2 & Hpop & H).
  assert (Hpp : m_PathPoints s2 = m_PathPoints s).
  { rewrite (OpenListPop_keeps W m_PathPoints ltac:(ignores_tac) ltac:(ignores_tac)
               ltac:(ignores_tac) _ _ _ Hpop). subst s0. reflexivity. }
  destruct cur as [cur|].
  - minv; try discriminate. simpl. auto.
  - minv. simpl. auto.
Qed.

(** When [StepOnce] asks for more calculation, it has neither touched the
    status nor the path. *)
Lemma StepOnce_more depth s s1 :
  StepOnce W depth s = Ok (false, s1) ->
  m_Status s1 = m_Status s /\ m_PathPoints s1 = m_PathPoints s.
Proof.
  unfold StepOnce. intros H.
  apply bind_Ok in H. destruct H as (? & s0 & H0 & H). apply modify_Ok in H0.
  apply bind_Ok in H. destruct H as (cur & s2 & Hpop & H).
  assert (Hpp : m_Status s2 = m_Status s /\ m_PathPoints s2 = m_PathPoints s).
  { rewrite (OpenListPop_keeps W m_PathPoints ltac:(ignores_tac) ltac:(ignores_tac)
               ltac:(ignores_tac) _ _ _ Hpop).
    rewrite (OpenListPop_keeps W m_Status ltac:(ignores_tac) ltac:(ignores_tac)
               ltac:(ignores_tac) _ _ _ Hpop). subst s0. auto. }
  destruct cur as [cur|]; [|minv; discriminate].
  apply bind_Ok in H. destruct H as (c & ? & Hd & H).
  apply deref_Ok in Hd. destruct Hd as [Hc ->].
  apply bind_Ok in H. destruct H as (? & ? & Hg & H).
  apply get_Ok in Hg. destruct Hg as [-> ->].
  destruct (at_goal _ _); [minv; discriminate|].
  apply bind_Ok in H. destruct H as (? & s3 & He & H).
  apply ret_Ok in H. destruct H as [_ ->].
  rewrite (expand_keeps W m_PathPoints ltac:(ignores_tac) ltac:(ignores_tac)
             ltac:(ignores_tac) ltac:(ignores_tac) _ _ _ _ _ He).
  rewrite (expand_keeps W m_Status ltac:(ignores_tac) ltac:(ignores_tac)
             ltac:(ignores_tac) ltac:(ignores_tac) _ _ _ _ _ He).
  exact Hpp.
Qed.

End StepFacts.

(** ** The scheduler loop *)

Section Scheduler.

Context (W : World).

Lemma in_int_zero : in_int (CALCULATIONS_PER_STEP * 0) = true.
Proof. reflexivity. Qed.

(** One turn of the loop, with the test of the [for] statement made explicit. *)
Lemma Step_loop_unfold depth fuel Step s :
  Step_loop W depth fuel Step s =
  if in_int (CALCULATIONS_PER_STEP * m_StepsLeft s) then
    if decide (Step = CALCULATIONS_PER_STEP * m_StepsLeft s) then
      (FinishCalculation PATH_NOT_FOUND;; s ← get; mret (m_Status s)) s
    else
      match fuel with
      | O => Err OutOfFuel
      | S fuel' =>
          (done ← StepOnce W depth;
           if done : bool then s ← get; mret (m_Status s)
           else Step' ← int_of (Step + 1); Step_loop W depth fuel' Step') s
      end
  else Err SignedOverflow.
Proof.
  destruct fuel; cbn [Step_loop]; unfold mbind at 1 2, M_bind at 1 2, get at 1, int_of at 1;
    destruct (in_int (CALCULATIONS_PER_STEP * m_StepsLeft s)); try reflexivity;
    unfold mret at 1, M_ret at 1;
    destruct (decide (Step = CALCULATIONS_PER_STEP * m_StepsLeft s)); reflexivity.
Qed.

(** With [m_StepsLeft] zero the bound of the loop is 0 and the counter,
    which starts at 1 and only grows, never meets it. *)
Lemma Step_loop_zero_budget depth fuel : forall Step s,
  m_StepsLeft s = 0 -> 1 <= Step ->
  (forall r, Step_loop W depth fuel Step s = Ok r -> run_to_end W depth fuel s = Ok r) /\
  (Step + Z.of_nat fuel <= INT_MAX ->
   Step_loop W depth fuel Step s = run_to_end W depth fuel s).
Proof.
  induction fuel as [|fuel IH]; intros Step s H0 HStep;
    rewrite Step_loop_unfold, H0, in_int_zero;
    (destruct (decide (Step = CALCULATIONS_PER_STEP * 0)); [lia|]).
  - split; [discriminate|reflexivity].
  - cbn [run_to_end]. unfold mbind, M_bind.
    destruct (StepOnce W depth s) as [[done s1]|e] eqn:E; [|split; [discriminate|reflexivity]].
    destruct done; [split; [auto|reflexivity]|].
    assert (H1 : m_StepsLeft s1 = 0).
    { rewrite (StepOnce_StepsLeft _ _ _ _ _ E). exact H0. }
    unfold int_of. destruct (in_int (Step + 1)) eqn:Hin.
    + unfold mret, M_ret.
      assert (HStep' : 1 <= Step + 1) by lia.
      destruct (IH (Step + 1) s1 H1 HStep') as [IH1 IH2].
      split; [exact IH1|]. intros Hle. apply IH2. lia.
    + split; [discriminate|]. intros Hle. exfalso.
      unfold in_int, INT_MIN, INT_MAX in *. lia.
Qed.

(** For a positive budget: the number of calls of [StepOnce] during the
    loop, and the state it leaves. *)
Lemma Step_loop_cap depth fuel : forall Step s st s1,
  1 <= Step <= CALCULATIONS_PER_STEP * m_StepsLeft s ->
  Step_loop W depth fuel Step s = Ok (st, s1) ->
  Z.of_nat (g_steps s1) <= Z.of_nat (g_steps s) + (CALCULATIONS_PER_STEP * m_StepsLeft s - Step) /\
  st = m_Status s1 /\ (st = PATH_FOUND \/ st = PATH_NOT_FOUND) /\
  m_Map s1 = ∅ /\ m_OpenList s1 = [] /\
  (st = PATH_NOT_FOUND -> m_PathPoints s1 = m_PathPoints s).
Proof.
  induction fuel as [|fuel IH]; intros Step s st s1 HStep H; cbn [Step_loop] in H;
    apply bind_Ok in H; destruct H as (? & ? & Hg & H);
    apply get_Ok in Hg; destruct Hg as [-> ->];
    apply bind_Ok in H; destruct H as (bound & ? & Hb & H);
    apply int_of_Ok in Hb; destruct Hb as (-> & -> & Hin);
    destruct (decide (Step = CALCULATIONS_PER_STEP * m_StepsLeft s)) as [Heq|Hne].
  1,3: unfold FinishCalculation, FinishCalculation0 in H; minv; simpl;
       repeat split; auto; lia.
  - destruct (fail_Ok _ _ _ H).
  - apply bind_Ok in H. destruct H as (done & s2 & Hstep & H).
    assert (Hsteps := StepOnce_steps _ _ _ _ _ Hstep).
    assert (Hleft := StepOnce_StepsLeft _ _ _ _ _ Hstep).
    destruct done.
    + destruct (StepOnce_done _ _ _ _ Hstep) as (Hst & Hmap & Hopen).
      minv. rewrite Hsteps. split; [lia|]. split; [reflexivity|].
      split; [tauto|]. split; [assumption|]. split; [assumption|].
      intros Hnf. destruct Hst as [Hst|[_ Hst]]; congruence.
    + apply bind_Ok in H. destruct H as (Step' & ? & Hi & H).
      apply int_of_Ok in Hi. destruct Hi as (-> & -> & _).
      assert (HStep' : 1 <= Step + 1 <= CALCULATIONS_PER_STEP * m_StepsLeft s2)
        by (rewrite Hleft; lia).
      destruct (IH _ _ _ _ HStep' H) as (Hn & Hs & Hf & Hm & Ho & Hp).
      rewrite Hleft, Hsteps in Hn. split; [lia|]. repeat (split; [assumption|]).
      intros Hnf. rewrite (Hp Hnf).
      apply (StepOnce_more _ _ _ _ Hstep).
Qed.

End Scheduler.

(** ** Runs on sample worlds *)

(** ** Claims about the scheduler *)

(** C1 (the code departs from the claim).  On the flat floor, from (0,0,0) to
    (5,0,0) with [a_MaxSteps = 0], the cap [CALCULATIONS_PER_STEP * a_MaxSteps]
    is 0 steps, yet one call of [Step] calls [StepOnce] five times and ends
    with [PATH_FOUND] and five way points, instead of being finished as
    [PATH_NOT_FOUND] without a step. *)
Theorem C1_zero_budget_exceeds_cap :
  report (search flat_floor 5 5 (Vector3 0 0 0) (Vector3 5 0 0) 0) =
    Some (PATH_FOUND,
          [Vector3 4 0 0; Vector3 3 0 0; Vector3 2 0 0; Vector3 1 0 0; Vector3 0 0 0],
          5%nat) /\
  (Z.of_nat 5 > CALCULATIONS_PER_STEP * 0).
Proof. split; [vm_compute; reflexivity|reflexivity]. Qed.

(** For a budget of at least 1 the claim of C1 holds: a call of [Step] that
    returns has called [StepOnce] at most
    [CALCULATIONS_PER_STEP * m_StepsLeft - 1] times, the status it returns is
    final, the cache and the open list are empty, and when the status is
    [PATH_NOT_FOUND] (the cap was reached, or the open list ran empty) no way
    point was added. *)
Lemma Step_positive_budget_cap W depth fuel s st s1 :
  1 <= m_StepsLeft s ->
  Step W depth fuel s = Ok (st, s1) ->
  Z.of_nat (g_steps s1) - Z.of_nat (g_steps s) <= CALCULATIONS_PER_STEP * m_StepsLeft s - 1 /\
  st = m_Status s1 /\ (st = PATH_FOUND \/ st = PATH_NOT_FOUND) /\
  m_Map s1 = ∅ /\ m_OpenList s1 = [] /\
  (st = PATH_NOT_FOUND -> m_PathPoints s1 = m_PathPoints s).
Proof.
  intros Hn H. unfold Step in H.
  assert (HStep : 1 <= 1 <= CALCULATIONS_PER_STEP * m_StepsLeft s)
    by (unfold CALCULATIONS_PER_STEP; lia).
  destruct (Step_loop_cap W depth fuel 1 s st s1 HStep H) as (H1 & H2).
  split; [lia|exact H2].
Qed.

(** The scenario of the specification: a budget of 1 on the flat floor, where
    the way to (5,0,0) needs five steps: four steps are made and the search
    is finished as [PATH_NOT_FOUND] without way points. *)
Example budget_one_not_found :
  report (search flat_floor 1 4 (Vector3 0 0 0) (Vector3 5 0 0) 1) =
    Some (PATH_NOT_FOUND, [], 4%nat).
Proof. vm_compute. reflexivity. Qed.

(** C9.  With [m_StepsLeft = 0] the loop of [Step] has no cap: every result
    of [Step] is the result of calling [StepOnce] until it says that no more
    calculation is needed, at least one call of [StepOnce] is made, and as
    long as the [int] counter cannot overflow [Step] is that unbounded loop. *)
Theorem C9_zero_budget_never_capped W depth fuel s :
  m_StepsLeft s = 0 ->
  (forall st s1, Step W depth fuel s = Ok (st, s1) ->
     run_to_end W depth fuel s = Ok (st, s1) /\ (g_steps s < g_steps s1)%nat) /\
  (Z.of_nat fuel < INT_MAX -> Step W depth fuel s = run_to_end W depth fuel s).
Proof.
  intros H0. unfold Step.
  destruct (Step_loop_zero_budget W depth fuel 1 s H0 ltac:(lia)) as [H1 H2].
  split; [|intros Hf; apply H2; lia].
  intros st s1 H. split; [apply H1; exact H|].
  apply H1 in H. destruct fuel as [|fuel]; [discriminate|].
  cbn [run_to_end] in H. apply bind_Ok in H. destruct H as (done & s2 & Hs & H).
  assert (Hn := StepOnce_steps _ _ _ _ _ Hs).
  assert (Hmono : forall n s3 r, run_to_end W depth n s3 = Ok r ->
            (g_steps s3 <= g_steps r.2)%nat).
  { clear. induction n as [|n IH]; intros s3 [st3 s4] H; [discriminate|].
    cbn [run_to_end] in H. apply bind_Ok in H. destruct H as (done & s2 & Hs & H).
    assert (Hn := StepOnce_steps _ _ _ _ _ Hs). destruct done.
    - minv. simpl. lia.
    - apply IH in H. lia. }
  destruct done.
  - minv. lia.
  - apply Hmono in H. simpl in H. lia.
Qed.

Lemma C9_zero_budget_never_capped_witness :
  exists s,
    cPath_new flat_floor 5 (Vector3 0 0 0) (Vector3 5 0 0) 0 = Ok (true, s) /\
    m_StepsLeft s = 0 /\
    Step flat_floor 5 5 s = run_to_end flat_floor 5 5 s /\
    report (Step flat_floor 5 5 s) =
      Some (PATH_FOUND,
            [Vector3 4 0 0; Vector3 3 0 0; Vector3 2 0 0; Vector3 1 0 0; Vector3 0 0 0],
            5%nat).
Proof.
  eexists. split; [vm_compute; reflexivity|]. split; [reflexivity|].
  split; [|vm_compute; reflexivity].
  apply C9_zero_budget_never_capped; [reflexivity|vm_compute; reflexivity].
Defined.

(** ** Claims about relaxation and the oracle, on sample worlds *)

(** C5 (the code departs from the claim).  Flat floor with stone at (3,0,0)
    and (2,0,1), from (0,0,0) to (4,0,1).  After three calls of [StepOnce]
    the cell (2,1,1) is open with [g = 30], [h = 22], [f = 52] and parent
    (2,0,0).  The fourth call expands (1,0,1), whose [g] is 14, and relaxes
    (2,1,1) at cost 10: [g] becomes 24 and the parent (1,0,1), but [f] stays
    52 (the new [g + h] is 46) and [h] is overwritten with [f + g = 76]. *)
Theorem C5_relaxation_keeps_stale_f :
  cell_after two_blocks 3 3 (Vector3 0 0 0) (Vector3 4 0 1) 100 (Vector3 2 1 1) =
    Some (Cell.mk (Vector3 2 1 1) 52 30 22 OPENLIST (Some (Vector3 2 0 0)) false) /\
  cell_after two_blocks 3 4 (Vector3 0 0 0) (Vector3 4 0 1) 100 (Vector3 2 1 1) =
    Some (Cell.mk (Vector3 2 1 1) 52 24 76 OPENLIST (Some (Vector3 1 0 1)) false) /\
  52 <> 24 + 22.
Proof. split; [|split]; [vm_compute; reflexivity ..|lia]. Qed.

(** C6 (the code departs from the claim).  Stationary water at (0,1,0) on top
    of a fence at (0,0,0).  When the water cell is resolved first, the fence
    is resolved inside that call (the oracle log holds both locations) and
    forces the water cell solid, and then the outer [GetCell] overwrites the
    flag with the solidity of water: the cell above the resolved fence is
    cached as not solid.  When the fence is resolved first, the same cell is
    cached as solid.  A search that starts in the water cell therefore reads
    its start as not solid and is entered in [CALCULATING]. *)
Theorem C6_fence_override_lost :
  solid_after water_on_fence [Vector3 0 1 0] (Vector3 0 1 0) =
    Some (false, [Vector3 0 0 0; Vector3 0 1 0]) /\
  solid_after water_on_fence [Vector3 0 0 0; Vector3 0 1 0] (Vector3 0 1 0) =
    Some (true, [Vector3 0 1 0; Vector3 0 0 0]) /\
  (exists s, cPath_new water_on_fence 5 (Vector3 0 1 0) (Vector3 3 0 0) 10 = Ok (true, s) /\
             m_Status s = CALCULATING /\ m_OpenList s = [Vector3 0 1 0]).
Proof.
  split; [vm_compute; reflexivity|]. split; [vm_compute; reflexivity|].
  eexists. split; [vm_compute; reflexivity|]. split; reflexivity.
Qed.

(** ** The flat floor scenario *)

(** C8 as stated fails: on the flat floor, from (0,0,0) to (5,0,0), the
    search ends with [PATH_FOUND] and its path has five way points, not six. *)
Lemma C8_flat_floor_not_six_waypoints :
  exists st pts n,
    report (search flat_floor 5 5 (Vector3 0 0 0) (Vector3 5 0 0) 2) = Some (st, pts, n) /\
    st = PATH_FOUND /\ length pts <> 6%nat.
Proof.
  eexists _, _, _. split; [vm_compute; reflexivity|]. split; [reflexivity|].
  simpl. lia.
Qed.

(** A run of [StepOnce] that comes to its end before the counter of the
    loop meets the bound is a run of [Step]. *)
Lemma Step_loop_of_times W depth : forall n fuel Step s s1,
  StepOnce_times W depth n s = Ok (true, s1) -> (n <= fuel)%nat ->
  in_int (CALCULATIONS_PER_STEP * m_StepsLeft s) = true ->
  1 <= Step -> Step + Z.of_nat n <= INT_MAX ->
  (m_StepsLeft s <= 0 \/ Step + Z.of_nat n <= CALCULATIONS_PER_STEP * m_StepsLeft s) ->
  Step_loop W depth fuel Step s = Ok (m_Status s1, s1).
Proof.
  induction n as [|n IH]; intros fuel Step s s1 H Hfuel Hint HStep Hmax Hb;
    [discriminate|].
  destruct fuel as [|fuel]; [lia|].
  rewrite Step_loop_unfold, Hint.
  destruct (decide (Step = CALCULATIONS_PER_STEP * m_StepsLeft s)) as [E|_].
  { exfalso. unfold CALCULATIONS_PER_STEP in *. lia. }
  cbn [StepOnce_times] in H. unfold mbind, M_bind in *.
  destruct (StepOnce W depth s) as [[done s2]|e] eqn:E; [|discriminate].
  destruct done.
  - injection H as <-. reflexivity.
  - assert (Hleft := StepOnce_StepsLeft W _ _ _ _ E).
    unfold int_of.
    assert (Hin : in_int (Step + 1) = true).
    { unfold in_int, INT_MIN, INT_MAX in *. apply andb_true_iff.
      split; apply Z.leb_le; lia. }
    rewrite Hin. unfold mret, M_ret.
    apply IH; [exact H|lia|rewrite Hleft; exact Hint|lia|lia|rewrite Hleft; lia].
Qed.

(** C8, amended.  On the flat floor, from (0,0,0) to (5,0,0), whatever the
    heap does with entries of equal [m_F], with a budget that leaves room
    for five calls of [StepOnce] (a budget of at least 2, or one that is not
    positive and so caps nothing; the bound of the loop fits an [int]), with
    [depth] and [fuel] of at least 5: the search ends after five calls of
    [StepOnce] with [PATH_FOUND]; the path has the five way points (4,0,0),
    (3,0,0), (2,0,0), (1,0,0), (0,0,0), stored from the goal end to the
    start, so [x] grows by one at each move from the start; it stops at the
    cell next to the goal, which was reached with [g = 40] (four moves of
    cost 10) and [f = 50]. *)
Theorem C8_flat_floor_path (tie : cPath -> nat) (d f : nat) (budget : Z) :
  2 <= budget \/ budget <= 0 ->
  in_int (CALCULATIONS_PER_STEP * budget) = true ->
  report (search (with_tie tie flat_floor) (5 + d) (5 + f)
            (Vector3 0 0 0) (Vector3 5 0 0) budget) =
    Some (PATH_FOUND,
          [Vector3 4 0 0; Vector3 3 0 0; Vector3 2 0 0; Vector3 1 0 0; Vector3 0 0 0],
          5%nat) /\
  cell_after (with_tie tie flat_floor) (5 + d) 4
      (Vector3 0 0 0) (Vector3 5 0 0) budget (Vector3 4 0 0) =
    Some (Cell.mk (Vector3 4 0 0) 50 40 10 OPENLIST (Some (Vector3 3 0 0)) false).
Proof.
  intros Hb Hint. split; [|vm_compute; reflexivity].
  assert (E : exists s0 s1,
            cPath_new (with_tie tie flat_floor) (5 + d)
              (Vector3 0 0 0) (Vector3 5 0 0) budget = Ok (true, s0) /\
            m_StepsLeft s0 = budget /\
            StepOnce_times (with_tie tie flat_floor) (5 + d) 5 s0 = Ok (true, s1) /\
            (m_Status s1, m_PathPoints s1, g_steps s1) =
              (PATH_FOUND,
               [Vector3 4 0 0; Vector3 3 0 0; Vector3 2 0 0; Vector3 1 0 0;
                Vector3 0 0 0], 5%nat)).
  { eexists _, _. split; [vm_compute; reflexivity|]. split; [reflexivity|].
    split; [vm_compute; reflexivity|reflexivity]. }
  destruct E as (s0 & s1 & E0 & Hleft & E1 & Hres).
  unfold search. rewrite E0. unfold Step.
  rewrite (Step_loop_of_times _ _ 5 (5 + f) 1 s0 s1 E1); simpl report.
  - injection Hres as -> -> ->. reflexivity.
  - lia.
  - rewrite Hleft. exact Hint.
  - lia.
  - unfold INT_MAX. lia.
  - rewrite Hleft. unfold CALCULATIONS_PER_STEP. lia.
Qed.

Lemma C8_flat_floor_path_witness :
  report (search (with_tie (fun _ => 0%nat) flat_floor) 5 5
            (Vector3 0 0 0) (Vector3 5 0 0) 2) =
    Some (PATH_FOUND,
          [Vector3 4 0 0; Vector3 3 0 0; Vector3 2 0 0; Vector3 1 0 0; Vector3 0 0 0],
          5%nat).
Proof.
  apply (proj1 (C8_flat_floor_path (fun _ => 0%nat) 0 0 2 ltac:(left; lia) eq_refl)).
Defined.

(** The choice of the heap among entries of equal [m_F] shows in the
    result: on the flat floor, from (0,0,0) to (2,0,2), a heap that has the
    first such entry on top and one that has the second on top report
    different paths. *)
Example tie_order_shows :
  report (search (with_tie (fun _ => 0%nat) flat_floor) 9 40
            (Vector3 0 0 0) (Vector3 2 0 2) 10) =
    Some (PATH_FOUND, [Vector3 2 0 1; Vector3 1 0 1; Vector3 0 0 0], 6%nat) /\
  report (search (with_tie (fun _ => 1%nat) flat_floor) 9 40
            (Vector3 0 0 0) (Vector3 2 0 2) 10) =
    Some (PATH_FOUND, [Vector3 1 0 2; Vector3 1 0 1; Vector3 0 0 0], 6%nat).
Proof. split; vm_compute; reflexivity. Qed.

(** ** What [GetCell] does to the cells *)

Lemma cell_upd_trans c c1 c2 : cell_upd c c1 -> cell_upd c1 c2 -> cell_upd c c2.
Proof. unfold cell_upd. intros [->| ->] [->| ->]; auto. Qed.

Lemma map_grows_refl m : map_grows m m.
Proof.
  split.
  - intros k c H. exists c. split; [exact H|left; reflexivity].
  - intros k c H1 H2. congruence.
Qed.

Lemma map_grows_trans m m1 m2 :
  map_grows m m1 -> map_grows m1 m2 -> map_grows m m2.
Proof.
  intros [Ho1 Hn1] [Ho2 Hn2]. split.
  - intros k c H. destruct (Ho1 _ _ H) as (c1 & H1 & U1).
    destruct (Ho2 _ _ H1) as (c2 & H2 & U2). exists c2. split; [exact H2|].
    eapply cell_upd_trans; eauto.
  - intros k c2 H2 H. destruct (m1 !! k) as [c1|] eqn:E.
    + destruct (Hn1 _ _ E H) as (b & ->).
      destruct (Ho2 _ _ E) as (c2' & H2' & [->| ->]); rewrite H2 in H2';
        injection H2' as ->; eexists; reflexivity.
    + eapply Hn2; eauto.
Qed.

Lemma map_grows_force m p c :
  m !! p = Some c -> map_grows m (<[p := Cell.set_IsSolid true c]> m).
Proof.
  intros Hp. split.
  - intros k c0 H. rewrite lookup_insert. case_decide as Hk.
    + subst k. rewrite Hp in H. injection H as ->. eexists. split; [reflexivity|].
      right. reflexivity.
    + exists c0. split; [exact H|left; reflexivity].
  - intros k c1. rewrite lookup_insert. case_decide as Hk; [|congruence].
    subst k. congruence.
Qed.

Section Grows.

Context (W : World).

Lemma IsSolid_with_grows g :
  GetCell_grows_post g ->
  forall loc s b s1, IsSolid_with W g loc s = Ok (b, s1) ->
    map_grows (m_Map s) (m_Map s1) /\ b = world_solid W loc.
Proof.
  intros Hg loc s b s1 H. unfold IsSolid_with in H. unfold world_solid.
  apply bind_Ok in H. destruct H as (? & s0 & H0 & H). apply modify_Ok in H0.
  assert (E0 : m_Map s0 = m_Map s) by (subst s0; reflexivity). rewrite <- E0. clear E0 H0.
  destruct (GetBlock W loc) as [bt|].
  2:{ apply ret_Ok in H. destruct H as [-> ->]. split; [apply map_grows_refl|reflexivity]. }
  apply bind_Ok in H. destruct H as (? & sb & Hfence & H).
  apply bind_Ok in H. destruct H as (? & sc & Hwater & H).
  apply ret_Ok in H. destruct H as [-> ->].
  assert (Hside : forall (P : Prop) (cond : Decision P) off s2 s3 u,
             (if cond then p ← g (loc +v off); store p (Cell.set_IsSolid true)
              else skip) s2 = Ok (u, s3) ->
             map_grows (m_Map s2) (m_Map s3)).
  { intros P cond off s2 s3 u Hc. destruct cond.
    - apply bind_Ok in Hc. destruct Hc as (q & s4 & Hget & Hst).
      destruct (Hg _ _ _ _ Hget) as (-> & G4 & _).
      apply store_Ok in Hst. destruct Hst as (c & Hc & ->). simpl.
      eapply map_grows_trans; [exact G4|]. apply map_grows_force. exact Hc.
    - apply skip_Ok in Hc. subst. apply map_grows_refl. }
  split; [|reflexivity].
  eapply map_grows_trans; [eapply Hside; exact Hfence|eapply Hside; exact Hwater].
Qed.

Lemma GetCell_grows depth : GetCell_grows_post (GetCell W depth).
Proof.
  induction depth as [|depth IH]; intros loc s p s1 H; simpl in H;
    apply bind_Ok in H; destruct H as (? & ? & Hg & H);
    apply get_Ok in Hg; destruct Hg as [-> ->];
    destruct (m_Map s !! loc) as [c|] eqn:E.
  1,3: apply ret_Ok in H; destruct H as [-> ->];
       split; [reflexivity|]; split; [apply map_grows_refl|rewrite E; eauto].
  - destruct (fail_Ok _ _ _ H).
  - apply bind_Ok in H. destruct H as (? & s2 & Hins & H). apply modify_Ok in Hins.
    apply bind_Ok in H. destruct H as (solid & s3 & Hsol & H).
    apply bind_Ok in H. destruct H as (? & s4 & Hst1 & H).
    apply bind_Ok in H. destruct H as (? & s5 & Hst2 & H).
    apply ret_Ok in H. destruct H as [-> ->].
    destruct (IsSolid_with_grows _ IH _ _ _ _ Hsol) as [[Ho Hn] _].
    subst s2. simpl in Ho, Hn.
    apply store_Ok in Hst1. destruct Hst1 as (c4 & Hc4 & ->).
    apply store_Ok in Hst2. destruct Hst2 as (c5 & Hc5 & ->).
    simpl in Hc5. rewrite lookup_insert_eq in Hc5. injection Hc5 as <-.
    destruct (Ho loc _ (lookup_insert_eq _ _ _)) as (c4' & Hc4' & U).
    assert (c4' = c4) by congruence. subst c4'.
    split; [reflexivity|]. simpl. split; [|rewrite lookup_insert_eq; eauto].
    split.
    + intros k c Hk. assert (Hne : loc <> k) by congruence.
      rewrite !lookup_insert_ne by exact Hne. apply Ho.
      rewrite lookup_insert_ne by exact Hne. exact Hk.
    + intros k c1 Hk Hnone. rewrite lookup_insert in Hk. case_decide as Hd.
      * subst k. injection Hk as <-. exists solid.
        destruct U as [->| ->]; reflexivity.
      * rewrite lookup_insert_ne in Hk by exact Hd. apply (Hn _ _ Hk).
        rewrite lookup_insert_ne by exact Hd. exact Hnone.
Qed.

(** A cell that [GetCell] has just created holds what [IsSolid] returned
    for its location. *)
Lemma GetCell_created depth loc s p s1 :
  m_Map s !! loc = None ->
  GetCell W depth loc s = Ok (p, s1) ->
  m_Map s1 !! loc = Some (new_cell loc (world_solid W loc)).
Proof.
  intros E H. destruct depth as [|depth]; simpl in H;
    apply bind_Ok in H; destruct H as (? & ? & Hg & H);
    apply get_Ok in Hg; destruct Hg as [-> ->]; rewrite E in H;
    [destruct (fail_Ok _ _ _ H)|].
  apply bind_Ok in H. destruct H as (? & s2 & Hins & H). apply modify_Ok in Hins.
  apply bind_Ok in H. destruct H as (solid & s3 & Hsol & H).
  apply bind_Ok in H. destruct H as (? & s4 & Hst1 & H).
  apply bind_Ok in H. destruct H as (? & s5 & Hst2 & H).
  apply ret_Ok in H. destruct H as [-> ->].
  destruct (IsSolid_with_grows _ (GetCell_grows depth) _ _ _ _ Hsol) as [[Ho Hn] ->].
  subst s2. simpl in Ho.
  destruct (Ho loc _ (lookup_insert_eq _ _ _)) as (c4' & Hc4' & U).
  apply store_Ok in Hst1. destruct Hst1 as (c4 & Hc4 & ->).
  apply store_Ok in Hst2. destruct Hst2 as (c5 & Hc5 & ->).
  simpl in Hc5. rewrite lookup_insert_eq in Hc5. injection Hc5 as <-.
  assert (c4' = c4) by congruence. subst c4'.
  simpl. rewrite lookup_insert_eq. destruct U as [->| ->]; reflexivity.
Qed.

Lemma GetCell_present loc c depth s :
  m_Map s !! loc = Some c -> GetCell W depth loc s = Ok (loc, s).
Proof.
  intros E. destruct depth; simpl; unfold mbind, M_bind, get; rewrite E; reflexivity.
Qed.

End Grows.

(** ** Pre- and postconditions *)

Lemma hoare_bind {A B} P (m : M A) Q (f : A -> M B) R :
  hoare P m Q -> (forall a, hoare (Q a) (f a) R) -> hoare P (m ≫= f) R.
Proof.
  intros Hm Hf s b s2 HP H. apply bind_Ok in H. destruct H as (a & s1 & H1 & H2).
  eapply Hf; [|exact H2]. eapply Hm; eauto.
Qed.

Lemma hoare_conseq {A} (P P1 : cPath -> Prop) (m : M A) (Q Q1 : A -> cPath -> Prop) :
  hoare P1 m Q1 -> (forall s, P s -> P1 s) -> (forall a s, Q1 a s -> Q a s) ->
  hoare P m Q.
Proof. intros H HP HQ s a s1 Hs Hm. apply HQ. eapply H; eauto. Qed.

Lemma hoare_ret {A} (P : cPath -> Prop) (a : A) (Q : A -> cPath -> Prop) :
  (forall s, P s -> Q a s) -> hoare P (mret a : M A) Q.
Proof. intros H s b s1 HP Hr. apply ret_Ok in Hr. destruct Hr as [-> ->]. auto. Qed.

Lemma hoare_skip (P : cPath -> Prop) (Q : unit -> cPath -> Prop) :
  (forall s, P s -> Q tt s) -> hoare P skip Q.
Proof. apply hoare_ret. Qed.

Lemma hoare_fail {A} P e (Q : A -> cPath -> Prop) : hoare P (fail e) Q.
Proof. intros s b s1 _ H. destruct (fail_Ok _ _ _ H). Qed.

Lemma hoare_get P : hoare P get (fun a s => a = s /\ P s).
Proof. intros s b s1 HP H. apply get_Ok in H. destruct H as [-> ->]. auto. Qed.

Lemma hoare_deref P p :
  hoare P (deref p) (fun c s => m_Map s !! p = Some c /\ P s).
Proof. intros s b s1 HP H. apply deref_Ok in H. destruct H as [? ->]. auto. Qed.

Lemma hoare_int_of P z : hoare P (int_of z) (fun a s => a = z /\ P s).
Proof. intros s b s1 HP H. apply int_of_Ok in H. destruct H as (-> & -> & _). auto. Qed.

Lemma hoare_modify (P : cPath -> Prop) f (Q : unit -> cPath -> Prop) :
  (forall s, P s -> Q tt (f s)) -> hoare P (modify f) Q.
Proof. intros Hf s [] s1 HP H. apply modify_Ok in H. subst. auto. Qed.

Lemma hoare_store (P : cPath -> Prop) p f (Q : unit -> cPath -> Prop) :
  (forall s c, P s -> m_Map s !! p = Some c ->
     Q tt (set_Map (<[p := f c]> (m_Map s)) s)) ->
  hoare P (store p f) Q.
Proof.
  intros Hf s [] s1 HP H. apply store_Ok in H. destruct H as (c & Hc & ->). auto.
Qed.

Lemma preserves_bind {A B} I (m : M A) (f : A -> M B) :
  preserves I m -> (forall a, preserves I (f a)) -> preserves I (m ≫= f).
Proof. intros Hm Hf. eapply hoare_bind; [exact Hm|exact Hf]. Qed.

Lemma preserves_for_each {A} I (l : list A) body :
  (forall a, preserves I (body a)) -> preserves I (for_each l body).
Proof.
  intros Hb. induction l as [|a l IH]; simpl; [apply hoare_skip; auto|].
  apply preserves_bind; [apply Hb|intros _; exact IH].
Qed.

(** ** Invariants that every member function keeps

    [I] looks at the map, at the oracle log and at the trace only, survives
    the logging of an event that is not a read, survives a write to a cell
    that leaves [m_Location] and [m_IsSolid] alone, and is kept by [GetCell]
    and by a read of [m_IsSolid].  [I'] is what is left of [I] once the
    search is finished and the cache is freed. *)
Section Preserved.

Context (W : World) (I I' : cPath -> Prop).
Context (I_ext : forall s s1,
           m_Map s1 = m_Map s -> g_oracle s1 = g_oracle s ->
           g_trace s1 = g_trace s -> I s -> I s1).
Context (I_log : forall s e,
           (forall loc b, e <> EvRead loc b) ->
           I s -> I (set_trace (g_trace s ++ [e]) s)).
Context (I_store : forall s p c f,
           (forall c, Cell.m_Location (f c) = Cell.m_Location c) ->
           (forall c, Cell.m_IsSolid (f c) = Cell.m_IsSolid c) ->
           m_Map s !! p = Some c -> I s -> I (set_Map (<[p := f c]> (m_Map s)) s)).
Context (I_GetCell : forall depth loc, preserves I (GetCell W depth loc)).
Context (I_read : forall depth loc, preserves I (GetCell_IsSolid W depth loc)).
Context (I_weaken : forall s, I s -> I' s).
Context (I_finish : forall s st,
           I s -> I' (set_OpenList [] (set_Map ∅ (set_Status st s)))).

Lemma log_preserves e :
  (forall loc b, e <> EvRead loc b) -> preserves I (log e).
Proof. intros He. apply hoare_modify. intros s Hs. apply I_log; assumption. Qed.

(** [cell = GetCell(loc)] followed by a read of [cell->m_IsSolid]. *)
Lemma GetCell_then_read depth loc {A} (k : Vector3i -> bool -> M A) Q :
  (forall b, hoare I (k loc b) Q) ->
  hoare I (cell ← GetCell W depth loc;
           solid ← read_IsSolid loc cell; k cell solid) Q.
Proof.
  intros Hk s a s1 Hs H.
  apply bind_Ok in H. destruct H as (cell & s2 & Hget & H).
  apply bind_Ok in H. destruct H as (solid & s3 & Hread & H).
  assert (cell = loc) by (apply (GetCell_grows W depth _ _ _ _ Hget)). subst cell.
  eapply Hk; [|exact H]. eapply (I_read depth loc); [exact Hs|].
  unfold GetCell_IsSolid, mbind, M_bind. rewrite Hget. exact Hread.
Qed.

(** Follow the binds and branches; [calls] closes the calls of functions
    that have their own lemma. *)
Ltac pres_with calls :=
  repeat first
    [ calls
    | apply hoare_ret; intros; assumption
    | apply hoare_skip; intros; assumption
    | apply hoare_fail
    | apply I_GetCell
    | apply I_read
    | apply log_preserves; intros; discriminate
    | eapply hoare_conseq;
        [apply hoare_get|intros ? HI0; exact HI0|cbv beta; intros ? ? [_ ?]; assumption]
    | eapply hoare_conseq;
        [apply hoare_deref|intros ? HI0; exact HI0|cbv beta; intros ? ? [_ ?]; assumption]
    | eapply hoare_conseq;
        [apply hoare_int_of|intros ? HI0; exact HI0|cbv beta; intros ? ? [_ ?]; assumption]
    | apply hoare_modify; intros s0 Hs0; apply (I_ext s0);
        [reflexivity|reflexivity|reflexivity|exact Hs0]
    | apply hoare_store; intros s0 c0 Hs0 Hc0; apply I_store;
        [intros; reflexivity|intros; reflexivity|exact Hc0|exact Hs0]
    | apply preserves_bind; [|intros ?]
    | apply preserves_for_each; intros ?
    | match goal with
      | |- preserves _ (if ?b then _ else _) => destruct b
      | |- preserves _ (match ?x with _ => _ end) => destruct x
      | |- hoare _ (if ?b then _ else _) _ => destruct b
      | |- hoare _ (match ?x with _ => _ end) _ => destruct x
      end ].

Ltac pres_tac := pres_with fail.

Lemma OpenListAdd_preserves p : preserves I (OpenListAdd p).
Proof. unfold OpenListAdd. pres_tac. Qed.

Lemma OpenListPop_preserves : preserves I (OpenListPop W).
Proof. unfold OpenListPop. pres_tac. Qed.

Lemma ProcessCell_preserves cell caller cost : preserves I (ProcessCell cell caller cost).
Proof.
  unfold ProcessCell. pres_with ltac:(apply OpenListAdd_preserves).
Qed.

Lemma ProcessIfWalkable_preserves depth loc parent cost :
  preserves I (ProcessIfWalkable W depth loc parent cost).
Proof.
  unfold ProcessIfWalkable.
  apply preserves_bind; [apply log_preserves; intros; discriminate|intros _].
  apply (GetCell_then_read depth loc
           (fun cell solid =>
              if solid : bool then skip else
              below ← GetCell_IsSolid W depth (loc +v Vector3 0 (-1) 0);
              if negb below then skip else
              above ← GetCell_IsSolid W depth (loc +v Vector3 0 1 0);
              if above : bool then skip else ProcessCell cell (Some parent) cost)).
  intros b. pres_with ltac:(apply ProcessCell_preserves).
Qed.

Lemma diagonal_preserves depth cur loc x z :
  preserves I (diagonal W depth cur loc x z).
Proof.
  unfold diagonal. pres_with ltac:(apply ProcessIfWalkable_preserves).
Qed.

Lemma expand_preserves depth cur : preserves I (expand W depth cur).
Proof.
  unfold expand, expand_row.
  pres_with ltac:(first [apply ProcessIfWalkable_preserves | apply diagonal_preserves]).
Qed.

Lemma collect_path_preserves depth cur : preserves I (collect_path depth cur).
Proof.
  revert cur. induction depth as [|depth IH]; intros cur; simpl; [apply hoare_fail|].
  pres_with ltac:(apply IH).
Qed.

Lemma FinishCalculation_final st :
  hoare I (FinishCalculation st) (fun _ => I').
Proof.
  unfold FinishCalculation, FinishCalculation0. intros s u s1 Hs H. minv.
  apply I_finish. exact Hs.
Qed.

(** [StepOnce] keeps [I] unless it finishes the search. *)
Lemma StepOnce_preserves depth :
  hoare I (StepOnce W depth) (fun done s => if done : bool then I' s else I s).
Proof.
  unfold StepOnce.
  apply (hoare_bind _ _ (fun _ => I)).
  { apply hoare_modify; intros s0 Hs0; apply (I_ext s0);
      [reflexivity|reflexivity|reflexivity|exact Hs0]. }
  intros _.
  eapply hoare_bind; [apply OpenListPop_preserves|intros [cur|]].
  - eapply hoare_bind; [apply hoare_deref|intros c]. cbv beta.
    eapply hoare_bind; [apply hoare_get|intros s0]. cbv beta.
    destruct (at_goal _ _).
    + apply (hoare_bind _ _ (fun _ => I)).
      { eapply hoare_conseq; [apply (collect_path_preserves depth cur)| |].
        - intros s1 Hs1. apply Hs1.
        - intros a s1 Hs1. exact Hs1. }
      intros ?. eapply hoare_bind; [apply FinishCalculation_final|intros ?].
      apply hoare_ret. auto.
    + apply (hoare_bind _ _ (fun _ => I)).
      { eapply hoare_conseq; [apply (expand_preserves depth cur)| |].
        - intros s1 Hs1. apply Hs1.
        - intros a s1 Hs1. exact Hs1. }
      intros ?. apply hoare_ret. auto.
  - eapply hoare_bind; [apply FinishCalculation_final|intros ?].
    apply hoare_ret. auto.
Qed.

Lemma Step_loop_preserves depth fuel : forall Step,
  hoare I (Step_loop W depth fuel Step) (fun _ => I').
Proof.
  induction fuel as [|fuel IH]; intros Step s st s1 Hs H;
    rewrite Step_loop_unfold in H;
    destruct (in_int _); try discriminate;
    destruct (decide _).
  1,3: apply bind_Ok in H; destruct H as (? & s2 & Hf & H);
       apply (FinishCalculation_final _ _ _ _ Hs) in Hf; minv; exact Hf.
  - discriminate.
  - apply bind_Ok in H. destruct H as (done & s2 & Hstep & H).
    assert (H2 := StepOnce_preserves depth _ _ _ Hs Hstep). destruct done.
    + minv. exact H2.
    + apply bind_Ok in H. destruct H as (Step' & ? & Hi & H).
      apply int_of_Ok in Hi. destruct Hi as (-> & -> & _).
      eapply IH; eauto.
Qed.

(** The constructor keeps [I] as well. *)
Lemma cPath_body_preserves depth start budget :
  preserves I (cPath_body W depth start budget).
Proof.
  unfold cPath_body. pres_with ltac:(apply ProcessCell_preserves).
Qed.

(** What holds of the object at the start of the constructor and is kept
    holds, in its final form, at the end of the search. *)
Lemma search_preserves depth fuel start goal budget st s :
  I (cPath_init start goal) ->
  search W depth fuel start goal budget = Ok (st, s) -> I' s.
Proof.
  intros H0 H. unfold search in H.
  destruct (cPath_new W depth start goal budget) as [[launched s0]|e] eqn:E;
    [|discriminate].
  assert (Hs0 : I s0) by (eapply cPath_body_preserves; [exact H0|exact E]).
  destruct launched.
  - eapply Step_loop_preserves; eauto.
  - injection H as <- <-. apply I_weaken. exact Hs0.
Qed.

End Preserved.

(** ** The cache and the oracle *)

Section CacheClaims.

Context (W : World).

Lemma cache_inv_ext s s1 :
  m_Map s1 = m_Map s -> g_oracle s1 = g_oracle s -> cache_inv s -> cache_inv s1.
Proof. unfold cache_inv. intros -> ->. auto. Qed.

Lemma cache_inv_ext' s s1 :
  m_Map s1 = m_Map s -> g_oracle s1 = g_oracle s -> g_trace s1 = g_trace s ->
  cache_inv s -> cache_inv s1.
Proof. intros Hm Ho _. apply cache_inv_ext; assumption. Qed.

Lemma cache_inv_log s e :
  (forall loc b, e <> EvRead loc b) ->
  cache_inv s -> cache_inv (set_trace (g_trace s ++ [e]) s).
Proof. intros _. apply cache_inv_ext; reflexivity. Qed.

Lemma cache_inv_store' s p c f :
  (forall c, Cell.m_Location (f c) = Cell.m_Location c) ->
  (forall c, Cell.m_IsSolid (f c) = Cell.m_IsSolid c) ->
  m_Map s !! p = Some c -> cache_inv s -> cache_inv (set_Map (<[p := f c]> (m_Map s)) s).
Proof. intros. apply cache_inv_store; assumption. Qed.

Lemma GetCell_preserves_cache depth loc : preserves cache_inv (GetCell W depth loc).
Proof. intros s p s1 Hs H. apply (GetCell_cache W depth loc s p s1 Hs H). Qed.

Lemma GetCell_IsSolid_cache depth loc : preserves cache_inv (GetCell_IsSolid W depth loc).
Proof.
  intros s b s1 Hs H. unfold GetCell_IsSolid, read_IsSolid, log in H.
  apply bind_Ok in H. destruct H as (p & s2 & Hget & H).
  apply (GetCell_preserves_cache _ _ _ _ _ Hs) in Hget.
  minv. eapply cache_inv_ext; [..|exact Hget]; reflexivity.
Qed.

Lemma cache_inv_init start goal : cache_inv (cPath_init start goal).
Proof.
  split; [constructor|]. split.
  - intros loc. simpl. rewrite lookup_empty. split.
    + intros H. inversion H.
    + intros [? ?]. discriminate.
  - intros k c. simpl. rewrite lookup_empty. discriminate.
Qed.

Lemma cache_inv_weaken s : cache_inv s -> NoDup (g_oracle s).
Proof. intros H. apply H. Qed.

Lemma cache_inv_finish s st :
  cache_inv s -> NoDup (g_oracle (set_OpenList [] (set_Map ∅ (set_Status st s)))).
Proof. intros H. apply H. Qed.

Ltac cache_hyps :=
  first [ exact cache_inv_ext' | exact cache_inv_log | exact cache_inv_store'
        | exact GetCell_preserves_cache | exact GetCell_IsSolid_cache
        | exact cache_inv_weaken | exact cache_inv_finish ].

Lemma ProcessCell_cache cell caller cost :
  preserves cache_inv (ProcessCell cell caller cost).
Proof. apply ProcessCell_preserves; cache_hyps. Qed.

Lemma ProcessIfWalkable_cache depth loc par cost :
  preserves cache_inv (ProcessIfWalkable W depth loc par cost).
Proof. apply (ProcessIfWalkable_preserves W); cache_hyps. Qed.

Lemma diagonal_cache depth cur loc x z :
  preserves cache_inv (diagonal W depth cur loc x z).
Proof. apply (diagonal_preserves W); cache_hyps. Qed.

Lemma OpenListPop_cache : preserves cache_inv (OpenListPop W).
Proof. apply OpenListPop_preserves; cache_hyps. Qed.

Lemma search_oracle_NoDup depth fuel start goal budget st s :
  search W depth fuel start goal budget = Ok (st, s) -> NoDup (g_oracle s).
Proof.
  apply (search_preserves W cache_inv (fun s => NoDup (g_oracle s))); try cache_hyps.
  apply cache_inv_init.
Qed.

(** C7.  In a cache that [GetCell] has built, a call of [GetCell] for a
    location that has a cell returns that cell and changes nothing (the oracle
    is not asked); a call for a location without a cell creates the cell of
    that location and asks the oracle for it exactly once, also counting the
    calls that [IsSolid] makes back into [GetCell]; afterwards no two cells of
    the cache carry the same location.  Over a whole search the oracle is
    asked at most once for any location.  The world
    [W] is arbitrary, and with it the entry that the heap has on top among
    entries of equal [m_F]. *)
Theorem C7_oracle_once_per_location :
  (forall depth loc s p s1,
     cache_inv s -> GetCell W depth loc s = Ok (p, s1) ->
     p = loc /\ cache_inv s1 /\ is_Some (m_Map s1 !! loc) /\
     (is_Some (m_Map s !! loc) -> s1 = s) /\
     (m_Map s !! loc = None ->
        (loc ∉ g_oracle s) /\ count_occ Vector3i_eq_dec (g_oracle s1) loc = 1%nat) /\
     (forall k1 k2 c1 c2,
        m_Map s1 !! k1 = Some c1 -> m_Map s1 !! k2 = Some c2 ->
        Cell.m_Location c1 = Cell.m_Location c2 -> k1 = k2 /\ c1 = c2)) /\
  (forall depth fuel start goal budget st s,
     search W depth fuel start goal budget = Ok (st, s) -> NoDup (g_oracle s)).
Proof.
  split.
  - intros depth loc s p s1 Inv H.
    destruct (GetCell_cache W depth loc s p s1 Inv H)
      as (-> & Inv1 & Hsome & _ & Hsame & Hnew).
    split; [reflexivity|]. split; [exact Inv1|]. split; [exact Hsome|].
    split; [exact Hsame|]. split.
    + intros E. destruct Inv as (_ & Hdom & _). split.
      * rewrite Hdom, E. intros [? ?]. discriminate.
      * destruct Inv1 as (Hnd & Hdom1 & _).
        apply NoDup_count_occ'; [apply NoDup_ListNoDup; exact Hnd|].
        apply list_elem_of_In, Hdom1. exact Hsome.
    + intros k1 k2 c1 c2 H1 H2 Hl. destruct Inv1 as (_ & _ & Hloc).
      assert (k1 = k2).
      { rewrite <- (Hloc _ _ H1), <- (Hloc _ _ H2). exact Hl. }
      subst k2. split; [reflexivity|congruence].
  - intros depth fuel start goal budget st s H. eapply search_oracle_NoDup; eauto.
Qed.

End CacheClaims.

Lemma C7_oracle_once_per_location_witness :
  (exists s1, GetCell water_on_fence 5 (Vector3 0 1 0)
                (cPath_init (Vector3 0 1 0) (Vector3 3 0 0)) = Ok (Vector3 0 1 0, s1) /\
              count_occ Vector3i_eq_dec (g_oracle s1) (Vector3 0 1 0) = 1%nat /\
              GetCell water_on_fence 5 (Vector3 0 1 0) s1 = Ok (Vector3 0 1 0, s1)) /\
  (exists st s, search flat_floor 5 5 (Vector3 0 0 0) (Vector3 5 0 0) 2 = Ok (st, s) /\
                NoDup (g_oracle s)).
Proof.
  split.
  - destruct (GetCell water_on_fence 5 (Vector3 0 1 0)
                (cPath_init (Vector3 0 1 0) (Vector3 3 0 0))) as [[p s1]|e] eqn:E;
      [|vm_compute in E; discriminate].
    destruct (proj1 (C7_oracle_once_per_location water_on_fence) _ _ _ _ _
                (cache_inv_init _ _) E) as (-> & Inv1 & Hsome & _ & Hnew & _).
    exists s1. split; [reflexivity|]. split; [apply Hnew; reflexivity|].
    destruct Hsome as [c Hc]. apply (GetCell_present _ _ c). exact Hc.
  - destruct (search flat_floor 5 5 (Vector3 0 0 0) (Vector3 5 0 0) 2)
      as [[st s]|e] eqn:E; [|vm_compute in E; discriminate].
    exists st, s. split; [reflexivity|].
    apply (proj2 (C7_oracle_once_per_location flat_floor) _ _ _ _ _ _ _ E).
Defined.

(** ** The cache and the world *)

Lemma vadd_up_down loc : (loc +v Vector3 0 1 0) +v Vector3 0 (-1) 0 = loc.
Proof. destruct loc. unfold vadd. simpl. f_equal; lia. Qed.

Lemma vadd_down_up loc : (loc +v Vector3 0 (-1) 0) +v Vector3 0 1 0 = loc.
Proof. destruct loc. unfold vadd. simpl. f_equal; lia. Qed.

Section Faithful.

Context (W : World).

Lemma faithful_ex_force pending p c s :
  cache_faithful_ex W pending s -> m_Map s !! p = Some c ->
  fence_below W p \/ water_above W p ->
  cache_faithful_ex W pending (set_Map (<[p := Cell.set_IsSolid true c]> (m_Map s)) s).
Proof.
  intros Hf Hp Hwhy k c1. simpl. rewrite lookup_insert. case_decide as Hk.
  - subst k. intros [= <-]. right. simpl. tauto.
  - apply Hf.
Qed.

Lemma IsSolid_with_faithful g :
  (forall pending l s p s1,
     cache_faithful_ex W pending s -> g l s = Ok (p, s1) ->
     p = l /\ cache_faithful_ex W pending s1) ->
  forall pending loc s b s1,
    cache_faithful_ex W pending s -> IsSolid_with W g loc s = Ok (b, s1) ->
    cache_faithful_ex W pending s1.
Proof.
  intros Hg pending loc s b s1 Hs H. unfold IsSolid_with in H.
  apply bind_Ok in H. destruct H as (? & s0 & H0 & H). apply modify_Ok in H0.
  assert (Hs0 : cache_faithful_ex W pending s0) by (subst s0; exact Hs). clear H0 Hs.
  destruct (GetBlock W loc) as [bt|] eqn:Eb.
  2:{ apply ret_Ok in H. destruct H as [_ ->]. exact Hs0. }
  apply bind_Ok in H. destruct H as (? & sb & Hfence & H).
  apply bind_Ok in H. destruct H as (? & sc & Hwater & H).
  apply ret_Ok in H. destruct H as [_ ->].
  assert (Hb : cache_faithful_ex W pending sb).
  { revert Hfence. destruct (decide (bt = E_BLOCK_FENCE W \/ bt = E_BLOCK_FENCE_GATE W))
      as [Hbt|_]; intros Hfence; [|apply skip_Ok in Hfence; subst; exact Hs0].
    apply bind_Ok in Hfence. destruct Hfence as (q & s4 & Hget & Hst).
    destruct (Hg _ _ _ _ _ Hs0 Hget) as (-> & H4).
    apply store_Ok in Hst. destruct Hst as (c & Hc & ->).
    apply faithful_ex_force; [exact H4|exact Hc|]. left.
    exists bt. rewrite vadd_up_down. auto. }
  clear Hfence. revert Hwater.
  destruct (decide (bt = E_BLOCK_STATIONARY_WATER W)) as [Hbt|_]; intros Hwater;
    [|apply skip_Ok in Hwater; subst; exact Hb].
  apply bind_Ok in Hwater. destruct Hwater as (q & s4 & Hget & Hst).
  destruct (Hg _ _ _ _ _ Hb Hget) as (-> & H4).
  apply store_Ok in Hst. destruct Hst as (c & Hc & ->).
  apply faithful_ex_force; [exact H4|exact Hc|]. right.
  unfold water_above. rewrite vadd_down_up, Eb, Hbt. reflexivity.
Qed.

Lemma GetCell_faithful_ex depth : forall pending loc s p s1,
  cache_faithful_ex W pending s -> GetCell W depth loc s = Ok (p, s1) ->
  p = loc /\ cache_faithful_ex W pending s1.
Proof.
  induction depth as [|depth IH]; intros pending loc s p s1 Hs H; simpl in H;
    apply bind_Ok in H; destruct H as (? & ? & Hg & H);
    apply get_Ok in Hg; destruct Hg as [-> ->];
    destruct (m_Map s !! loc) as [c|] eqn:E.
  1,3: apply ret_Ok in H; destruct H as [-> ->]; auto.
  - destruct (fail_Ok _ _ _ H).
  - apply bind_Ok in H. destruct H as (? & s2 & Hins & H). apply modify_Ok in Hins.
    apply bind_Ok in H. destruct H as (solid & s3 & Hsol & H).
    apply bind_Ok in H. destruct H as (? & s4 & Hst1 & H).
    apply bind_Ok in H. destruct H as (? & s5 & Hst2 & H).
    apply ret_Ok in H. destruct H as [-> ->]. split; [reflexivity|].
    assert (Hsolid : solid = world_solid W loc).
    { apply (IsSolid_with_grows W _ (GetCell_grows W depth) _ _ _ _ Hsol). }
    assert (H3 : cache_faithful_ex W (fun k => pending k \/ k = loc) s3).
    { eapply (IsSolid_with_faithful _ IH); [|exact Hsol]. subst s2.
      intros k c. simpl. rewrite lookup_insert. case_decide as Hk.
      - intros _. left. right. congruence.
      - intros Hc. destruct (Hs _ _ Hc); tauto. }
    apply store_Ok in Hst1. destruct Hst1 as (c4 & Hc4 & ->).
    apply store_Ok in Hst2. destruct Hst2 as (c5 & Hc5 & ->).
    simpl in Hc5. rewrite lookup_insert_eq in Hc5. injection Hc5 as <-.
    intros k c. simpl. rewrite insert_insert_eq, lookup_insert. case_decide as Hk.
    + subst k. intros [= <-]. right. simpl. rewrite Hsolid. unfold read_ok.
      destruct (world_solid W loc); auto.
    + intros Hc. destruct (H3 _ _ Hc) as [[Hp|Hp]|Hr]; [tauto|congruence|tauto].
Qed.

Lemma GetCell_faithful depth loc : preserves (cache_faithful W) (GetCell W depth loc).
Proof.
  intros s p s1 Hs H.
  destruct (GetCell_faithful_ex depth (fun _ => False) loc s p s1) as [_ H1];
    [intros k c Hc; right; apply (Hs _ _ Hc)|exact H|].
  intros k c Hc. destruct (H1 _ _ Hc) as [[]|Hr]. exact Hr.
Qed.

Lemma reads_faithful_ext s s1 :
  m_Map s1 = m_Map s -> g_oracle s1 = g_oracle s -> g_trace s1 = g_trace s ->
  reads_faithful W s -> reads_faithful W s1.
Proof.
  unfold reads_faithful, cache_faithful. intros Hm _ Ht. rewrite Hm, Ht. auto.
Qed.

Lemma reads_faithful_log s e :
  (forall loc b, e <> EvRead loc b) ->
  reads_faithful W s -> reads_faithful W (set_trace (g_trace s ++ [e]) s).
Proof.
  intros He [Hc Hr]. split; [exact Hc|]. intros loc b. simpl.
  rewrite elem_of_app, list_elem_of_singleton. intros [Hin|Heq]; [auto|].
  destruct (He loc b). congruence.
Qed.

Lemma reads_faithful_store s p c f :
  (forall c, Cell.m_Location (f c) = Cell.m_Location c) ->
  (forall c, Cell.m_IsSolid (f c) = Cell.m_IsSolid c) ->
  m_Map s !! p = Some c -> reads_faithful W s ->
  reads_faithful W (set_Map (<[p := f c]> (m_Map s)) s).
Proof.
  intros _ Hf Hp [Hc Hr]. split; [|exact Hr].
  intros k c1. simpl. rewrite lookup_insert. case_decide as Hk.
  - subst k. intros [= <-]. rewrite Hf. eauto.
  - apply Hc.
Qed.

Lemma GetCell_reads_faithful depth loc : preserves (reads_faithful W) (GetCell W depth loc).
Proof.
  intros s p s1 [Hc Hr] H. split; [eapply GetCell_faithful; eauto|].
  rewrite (GetCell_keeps W g_trace ltac:(ignores_tac) ltac:(ignores_tac) _ _ _ _ _ H).
  exact Hr.
Qed.

Lemma GetCell_IsSolid_reads_faithful depth loc :
  preserves (reads_faithful W) (GetCell_IsSolid W depth loc).
Proof.
  intros s b s1 Hs H. unfold GetCell_IsSolid, read_IsSolid, log in H.
  apply bind_Ok in H. destruct H as (p & s2 & Hget & H).
  assert (p = loc) by (apply (GetCell_grows W depth _ _ _ _ Hget)). subst p.
  destruct (GetCell_reads_faithful _ _ _ _ _ Hs Hget) as [Hc Hr].
  minv. split; [exact Hc|]. intros l b. simpl.
  rewrite elem_of_app, list_elem_of_singleton. intros [Hin|[= -> ->]]; [auto|].
  eapply Hc; eauto.
Qed.

Lemma reads_faithful_init start goal : reads_faithful W (cPath_init start goal).
Proof.
  split.
  - intros k c. simpl. rewrite lookup_empty. discriminate.
  - intros loc b Hin. inversion Hin.
Qed.

(** Every read of a whole search agrees with the world. *)
Lemma search_reads_explained depth fuel start goal budget st s :
  search W depth fuel start goal budget = Ok (st, s) ->
  reads_explained W (g_trace s).
Proof.
  apply (search_preserves W (reads_faithful W) (fun s => reads_explained W (g_trace s)));
    first [ exact reads_faithful_ext | exact reads_faithful_log
          | exact reads_faithful_store | exact GetCell_reads_faithful
          | exact GetCell_IsSolid_reads_faithful
          | apply reads_faithful_init
          | (intros s0 [_ Hr]; exact Hr)
          | (intros s0 st0 [_ Hr]; exact Hr) ].
Qed.

End Faithful.

(** ** The trace of a search *)

Lemma wf_trace_nil : wf_trace [].
Proof. intros pre e post H. destruct pre; discriminate. Qed.

Lemma wf_trace_snoc t e : wf_trace t -> justified t e -> wf_trace (t ++ [e]).
Proof.
  intros Hwf He pre e1 post. revert pre e1.
  induction post as [|x post _] using rev_ind; intros pre e1 Heq.
  - apply app_inj_tail in Heq. destruct Heq as [-> ->]. exact He.
  - change (pre ++ e1 :: post ++ [x]) with (pre ++ (e1 :: post) ++ [x]) in Heq.
    rewrite app_assoc in Heq. apply app_inj_tail in Heq. destruct Heq as [-> _].
    eapply Hwf. reflexivity.
Qed.

Lemma wf_trace_app ext : forall t,
  wf_trace t -> justified_all t ext -> wf_trace (t ++ ext).
Proof.
  induction ext as [|e ext IH]; intros t Hwf Hj; simpl in Hj.
  - rewrite app_nil_r. exact Hwf.
  - destruct Hj as [He Hj]. change (t ++ e :: ext) with (t ++ [e] ++ ext).
    rewrite app_assoc. apply IH; [apply wf_trace_snoc; assumption|exact Hj].
Qed.

Section Traces.

Context (W : World).

Lemma GetCell_trace depth loc s p s1 :
  GetCell W depth loc s = Ok (p, s1) -> g_trace s1 = g_trace s.
Proof. apply (GetCell_keeps W g_trace); ignores_tac. Qed.

Lemma GetCell_OpenList depth loc s p s1 :
  GetCell W depth loc s = Ok (p, s1) -> m_OpenList s1 = m_OpenList s.
Proof. apply (GetCell_keeps W m_OpenList); ignores_tac. Qed.

(** A read of [GetCell(loc)->m_IsSolid]: the event, and the cache that may
    have grown. *)
Lemma GetCell_IsSolid_spec depth loc s b s1 :
  GetCell_IsSolid W depth loc s = Ok (b, s1) ->
  g_trace s1 = g_trace s ++ [EvRead loc b] /\
  m_OpenList s1 = m_OpenList s /\
  map_grows (m_Map s) (m_Map s1) /\
  (cache_inv s -> cache_inv s1) /\
  exists c, m_Map s1 !! loc = Some c /\ Cell.m_IsSolid c = b.
Proof.
  intros H.
  assert (Hcache : cache_inv s -> cache_inv s1).
  { intros Hs. eapply GetCell_IsSolid_cache; eauto. }
  revert H. unfold GetCell_IsSolid, read_IsSolid, log. intros H.
  apply bind_Ok in H. destruct H as (p & s2 & Hget & H).
  destruct (GetCell_grows W depth _ _ _ _ Hget) as (-> & Hgrow & _).
  rewrite <- (GetCell_trace _ _ _ _ _ Hget), <- (GetCell_OpenList _ _ _ _ _ Hget).
  minv. simpl. split; [reflexivity|]. split; [reflexivity|]. split; [exact Hgrow|].
  split; [exact Hcache|].
  eexists. split; [eassumption|reflexivity].
Qed.

Lemma OpenListAdd_spec p s u s1 :
  OpenListAdd p s = Ok (u, s1) ->
  exists c, m_Map s !! p = Some c /\
    s1 = set_trace (g_trace s ++ [EvPush p])
           (set_OpenList (m_OpenList s ++ [p])
              (set_Map (<[p := Cell.set_Status OPENLIST c]> (m_Map s)) s)).
Proof.
  unfold OpenListAdd, log. intros H. minv. eexists. split; [eassumption|reflexivity].
Qed.

Lemma ProcessCell_spec cell caller cost s u s1 :
  ProcessCell cell caller cost s = Ok (u, s1) ->
  ProcessCell_result cell caller cost s s1.
Proof.
  unfold ProcessCell, log. intros H.
  apply bind_Ok in H. destruct H as (? & s2 & Hlog & H). apply modify_Ok in Hlog.
  apply bind_Ok in H. destruct H as (c & ? & Hd & H).
  apply deref_Ok in Hd. destruct Hd as [Hc ->].
  subst s2. simpl in Hc. exists c. split; [exact Hc|]. cbv zeta.
  destruct c as [cl cf cg ch cs cp csol]. simpl. destruct cs.
  - (* OPENLIST *)
    destruct caller as [p|]; [|destruct (fail_Ok _ _ _ H)].
    apply bind_Ok in H. destruct H as (cc & ? & Hd & H).
    apply deref_Ok in Hd. destruct Hd as [Hcc ->]. simpl in Hcc.
    apply bind_Ok in H. destruct H as (NewG & ? & Hi & H).
    apply int_of_Ok in Hi. destruct Hi as (-> & -> & _).
    apply bind_Ok in H. destruct H as (c1 & ? & Hd & H).
    apply deref_Ok in Hd. destruct Hd as [Hc1 ->]. simpl in Hc1.
    rewrite Hc in Hc1. injection Hc1 as <-. simpl in H.
    exists p, cc. split; [reflexivity|]. split; [exact Hcc|].
    destruct (Cell.m_G cc + cost <? cg); [|apply skip_Ok in H; exact H].
    minv. simpl in *.
    repeat match goal with
    | Hx : <[_ := _]> _ !! _ = Some _ |- _ =>
        rewrite lookup_insert_eq in Hx; injection Hx as <-
    end.
    rewrite Hc in *.
    repeat match goal with
    | Hx : Some _ = Some _ |- _ => injection Hx as <-
    end.
    simpl. rewrite !insert_insert_eq. reflexivity.
  - (* CLOSEDLIST *)
    apply skip_Ok in H. exact H.
  - (* NOLIST *)
    apply bind_Ok in H. destruct H as (? & s3 & Hst & H).
    apply store_Ok in Hst. destruct Hst as (c0 & Hc0 & ->). simpl in Hc0.
    rewrite Hc in Hc0. injection Hc0 as <-.
    apply bind_Ok in H. destruct H as (? & s4 & HG & H).
    assert (HG' : exists g,
              match caller with
              | Some p => exists cc, m_Map s !! p = Some cc /\ g = Cell.m_G cc + cost
              | None => g = 0
              end /\
              s4 = set_Map (<[cell := Cell.mk cl cf g ch NOLIST caller csol]> (m_Map s))
                     (set_trace (g_trace s ++ [EvProcess cell caller cost]) s)).
    { destruct caller as [p|].
      - apply bind_Ok in HG. destruct HG as (cc & ? & Hd & HG).
        apply deref_Ok in Hd. destruct Hd as [Hcc ->]. simpl in Hcc.
        apply bind_Ok in HG. destruct HG as (g & ? & Hi & HG).
        apply int_of_Ok in Hi. destruct Hi as (-> & -> & _).
        apply store_Ok in HG. destruct HG as (c0 & Hc0 & ->). simpl in Hc0.
        rewrite lookup_insert_eq in Hc0. injection Hc0 as <-.
        exists (Cell.m_G cc + cost). split.
        + rewrite lookup_insert in Hcc. case_decide as Hp.
          * subst p. injection Hcc as <-. exists (Cell.mk cl cf cg ch NOLIST cp csol).
            split; [exact Hc|reflexivity].
          * exists cc. split; [exact Hcc|reflexivity].
        + simpl. rewrite insert_insert_eq. reflexivity.
      - apply store_Ok in HG. destruct HG as (c0 & Hc0 & ->). simpl in Hc0.
        rewrite lookup_insert_eq in Hc0. injection Hc0 as <-.
        exists 0. split; [reflexivity|]. simpl. rewrite insert_insert_eq. reflexivity. }
    destruct HG' as (g & Hg & ->). exists g. split; [exact Hg|].
    apply bind_Ok in H. destruct H as (? & ? & Hget & H).
    apply get_Ok in Hget. destruct Hget as [-> ->].
    apply bind_Ok in H. destruct H as (c1 & ? & Hd & H).
    apply deref_Ok in Hd. destruct Hd as [Hc1 ->]. simpl in Hc1.
    rewrite lookup_insert_eq in Hc1. injection Hc1 as <-. simpl in H.
    apply bind_Ok in H. destruct H as (h & ? & Hi & H).
    apply int_of_Ok in Hi. destruct Hi as (-> & -> & _).
    apply bind_Ok in H. destruct H as (? & ? & Hst & H).
    apply store_Ok in Hst. destruct Hst as (c0 & Hc0 & ->). simpl in Hc0.
    rewrite lookup_insert_eq in Hc0. injection Hc0 as <-.
    apply bind_Ok in H. destruct H as (c1 & ? & Hd & H).
    apply deref_Ok in Hd. destruct Hd as [Hc1 ->]. simpl in Hc1.
    rewrite lookup_insert_eq in Hc1. injection Hc1 as <-. simpl in H.
    apply bind_Ok in H. destruct H as (f & ? & Hi & H).
    apply int_of_Ok in Hi. destruct Hi as (-> & -> & _).
    apply bind_Ok in H. destruct H as (? & ? & Hst & H).
    apply store_Ok in Hst. destruct Hst as (c0 & Hc0 & ->). simpl in Hc0.
    rewrite lookup_insert_eq in Hc0. injection Hc0 as <-.
    apply OpenListAdd_spec in H. destruct H as (c1 & Hc1 & ->). simpl in Hc1.
    rewrite lookup_insert_eq in Hc1. injection Hc1 as <-.
    simpl. rewrite !insert_insert_eq, <- app_assoc. reflexivity.
Qed.

Lemma ProcessIfWalkable_spec depth loc par cost s u s1 :
  ProcessIfWalkable W depth loc par cost s = Ok (u, s1) ->
  ProcessIfWalkable_result loc par cost s s1.
Proof.
  unfold ProcessIfWalkable, log. intros H.
  apply bind_Ok in H. destruct H as (? & sa & Hlog & H). apply modify_Ok in Hlog.
  assert (Ha : g_trace sa = g_trace s ++ [EvConsider loc par cost] /\
               m_OpenList sa = m_OpenList s /\ m_Map sa = m_Map s /\
               (cache_inv s -> cache_inv sa)).
  { subst sa. split; [reflexivity|]. split; [reflexivity|]. split; [reflexivity|].
    apply cache_inv_ext; reflexivity. }
  clear Hlog. destruct Ha as (Ta & Oa & Ma & Ca).
  assert (H1 : exists solid sb, GetCell_IsSolid W depth loc sa = Ok (solid, sb) /\
             (if solid : bool then skip else
                below ← GetCell_IsSolid W depth (loc +v Vector3 0 (-1) 0);
                if negb below then skip else
                above ← GetCell_IsSolid W depth (loc +v Vector3 0 1 0);
                if above : bool then skip else ProcessCell loc (Some par) cost) sb
             = Ok (u, s1)).
  { apply bind_Ok in H. destruct H as (cell & sb & Hget & H).
    assert (cell = loc) by (apply (GetCell_grows W depth _ _ _ _ Hget)). subst cell.
    apply bind_Ok in H. destruct H as (solid & sc & Hread & H).
    exists solid, sc. split; [|exact H].
    unfold GetCell_IsSolid. unfold mbind, M_bind. rewrite Hget. exact Hread. }
  clear H. destruct H1 as (solid & sb & Hr1 & H).
  apply GetCell_IsSolid_spec in Hr1. destruct Hr1 as (Tb & Ob & Gb & Cb & _).
  rewrite Ta in Tb. rewrite Oa in Ob. rewrite Ma in Gb.
  destruct solid.
  { apply skip_Ok in H. subst s1. left. eexists. split; [left; reflexivity|].
    rewrite Tb, <- app_assoc. auto. }
  apply bind_Ok in H. destruct H as (below & sc & Hr2 & H).
  apply GetCell_IsSolid_spec in Hr2. destruct Hr2 as (Tc & Oc & Gc & Cc & _).
  rewrite Tb in Tc. rewrite Ob in Oc.
  assert (Gc' := map_grows_trans _ _ _ Gb Gc).
  destruct below; simpl in H.
  2:{ apply skip_Ok in H. subst s1. left. eexists.
      split; [right; left; reflexivity|]. rewrite Tc, <- !app_assoc. auto. }
  apply bind_Ok in H. destruct H as (above & sd & Hr3 & H).
  apply GetCell_IsSolid_spec in Hr3. destruct Hr3 as (Td & Od & Gd & Cd & _).
  rewrite Tc in Td. rewrite Oc in Od.
  assert (Gd' := map_grows_trans _ _ _ Gc' Gd).
  destruct above.
  { apply skip_Ok in H. subst s1. left. eexists.
    split; [right; right; reflexivity|]. rewrite Td, <- !app_assoc. auto. }
  right. exists sd. destruct u. rewrite Td, <- !app_assoc. auto 10.
Qed.

Lemma diagonal_spec depth cur loc x z s u s1 :
  diagonal W depth cur loc x z s = Ok (u, s1) ->
  diagonal_result W depth cur loc x z s s1.
Proof.
  unfold diagonal. intros H.
  apply bind_Ok in H. destruct H as (c1 & sa & Hr & H).
  apply GetCell_IsSolid_spec in Hr. destruct Hr as (Ta & Oa & Ga & Ca & _).
  destruct c1.
  { apply skip_Ok in H. subst s1. left. eexists. split; [left; reflexivity|]. auto. }
  apply bind_Ok in H. destruct H as (c2 & sb & Hr & H).
  apply GetCell_IsSolid_spec in Hr. destruct Hr as (Tb & Ob & Gb & Cb & _).
  rewrite Ta in Tb. rewrite Oa in Ob. assert (Gb' := map_grows_trans _ _ _ Ga Gb).
  destruct c2.
  { apply skip_Ok in H. subst s1. left. eexists.
    split; [right; left; reflexivity|]. rewrite Tb, <- !app_assoc. auto. }
  apply bind_Ok in H. destruct H as (f1 & sc & Hr & H).
  apply GetCell_IsSolid_spec in Hr. destruct Hr as (Tc & Oc & Gc & Cc & _).
  rewrite Tb in Tc. rewrite Ob in Oc. assert (Gc' := map_grows_trans _ _ _ Gb' Gc).
  destruct f1; simpl in H.
  2:{ apply skip_Ok in H. subst s1. left. eexists.
      split; [right; right; left; reflexivity|]. rewrite Tc, <- !app_assoc. auto. }
  apply bind_Ok in H. destruct H as (f2 & sd & Hr & H).
  apply GetCell_IsSolid_spec in Hr. destruct Hr as (Td & Od & Gd & Cd & _).
  rewrite Tc in Td. rewrite Oc in Od. assert (Gd' := map_grows_trans _ _ _ Gc' Gd).
  destruct f2; simpl in H.
  2:{ apply skip_Ok in H. subst s1. left. eexists.
      split; [right; right; right; reflexivity|]. rewrite Td, <- !app_assoc. auto. }
  right. exists sd. destruct u. rewrite Td, <- !app_assoc. auto 10.
Qed.

End Traces.

(** ** Invariants of a running search *)

Lemma preserves_for_each_in {A} I (l : list A) body :
  (forall a, a ∈ l -> preserves I (body a)) -> preserves I (for_each l body).
Proof.
  induction l as [|a l IH]; intros Hb; simpl; [apply hoare_skip; auto|].
  apply preserves_bind; [apply Hb; left|intros _; apply IH].
  intros b Hin. apply Hb. right. exact Hin.
Qed.

Section SearchInv.

Context (W : World).

Lemma parents_logged_grows s s1 :
  parents_logged s -> map_grows (m_Map s) (m_Map s1) ->
  (exists ext, g_trace s1 = g_trace s ++ ext) -> parents_logged s1.
Proof.
  intros HP [Ho Hn] (ext & Ht) k c1 p Hk Hp. rewrite Ht.
  destruct (m_Map s !! k) as [c|] eqn:E.
  - destruct (Ho _ _ E) as (c1' & Hk' & U). assert (c1' = c1) by congruence. subst c1'.
    assert (Hp' : Cell.m_Parent c = Some p) by (destruct U as [->| ->]; exact Hp).
    destruct (HP _ _ _ E Hp') as (cost & Hin). exists cost.
    apply elem_of_app. left. exact Hin.
  - destruct (Hn _ _ Hk E) as (b & ->). discriminate.
Qed.

Lemma ProcessCell_trace cell caller cost s u s1 :
  ProcessCell cell caller cost s = Ok (u, s1) ->
  g_trace s1 = g_trace s ++ [EvProcess cell caller cost] \/
  g_trace s1 = g_trace s ++ [EvProcess cell caller cost; EvPush cell].
Proof.
  intros H. apply ProcessCell_spec in H. destruct H as (c & Hc & H). cbv zeta in H.
  destruct (Cell.m_Status c).
  - destruct H as (p & cc & _ & _ & H). destruct (_ <? _); subst s1; left; reflexivity.
  - subst s1. left. reflexivity.
  - destruct H as (g & _ & ->). right. reflexivity.
Qed.

Lemma ProcessCell_wf cell caller cost s u s1 :
  wf_trace (g_trace s) -> justified (g_trace s) (EvProcess cell caller cost) ->
  ProcessCell cell caller cost s = Ok (u, s1) -> wf_trace (g_trace s1).
Proof.
  intros Hwf Hj H. apply ProcessCell_trace in H. destruct H as [-> | ->];
    apply wf_trace_app; try exact Hwf; simpl; repeat split; try exact Hj.
  eexists _, _, _. reflexivity.
Qed.

Lemma ProcessCell_parents cell caller cost s u s1 :
  parents_logged s -> ProcessCell cell caller cost s = Ok (u, s1) -> parents_logged s1.
Proof.
  intros HP H. apply ProcessCell_spec in H. destruct H as (c & Hc & H). cbv zeta in H.
  assert (Hold : forall ext k c0 p, m_Map s !! k = Some c0 -> Cell.m_Parent c0 = Some p ->
            exists cost0, EvProcess k (Some p) cost0 ∈ g_trace s ++ ext).
  { intros ext k c0 p Hk Hp. destruct (HP _ _ _ Hk Hp) as (cost0 & Hin).
    exists cost0. apply elem_of_app. left. exact Hin. }
  assert (Hnew : forall ext cnew (m1 : gmap Vector3i cPathCell) t1,
            m1 = <[cell := cnew]> (m_Map s) ->
            t1 = g_trace s ++ EvProcess cell caller cost :: ext ->
            Cell.m_Parent cnew = caller ->
            forall k c0 p, m1 !! k = Some c0 -> Cell.m_Parent c0 = Some p ->
              exists cost0, EvProcess k (Some p) cost0 ∈ t1).
  { intros ext cnew m1 t1 -> -> Hpar k c0 p Hk Hp.
    rewrite lookup_insert in Hk. case_decide as Hd.
    - subst k. injection Hk as <-. exists cost. apply elem_of_app. right.
      rewrite <- Hp, Hpar. left.
    - apply (Hold _ _ _ _ Hk Hp). }
  destruct (Cell.m_Status c).
  - destruct H as (p & cc & -> & _ & H). destruct (_ <? _); subst s1.
    + intros k c0 p0. simpl. eapply (Hnew []); simpl; reflexivity.
    + intros k c0 p0. simpl. apply Hold.
  - subst s1. intros k c0 p0. simpl. apply Hold.
  - destruct H as (g & _ & ->). intros k c0 p0. simpl.
    eapply (Hnew [EvPush cell]); simpl; reflexivity.
Qed.

Lemma search_inv_grows s s1 ext :
  search_inv s -> cache_inv s1 -> map_grows (m_Map s) (m_Map s1) ->
  g_trace s1 = g_trace s ++ ext -> justified_all (g_trace s) ext ->
  search_inv s1.
Proof.
  intros (_ & Hwf & HP) Hc Hg Ht Hj. split; [exact Hc|]. split.
  - rewrite Ht. apply wf_trace_app; assumption.
  - eapply parents_logged_grows; eauto.
Qed.

Lemma ProcessIfWalkable_inv depth loc par cost s u s1 :
  search_inv s -> justified (g_trace s) (EvConsider loc par cost) ->
  ProcessIfWalkable W depth loc par cost s = Ok (u, s1) -> search_inv s1.
Proof.
  intros Inv Hj H.
  assert (Hc1 : cache_inv s1).
  { eapply ProcessIfWalkable_cache; [apply Inv|exact H]. }
  apply ProcessIfWalkable_spec in H.
  destruct H as [(reads & Hr & Ht & _ & Hg)|(s0 & Ht & _ & Hg & _ & H)].
  - eapply search_inv_grows; eauto.
    destruct Hr as [->|[->| ->]]; simpl; tauto.
  - destruct Inv as (_ & Hwf & HP).
    assert (Hwf0 : wf_trace (g_trace s0)).
    { rewrite Ht. apply wf_trace_app; [exact Hwf|]. simpl. tauto. }
    assert (HP0 : parents_logged s0) by (eapply parents_logged_grows; eauto).
    split; [exact Hc1|]. split.
    + eapply ProcessCell_wf; [exact Hwf0| |exact H]. simpl. rewrite Ht. eauto.
    + eapply ProcessCell_parents; eauto.
Qed.

Lemma diagonal_inv depth cur x z s u s1 :
  search_inv s -> is_unit x -> is_unit z ->
  diagonal W depth cur cur x z s = Ok (u, s1) -> search_inv s1.
Proof.
  intros Inv Hx Hz H.
  assert (Hc1 : cache_inv s1).
  { eapply diagonal_cache; [apply Inv|exact H]. }
  apply diagonal_spec in H.
  destruct H as [(reads & Hr & Ht & _ & Hg)|(s0 & Ht & _ & Hg & Hc0 & H)].
  - eapply search_inv_grows; eauto.
    destruct Hr as [->|[->|[->| ->]]]; simpl; tauto.
  - assert (Inv0 : search_inv s0).
    { eapply search_inv_grows; eauto; [apply Hc0, Inv|]. simpl. tauto. }
    eapply ProcessIfWalkable_inv; [exact Inv0| |exact H].
    simpl. right. split; [reflexivity|]. exists x, z. rewrite Ht. eauto 10.
Qed.

Lemma cache_inv_location s k c :
  cache_inv s -> m_Map s !! k = Some c -> Cell.m_Location c = k.
Proof. intros (_ & _ & Hloc). apply Hloc. Qed.

Lemma orthogonal_row i :
  i ∈ [-1; 0; 1] ->
  orthogonal (Vector3 1 i 0) /\ orthogonal (Vector3 (-1) i 0) /\
  orthogonal (Vector3 0 i 1) /\ orthogonal (Vector3 0 i (-1)).
Proof.
  intros Hi. assert (Hi' : i = -1 \/ i = 0 \/ i = 1).
  { rewrite !elem_of_cons, elem_of_nil in Hi. tauto. }
  repeat split; exists i; (split; [exact Hi'|]); tauto.
Qed.

Lemma is_unit_elem x : x ∈ [-1; 1] -> is_unit x.
Proof. rewrite !elem_of_cons, elem_of_nil. unfold is_unit. tauto. Qed.

(** One orthogonal neighbour of the expansion. *)
Lemma neighbour_inv depth cur off :
  orthogonal off ->
  preserves search_inv
    (c ← deref cur; ProcessIfWalkable W depth (Cell.m_Location c +v off) cur 10).
Proof.
  intros Hoff s a s1 Inv H.
  apply bind_Ok in H. destruct H as (c & ? & Hd & H).
  apply deref_Ok in Hd. destruct Hd as [Hc ->].
  rewrite (cache_inv_location s cur c (proj1 Inv) Hc) in H.
  eapply ProcessIfWalkable_inv; [exact Inv| |exact H].
  simpl. left. split; [reflexivity|]. exists off. auto.
Qed.

Lemma expand_row_inv depth cur i :
  i ∈ [-1; 0; 1] -> preserves search_inv (expand_row W depth cur i).
Proof.
  intros Hi. destruct (orthogonal_row i Hi) as (H1 & H2 & H3 & H4).
  unfold expand_row.
  assert (Hstep : forall off (rest : M unit),
            orthogonal off -> preserves search_inv rest ->
            preserves search_inv
              (c ← deref cur;
               ProcessIfWalkable W depth (Cell.m_Location c +v off) cur 10;; rest)).
  { intros off rest Hoff Hrest s a s1 Inv H.
    apply bind_Ok in H. destruct H as (c & s2 & Hd & H).
    apply bind_Ok in H. destruct H as (? & s3 & Hp & H).
    eapply Hrest; [|exact H].
    eapply (neighbour_inv depth cur off Hoff); [exact Inv|].
    unfold mbind, M_bind. rewrite Hd. exact Hp. }
  apply Hstep; [exact H1|]. apply Hstep; [exact H2|]. apply Hstep; [exact H3|].
  apply neighbour_inv. exact H4.
Qed.

Lemma expand_inv depth cur : preserves search_inv (expand W depth cur).
Proof.
  unfold expand. apply preserves_bind.
  - apply preserves_for_each_in. intros i Hi. apply expand_row_inv. exact Hi.
  - intros _. apply preserves_for_each_in. intros x Hx.
    apply preserves_for_each_in. intros z Hz s a s1 Inv H.
    apply bind_Ok in H. destruct H as (c & ? & Hd & H).
    apply deref_Ok in Hd. destruct Hd as [Hc ->].
    rewrite (cache_inv_location s cur c (proj1 Inv) Hc) in H.
    eapply diagonal_inv;
      [exact Inv|apply is_unit_elem; exact Hx|apply is_unit_elem; exact Hz|exact H].
Qed.

Lemma OpenListPop_spec s r s1 :
  OpenListPop W s = Ok (r, s1) ->
  (m_OpenList s = [] /\ r = None /\ s1 = s) \/
  (exists p l c,
     m_OpenList s = p :: l /\ r = Some (queue_top W s p l) /\
     m_Map s !! queue_top W s p l = Some c /\
     s1 = set_trace (g_trace s ++ [EvPop (queue_top W s p l)])
            (set_Map (<[queue_top W s p l := Cell.set_Status CLOSEDLIST c]> (m_Map s))
               (set_OpenList (remove_first (queue_top W s p l) (p :: l)) s))).
Proof.
  unfold OpenListPop, log. intros H.
  apply bind_Ok in H. destruct H as (? & ? & Hg & H).
  apply get_Ok in Hg. destruct Hg as [-> ->].
  destruct (m_OpenList s) as [|p l] eqn:E.
  - apply ret_Ok in H. destruct H as [-> ->]. left. auto.
  - right. minv. simpl in *. eexists _, _, _. repeat split; eauto.
Qed.

Lemma OpenListPop_inv : preserves search_inv (OpenListPop W).
Proof.
  intros s r s1 Inv H.
  assert (Hc1 : cache_inv s1) by (eapply OpenListPop_cache; [apply Inv|exact H]).
  apply OpenListPop_spec in H.
  destruct H as [(_ & _ & ->)|(p & l & c & _ & _ & Hc & ->)]; [exact Inv|].
  destruct Inv as (_ & Hwf & HP). split; [exact Hc1|]. split.
  - simpl. apply wf_trace_snoc; [exact Hwf|exact I].
  - intros k c0 p0. simpl. rewrite lookup_insert. case_decide as Hd.
    + subst k. intros [= <-] Hp. destruct (HP _ _ _ Hc Hp) as (cost & Hin).
      exists cost. apply elem_of_app. left. exact Hin.
    + intros Hk Hp. destruct (HP _ _ _ Hk Hp) as (cost & Hin).
      exists cost. apply elem_of_app. left. exact Hin.
Qed.

Lemma collect_path_spec depth : forall cur s u s1,
  collect_path depth cur s = Ok (u, s1) ->
  exists pts, s1 = set_PathPoints (m_PathPoints s ++ pts) s /\ chain (m_Map s) cur pts.
Proof.
  induction depth as [|depth IH]; intros cur s u s1 H; simpl in H;
    [destruct (fail_Ok _ _ _ H)|].
  apply bind_Ok in H. destruct H as (c & ? & Hd & H).
  apply deref_Ok in Hd. destruct Hd as [Hc ->].
  apply bind_Ok in H. destruct H as (? & s2 & Hm & H). apply modify_Ok in Hm. subst s2.
  destruct (Cell.m_Parent c) as [p|] eqn:Ep.
  - apply IH in H. destruct H as (pts & -> & Hch). simpl in Hch.
    exists (Cell.m_Location c :: pts). split.
    + simpl. rewrite <- app_assoc. reflexivity.
    + simpl. exists c. rewrite Ep. auto.
  - apply skip_Ok in H. subst s1. exists [Cell.m_Location c]. split; [reflexivity|].
    simpl. exists c. rewrite Ep. auto.
Qed.

Lemma chain_head m cur a rest :
  (forall k c, m !! k = Some c -> Cell.m_Location c = k) ->
  chain m cur (a :: rest) -> a = cur.
Proof. intros Hloc (c & Hc & -> & _). apply Hloc. exact Hc. Qed.

Lemma chain_pairs m :
  (forall k c, m !! k = Some c -> Cell.m_Location c = k) ->
  forall pts cur, chain m cur pts ->
  forall i a b, pts !! i = Some a -> pts !! S i = Some b ->
    exists c, m !! a = Some c /\ Cell.m_Parent c = Some b.
Proof.
  intros Hloc. induction pts as [|a0 rest IH]; intros cur Hch i a b Ha Hb;
    [destruct Hch|].
  assert (Hhead := chain_head _ _ _ _ Hloc Hch).
  destruct Hch as (c & Hc & _ & Hpar). subst a0.
  destruct (Cell.m_Parent c) as [p|] eqn:Ep; [|subst rest; destruct i; discriminate].
  destruct i as [|i].
  - injection Ha as <-. simpl in Hb. destruct rest as [|b0 rest']; [discriminate|].
    injection Hb as <-. rewrite (chain_head _ _ _ _ Hloc Hpar).
    exists c. auto.
  - eapply IH; eauto.
Qed.

Lemma search_inv_ext s s1 :
  m_Map s1 = m_Map s -> g_oracle s1 = g_oracle s -> g_trace s1 = g_trace s ->
  search_inv s -> search_inv s1.
Proof.
  intros Hm Ho Ht (Hc & Hwf & HP). split; [eapply cache_inv_ext; eauto|].
  split; [rewrite Ht; exact Hwf|].
  intros k c p. rewrite Hm, Ht. apply HP.
Qed.

Lemma GetCell_inv depth loc : preserves search_inv (GetCell W depth loc).
Proof.
  intros s p s1 Inv H.
  eapply (search_inv_grows s s1 []); [exact Inv| | | |exact I].
  - eapply GetCell_preserves_cache; [apply Inv|exact H].
  - apply (GetCell_grows W depth _ _ _ _ H).
  - rewrite app_nil_r. eapply GetCell_trace; exact H.
Qed.

Lemma GetCell_IsSolid_inv depth loc : preserves search_inv (GetCell_IsSolid W depth loc).
Proof.
  intros s b s1 Inv H. apply GetCell_IsSolid_spec in H.
  destruct H as (Ht & _ & Hg & Hc & _).
  eapply search_inv_grows; [exact Inv|apply Hc, Inv|exact Hg|exact Ht|].
  simpl. auto.
Qed.

Lemma ProcessCell_seed_inv cell cost : preserves search_inv (ProcessCell cell None cost).
Proof.
  intros s u s1 (Hc & Hwf & HP) H. split; [eapply ProcessCell_cache; eauto|].
  split; [eapply (ProcessCell_wf cell None cost); [exact Hwf|exact I|exact H]|].
  eapply ProcessCell_parents; eauto.
Qed.

Lemma running_finished s s1 :
  running s -> g_trace s1 = g_trace s -> m_PathPoints s1 = m_PathPoints s ->
  finished s1.
Proof.
  intros [(_ & Hwf & _) Hpp] Ht Hp. split; [rewrite Ht; exact Hwf|].
  intros i a b. rewrite Hp, Hpp. discriminate.
Qed.

Lemma StepOnce_run depth :
  hoare running (StepOnce W depth)
    (fun done s1 => if done : bool then finished s1 else running s1).
Proof.
  intros s done s1 [Inv Hpp] H. unfold StepOnce in H.
  apply bind_Ok in H. destruct H as (? & s0 & H0 & H). apply modify_Ok in H0.
  assert (R0 : running s0).
  { subst s0. split; [|exact Hpp]. eapply search_inv_ext; [..|exact Inv]; reflexivity. }
  clear H0 Inv Hpp.
  apply bind_Ok in H. destruct H as (cur & s2 & Hpop & H).
  assert (R2 : running s2).
  { split; [eapply OpenListPop_inv; [apply R0|exact Hpop]|].
    rewrite (OpenListPop_keeps W m_PathPoints ltac:(ignores_tac) ltac:(ignores_tac)
               ltac:(ignores_tac) _ _ _ Hpop). apply R0. }
  clear Hpop R0. destruct cur as [cur|].
  2:{ unfold FinishCalculation, FinishCalculation0 in H. minv.
      eapply running_finished; [exact R2|reflexivity|reflexivity]. }
  apply bind_Ok in H. destruct H as (c & ? & Hd & H).
  apply deref_Ok in Hd. destruct Hd as [Hc ->].
  apply bind_Ok in H. destruct H as (? & ? & Hg & H).
  apply get_Ok in Hg. destruct Hg as [-> ->].
  destruct (at_goal _ _).
  - apply bind_Ok in H. destruct H as (? & s3 & Hcol & H).
    apply collect_path_spec in Hcol. destruct Hcol as (pts & -> & Hch).
    unfold FinishCalculation, FinishCalculation0 in H. minv.
    destruct R2 as [(Hcache & Hwf & HP) Hpp]. split; [exact Hwf|].
    intros i a b. simpl. rewrite Hpp. simpl. intros Ha Hb.
    destruct (chain_pairs _ (proj2 (proj2 Hcache)) _ _ Hch _ _ _ Ha Hb)
      as (ca & Hca & Hpa).
    apply (HP _ _ _ Hca Hpa).
  - apply bind_Ok in H. destruct H as (? & s3 & Hexp & H).
    apply ret_Ok in H. destruct H as [-> ->].
    split; [eapply expand_inv; [apply R2|exact Hexp]|].
    rewrite (expand_keeps W m_PathPoints ltac:(ignores_tac) ltac:(ignores_tac)
               ltac:(ignores_tac) ltac:(ignores_tac) _ _ _ _ _ Hexp). apply R2.
Qed.

Lemma Step_loop_run depth fuel : forall Step s st s1,
  running s -> Step_loop W depth fuel Step s = Ok (st, s1) -> finished s1.
Proof.
  induction fuel as [|fuel IH]; intros Step s st s1 R H;
    rewrite Step_loop_unfold in H;
    destruct (in_int _); try discriminate;
    destruct (decide _).
  1,3: unfold FinishCalculation, FinishCalculation0 in H; minv;
       eapply running_finished; [exact R|reflexivity|reflexivity].
  - discriminate.
  - apply bind_Ok in H. destruct H as (done & s2 & Hstep & H).
    assert (R2 := StepOnce_run depth _ _ _ R Hstep). destruct done.
    + minv. exact R2.
    + apply bind_Ok in H. destruct H as (Step' & ? & Hi & H).
      apply int_of_Ok in Hi. destruct Hi as (-> & -> & _).
      eapply IH; eauto.
Qed.

Lemma search_inv_init start goal : search_inv (cPath_init start goal).
Proof.
  split; [apply cache_inv_init|]. split; [apply wf_trace_nil|].
  intros k c p. simpl. rewrite lookup_empty. discriminate.
Qed.

Lemma cPath_new_run depth start goal budget launched s :
  cPath_new W depth start goal budget = Ok (launched, s) ->
  if launched : bool then running s else finished s.
Proof.
  unfold cPath_new, cPath_body. intros H.
  assert (Hpp : m_PathPoints s = []).
  { revert H. change [] with (m_PathPoints (cPath_init start goal)).
    generalize (cPath_init start goal). intros s0 H.
    match type of H with ?m s0 = _ => assert (K : keeps m_PathPoints m) end.
    { repeat first
        [ apply keeps_ret | apply keeps_get
        | apply GetCell_IsSolid_keeps; ignores_tac
        | apply GetCell_keeps; ignores_tac
        | apply ProcessCell_keeps; ignores_tac
        | apply keeps_modify; intros; reflexivity
        | apply keeps_bind; [|intros ?]
        | match goal with |- keeps _ (if ?b then _ else _) => destruct b end ]. }
    apply (K _ _ _ H). }
  assert (R0 := search_inv_init start goal). revert R0 H.
  generalize (cPath_init start goal). intros s0 R0 H.
  apply bind_Ok in H. destruct H as (? & ? & Hg & H).
  apply get_Ok in Hg. destruct Hg as [-> ->].
  apply bind_Ok in H. destruct H as (src & s1 & Hsrc & H).
  assert (R1 := GetCell_IsSolid_inv _ _ _ _ _ R0 Hsrc).
  apply bind_Ok in H. destruct H as (dst & s2 & Hdst & H).
  assert (R2 : search_inv s2).
  { destruct src.
    - apply ret_Ok in Hdst. destruct Hdst as [_ ->]. exact R1.
    - eapply GetCell_IsSolid_inv; eauto. }
  destruct dst.
  - apply bind_Ok in H. destruct H as (? & s3 & Hm & H). apply modify_Ok in Hm.
    apply ret_Ok in H. destruct H as [-> ->]. split.
    + subst s3. apply R2.
    + intros i a b. rewrite Hpp. discriminate.
  - apply bind_Ok in H. destruct H as (? & s3 & Hm & H). apply modify_Ok in Hm.
    apply bind_Ok in H. destruct H as (? & s4 & Hm' & H). apply modify_Ok in Hm'.
    apply bind_Ok in H. destruct H as (p & s5 & Hget & H).
    apply bind_Ok in H. destruct H as (? & s6 & Hpc & H).
    apply ret_Ok in H. destruct H as [-> ->].
    split; [|exact Hpp].
    eapply ProcessCell_seed_inv; [|exact Hpc].
    eapply GetCell_inv; [|exact Hget].
    subst s4 s3. eapply search_inv_ext; [..|exact R2]; reflexivity.
Qed.

Lemma search_finished depth fuel start goal budget st s :
  search W depth fuel start goal budget = Ok (st, s) -> finished s.
Proof.
  unfold search. intros H.
  destruct (cPath_new W depth start goal budget) as [[launched s0]|e] eqn:E;
    [|discriminate].
  apply cPath_new_run in E. destruct launched.
  - eapply Step_loop_run; eauto.
  - injection H as <- <-. exact E.
Qed.

End SearchInv.

(** ** Claims about the admission of neighbours *)




(** The gate of [ProcessIfWalkable], on the values it reads.  A call either
    stops at a failing check (the candidate read as solid, or the cell below
    it read as not solid, or the cell above it read as solid) and then
    leaves the open list as it was and writes to no cell but for the cache,
    or has read the candidate as not solid, the cell below as solid and the
    cell above as not solid and calls [ProcessCell].  In the trace of a
    whole search every call of [ProcessCell] with a caller comes right after
    the call of [ProcessIfWalkable] for the same candidate and its three
    passing reads, and every push onto the open list happens inside
    [ProcessCell].  The value of each read agrees with the world in the
    sense of [read_ok]. *)
Lemma walkable_gate_reads W :
  (forall depth loc par cost s u s1,
     ProcessIfWalkable W depth loc par cost s = Ok (u, s1) ->
     ProcessIfWalkable_result loc par cost s s1) /\
  (forall depth fuel start goal budget st s,
     search W depth fuel start goal budget = Ok (st, s) ->
     (forall pre cell p cost post,
        g_trace s = pre ++ EvProcess cell (Some p) cost :: post ->
        exists pre1, pre = pre1 ++ EvConsider cell p cost :: walk_reads cell) /\
     (forall pre cell post,
        g_trace s = pre ++ EvPush cell :: post ->
        exists pre1 caller cost, pre = pre1 ++ [EvProcess cell caller cost]) /\
     (forall loc solid, EvRead loc solid ∈ g_trace s -> read_ok W loc solid)).
Proof.
  split; [intros; eapply ProcessIfWalkable_spec; eauto|].
  intros depth fuel start goal budget st s H.
  destruct (search_finished W _ _ _ _ _ _ _ H) as [Hwf _].
  split; [|split; [|exact (search_reads_explained W _ _ _ _ _ _ _ H)]].
  - intros pre cell p cost post Ht. apply (Hwf _ _ _ Ht).
  - intros pre cell post Ht. apply (Hwf _ _ _ Ht).
Qed.

(** C4 (the code departs from the claim).  The flat floor with a fence post
    in the floor at (1,-1,1); a search from (0,0,0), whatever the heap does
    with ties.  The first call of [StepOnce] expands the start.  For the
    diagonal candidate (1,0,1) [ProcessIfWalkable] reads the candidate as
    not solid; its second read, of the cell below, makes [GetCell] resolve
    the fence, and [IsSolid] of the fence forces the candidate, which is the
    cell above it, solid; the read of the cell above comes out not solid and
    [ProcessCell] is called: the candidate is pushed onto the open list with
    [m_IsSolid] set.  The candidate has reached relaxation although its
    cell is solid when [ProcessCell] is entered. *)
Theorem C4_stale_read_admits_solid_cell (tie : cPath -> nat) :
  cell_after (with_tie tie fence_in_floor) 3 1
      (Vector3 0 0 0) (Vector3 4 0 4) 10 (Vector3 1 0 1) =
    Some (Cell.mk (Vector3 1 0 1) 56 14 42 OPENLIST (Some (Vector3 0 0 0)) true) /\
  last_events 6 (trace_after (with_tie tie fence_in_floor) 3 1
                   (Vector3 0 0 0) (Vector3 4 0 4) 10) =
    [EvConsider (Vector3 1 0 1) (Vector3 0 0 0) 14;
     EvRead (Vector3 1 0 1) false;
     EvRead (Vector3 1 (-1) 1) true;
     EvRead (Vector3 1 1 1) false;
     EvProcess (Vector3 1 0 1) (Some (Vector3 0 0 0)) 14;
     EvPush (Vector3 1 0 1)] /\
  solid_after (with_tie tie fence_in_floor) [Vector3 1 0 1; Vector3 1 (-1) 1]
      (Vector3 1 0 1) =
    Some (true, [Vector3 1 (-1) 1; Vector3 1 0 1]).
Proof. repeat split; vm_compute; reflexivity. Qed.

(** ** The constructor *)

Lemma prefix_of_app t s s1 ext :
  prefix_of t s -> g_trace s1 = g_trace s ++ ext -> prefix_of t s1.
Proof. intros (e0 & H0) H1. exists (e0 ++ ext). rewrite H1, H0, app_assoc. reflexivity. Qed.

Section Constructor.

Context (W : World).

Lemma ProcessIfWalkable_prefix t depth loc par cost :
  preserves (prefix_of t) (ProcessIfWalkable W depth loc par cost).
Proof.
  intros s u s1 Hp H. apply ProcessIfWalkable_spec in H.
  destruct H as [(reads & _ & Ht & _)|(s0 & Ht & _ & _ & _ & H)].
  - eapply prefix_of_app; eauto.
  - apply ProcessCell_trace in H.
    destruct H as [H|H]; (eapply prefix_of_app; [|exact H]); eapply prefix_of_app; eauto.
Qed.

Lemma diagonal_prefix t depth cur loc x z :
  preserves (prefix_of t) (diagonal W depth cur loc x z).
Proof.
  intros s u s1 Hp H. apply diagonal_spec in H.
  destruct H as [(reads & _ & Ht & _)|(s0 & Ht & _ & _ & _ & H)].
  - eapply prefix_of_app; eauto.
  - eapply ProcessIfWalkable_prefix; [|exact H]. eapply prefix_of_app; eauto.
Qed.

Lemma deref_prefix t p : preserves (prefix_of t) (deref p).
Proof. intros s c s1 Hp H. apply deref_Ok in H. destruct H as [_ ->]. exact Hp. Qed.

Lemma expand_prefix t depth cur : preserves (prefix_of t) (expand W depth cur).
Proof.
  unfold expand, expand_row.
  repeat first
    [ apply deref_prefix | apply ProcessIfWalkable_prefix | apply diagonal_prefix
    | apply preserves_for_each; intros ?
    | apply preserves_bind; [|intros ?] ].
Qed.

Lemma StepOnce_prefix t depth : preserves (prefix_of t) (StepOnce W depth).
Proof.
  intros s done s1 Hp H. unfold StepOnce in H.
  apply bind_Ok in H. destruct H as (? & s0 & H0 & H). apply modify_Ok in H0.
  assert (P0 : prefix_of t s0) by (subst s0; exact Hp). clear H0 Hp.
  apply bind_Ok in H. destruct H as (cur & s2 & Hpop & H).
  assert (P2 : prefix_of t s2).
  { apply OpenListPop_spec in Hpop.
    destruct Hpop as [(_ & _ & ->)|(p & l & c & _ & _ & _ & ->)]; [exact P0|].
    eapply prefix_of_app; [exact P0|reflexivity]. }
  clear Hpop P0. destruct cur as [cur|].
  2:{ unfold FinishCalculation, FinishCalculation0 in H. minv. exact P2. }
  apply bind_Ok in H. destruct H as (c & ? & Hd & H).
  apply deref_Ok in Hd. destruct Hd as [Hc ->].
  apply bind_Ok in H. destruct H as (? & ? & Hg & H).
  apply get_Ok in Hg. destruct Hg as [-> ->].
  destruct (at_goal _ _).
  - apply bind_Ok in H. destruct H as (? & s3 & Hcol & H).
    apply collect_path_spec in Hcol. destruct Hcol as (pts & -> & _).
    unfold FinishCalculation, FinishCalculation0 in H. minv. exact P2.
  - apply bind_Ok in H. destruct H as (? & s3 & Hexp & H).
    apply ret_Ok in H. destruct H as [-> ->].
    eapply expand_prefix; eauto.
Qed.

Lemma Step_loop_prefix t depth fuel : forall Step s st s1,
  prefix_of t s -> Step_loop W depth fuel Step s = Ok (st, s1) -> prefix_of t s1.
Proof.
  induction fuel as [|fuel IH]; intros Step s st s1 R H;
    rewrite Step_loop_unfold in H;
    destruct (in_int _); try discriminate;
    destruct (decide _).
  1,3: unfold FinishCalculation, FinishCalculation0 in H; minv; exact R.
  - discriminate.
  - apply bind_Ok in H. destruct H as (done & s2 & Hstep & H).
    assert (R2 := StepOnce_prefix t depth _ _ _ R Hstep). destruct done.
    + minv. exact R2.
    + apply bind_Ok in H. destruct H as (Step' & ? & Hi & H).
      apply int_of_Ok in Hi. destruct Hi as (-> & -> & _).
      eapply IH; eauto.
Qed.

(** The body of the constructor, decision by decision. *)
Lemma cPath_new_unfold depth start goal budget :
  cPath_new W depth start goal budget =
  match GetCell_IsSolid W depth start (cPath_init start goal) with
  | Err e => Err e
  | Ok (true, s1) => Ok (false, set_Status PATH_NOT_FOUND s1)
  | Ok (false, s1) =>
      match GetCell_IsSolid W depth goal s1 with
      | Err e => Err e
      | Ok (true, s2) => Ok (false, set_Status PATH_NOT_FOUND s2)
      | Ok (false, s2) =>
          (p ← GetCell W depth start; ProcessCell p None 0;; mret true)
            (set_StepsLeft budget (set_Status CALCULATING s2))
      end
  end.
Proof.
  unfold cPath_new, cPath_body. unfold mbind, M_bind, get.
  change (m_Source (cPath_init start goal)) with start.
  change (m_Destination (cPath_init start goal)) with goal.
  destruct (GetCell_IsSolid W depth start (cPath_init start goal)) as [[[] s1]|e];
    try reflexivity.
  destruct (GetCell_IsSolid W depth goal s1) as [[[] s2]|e]; reflexivity.
Qed.

Lemma GetCell_IsSolid_fields depth loc s b s1 :
  GetCell_IsSolid W depth loc s = Ok (b, s1) ->
  g_steps s1 = g_steps s /\ m_PathPoints s1 = m_PathPoints s /\
  m_Status s1 = m_Status s /\ m_StepsLeft s1 = m_StepsLeft s.
Proof.
  intros H. repeat split;
    [apply (GetCell_IsSolid_keeps W g_steps) in H
    |apply (GetCell_IsSolid_keeps W m_PathPoints) in H
    |apply (GetCell_IsSolid_keeps W m_Status) in H
    |apply (GetCell_IsSolid_keeps W m_StepsLeft) in H]; try ignores_tac; exact H.
Qed.

(** The state in which the constructor leaves the object when an endpoint
    was read as solid: nothing was started and nothing is left to do. *)
Lemma cPath_new_solid depth start goal budget s2 :
  cPath_new W depth start goal budget = Ok (false, set_Status PATH_NOT_FOUND s2) ->
  g_steps s2 = 0%nat -> m_OpenList s2 = [] -> m_PathPoints s2 = [] ->
  let s := set_Status PATH_NOT_FOUND s2 in
  m_Status s = PATH_NOT_FOUND /\ g_steps s = 0%nat /\ m_OpenList s = [] /\
  m_PathPoints s = [] /\
  forall fuel, search W depth fuel start goal budget = Ok (PATH_NOT_FOUND, s).
Proof.
  intros H H1 H2 H3. cbv zeta. simpl. repeat split; auto.
  intros fuel. unfold search. rewrite H. reflexivity.
Qed.

(** The outcome of the constructor, from the flag [src] that it reads from
    the cell of the start and the flag that it reads from the cell of the
    goal. *)
Lemma cPath_new_cases depth start goal budget src s1 :
  GetCell_IsSolid W depth start (cPath_init start goal) = Ok (src, s1) ->
  (forall s2,
     (src = true /\ s2 = s1) \/
     (src = false /\ GetCell_IsSolid W depth goal s1 = Ok (true, s2)) ->
     let s := set_Status PATH_NOT_FOUND s2 in
     cPath_new W depth start goal budget = Ok (false, s) /\
     m_Status s = PATH_NOT_FOUND /\ g_steps s = 0%nat /\ m_OpenList s = [] /\
     m_PathPoints s = [] /\
     forall fuel, search W depth fuel start goal budget = Ok (PATH_NOT_FOUND, s)) /\
  (forall launched s,
     cPath_new W depth start goal budget = Ok (launched, s) ->
     (m_Status s = CALCULATING <->
        src = false /\ exists s2, GetCell_IsSolid W depth goal s1 = Ok (false, s2)) /\
     (launched = true <-> m_Status s = CALCULATING) /\
     (m_Status s = CALCULATING \/ m_Status s = PATH_NOT_FOUND)).
Proof.
  intros Hsrc.
  assert (F1 := GetCell_IsSolid_fields _ _ _ _ _ Hsrc).
  assert (O1 : m_OpenList s1 = []).
  { apply GetCell_IsSolid_spec in Hsrc. destruct Hsrc as (_ & -> & _). reflexivity. }
  split.
  - intros s2 Hcase.
    assert (Hnew : cPath_new W depth start goal budget = Ok (false, set_Status PATH_NOT_FOUND s2)).
    { rewrite cPath_new_unfold, Hsrc.
      destruct Hcase as [[-> ->]|[-> Hdst]]; [reflexivity|]. rewrite Hdst. reflexivity. }
    split; [exact Hnew|]. apply cPath_new_solid; [exact Hnew|..].
    + destruct Hcase as [[_ ->]|[_ Hdst]]; [apply F1|].
      destruct (GetCell_IsSolid_fields _ _ _ _ _ Hdst) as (-> & _). apply F1.
    + destruct Hcase as [[_ ->]|[_ Hdst]]; [exact O1|].
      apply GetCell_IsSolid_spec in Hdst. destruct Hdst as (_ & -> & _). exact O1.
    + destruct Hcase as [[_ ->]|[_ Hdst]]; [apply F1|].
      destruct (GetCell_IsSolid_fields _ _ _ _ _ Hdst) as (_ & -> & _). apply F1.
  - intros launched s H. rewrite cPath_new_unfold, Hsrc in H.
    destruct src.
    { injection H as <- <-. simpl. split; [|split; [|auto]].
      - split; [discriminate|intros [? _]; discriminate].
      - split; discriminate. }
    destruct (GetCell_IsSolid W depth goal s1) as [[[] s2]|e] eqn:Hdst; [| |discriminate].
    { injection H as <- <-. simpl. split; [|split; [|auto]].
      - split; [discriminate|intros [_ [? ?]]; discriminate].
      - split; discriminate. }
    apply bind_Ok in H. destruct H as (p & s3 & Hget & H).
    apply bind_Ok in H. destruct H as (? & s4 & Hpc & H).
    apply ret_Ok in H. destruct H as [-> ->].
    assert (Hst : m_Status s4 = CALCULATING).
    { rewrite (ProcessCell_keeps m_Status ltac:(ignores_tac) ltac:(ignores_tac)
                 ltac:(ignores_tac) _ _ _ _ _ _ Hpc).
      rewrite (GetCell_keeps W m_Status ltac:(ignores_tac) ltac:(ignores_tac)
                 _ _ _ _ _ Hget). reflexivity. }
    rewrite Hst. split; [|split; [|auto]].
    + split; [eauto|reflexivity].
    + split; reflexivity.
Qed.


Lemma map_grows_empty m k c :
  map_grows ∅ m -> m !! k = Some c -> exists b, c = new_cell k b.
Proof. intros [_ Hn] Hk. apply (Hn _ _ Hk). apply lookup_empty. Qed.

(** The start cell after the two reads of the constructor came out clear. *)
Lemma start_cell_resolved depth start goal s1 s2 :
  GetCell_IsSolid W depth start (cPath_init start goal) = Ok (false, s1) ->
  GetCell_IsSolid W depth goal s1 = Ok (false, s2) ->
  g_trace s2 = [EvRead start false; EvRead goal false] /\
  m_OpenList s2 = [] /\ m_Destination s2 = goal /\
  exists b, m_Map s2 !! start = Some (new_cell start b).
Proof.
  intros H1 H2.
  assert (D1 := GetCell_IsSolid_keeps W m_Destination ltac:(ignores_tac)
                  ltac:(ignores_tac) ltac:(ignores_tac) _ _ _ _ _ H1).
  assert (D2 := GetCell_IsSolid_keeps W m_Destination ltac:(ignores_tac)
                  ltac:(ignores_tac) ltac:(ignores_tac) _ _ _ _ _ H2).
  apply GetCell_IsSolid_spec in H1. destruct H1 as (T1 & O1 & G1 & _ & c & Hc & Hsol).
  apply GetCell_IsSolid_spec in H2. destruct H2 as (T2 & O2 & G2 & _ & _).
  split; [rewrite T2, T1; reflexivity|]. split; [rewrite O2, O1; reflexivity|].
  split; [rewrite D2, D1; reflexivity|].
  destruct (map_grows_empty _ _ _ G1 Hc) as (b & ->).
  destruct (proj1 G2 _ _ Hc) as (c2 & Hc2 & [->| ->]); eauto.
Qed.

(** C10, amended.  When the constructor has read the start and the goal as
    not solid, whatever lies below or above the start, the object is in
    [CALCULATING], the background computation is started, the start is the
    only entry of the open list, and the constructor has made no read but
    those two before it called [ProcessCell] on the start.  The first call of
    [StepOnce] pops the start as the current cell, and unless the start is
    next to the goal it goes on to expand it. *)
Theorem C10_start_seeded_unchecked depth start goal budget s1 s2 launched s :
  GetCell_IsSolid W depth start (cPath_init start goal) = Ok (false, s1) ->
  GetCell_IsSolid W depth goal s1 = Ok (false, s2) ->
  cPath_new W depth start goal budget = Ok (launched, s) ->
  launched = true /\ m_Status s = CALCULATING /\ m_OpenList s = [start] /\
  g_trace s = [EvRead start false; EvRead goal false;
               EvProcess start None 0; EvPush start] /\
  (forall done s', StepOnce W depth s = Ok (done, s') ->
     exists rest, g_trace s' = g_trace s ++ EvPop start :: rest /\
       (at_goal goal start = false ->
        exists rest', rest = EvConsider (start +v Vector3 1 (-1) 0) start 10 :: rest')).
Proof.
  intros H1 H2 H.
  destruct (cPath_new_cases depth start goal budget false s1 H1) as [_ HC].
  destruct (HC _ _ H) as (Hcalc & Hlaunch & _).
  assert (Hst : m_Status s = CALCULATING) by (apply Hcalc; eauto).
  split; [apply Hlaunch; exact Hst|]. split; [exact Hst|].
  destruct (start_cell_resolved _ _ _ _ _ H1 H2) as (T2 & O2 & D2 & b & Hcell).
  rewrite cPath_new_unfold, H1, H2 in H.
  apply bind_Ok in H. destruct H as (p & s3 & Hget & H).
  rewrite (GetCell_present W start (new_cell start b)) in Hget by exact Hcell.
  injection Hget as <- <-.
  apply bind_Ok in H. destruct H as (? & s4 & Hpc & H).
  apply ret_Ok in H. destruct H as [-> ->].
  apply ProcessCell_spec in Hpc. destruct Hpc as (c & Hc & Hpc). cbv zeta in Hpc.
  simpl in Hc. rewrite Hcell in Hc. injection Hc as <-. simpl in Hpc.
  destruct Hpc as (g & -> & ->). simpl. rewrite T2, O2.
  split; [reflexivity|]. split; [reflexivity|].
  intros done s' Hstep. unfold StepOnce in Hstep.
  apply bind_Ok in Hstep. destruct Hstep as (? & s5 & Hm & Hstep).
  apply modify_Ok in Hm. subst s5.
  apply bind_Ok in Hstep. destruct Hstep as (cur & s6 & Hpop & Hstep).
  apply OpenListPop_spec in Hpop. simpl in Hpop.
  destruct Hpop as [(Hnil & _)|(p & l & c & Hol & -> & Hc & ->)]; [discriminate|].
  simpl in Hol. injection Hol as <- <-. rewrite !queue_top_single in *.
  simpl in Hc.
  rewrite lookup_insert_eq in Hc. injection Hc as <-. simpl in Hstep.
  apply bind_Ok in Hstep. destruct Hstep as (c & ? & Hd & Hstep).
  apply deref_Ok in Hd. destruct Hd as [Hc ->]. simpl in Hc.
  rewrite lookup_insert_eq in Hc. injection Hc as <-.
  apply bind_Ok in Hstep. destruct Hstep as (? & ? & Hg & Hstep).
  apply get_Ok in Hg. destruct Hg as [-> ->]. simpl in Hstep. rewrite D2 in Hstep.
  simpl.
  set (t := [EvRead start false; EvRead goal false; EvProcess start None 0;
             EvPush start; EvPop start]) in *.
  destruct (at_goal goal start).
  - apply bind_Ok in Hstep. destruct Hstep as (? & s7 & Hcol & Hstep).
    apply collect_path_spec in Hcol. destruct Hcol as (pts & -> & _).
    unfold FinishCalculation, FinishCalculation0 in Hstep. minv. simpl.
    exists []. split; [reflexivity|discriminate].
  - apply bind_Ok in Hstep. destruct Hstep as (? & s7 & Hexp & Hstep).
    apply ret_Ok in Hstep. destruct Hstep as [-> ->].
    unfold expand in Hexp. apply bind_Ok in Hexp. destruct Hexp as (? & s8 & Hrows & Hdiag).
    simpl for_each in Hrows. apply bind_Ok in Hrows. destruct Hrows as (? & s9 & Hrow & Hrows).
    unfold expand_row in Hrow.
    apply bind_Ok in Hrow. destruct Hrow as (c & ? & Hd & Hrow).
    apply deref_Ok in Hd. destruct Hd as [Hc ->]. simpl in Hc.
    rewrite lookup_insert_eq in Hc. injection Hc as <-. simpl in Hrow.
    apply bind_Ok in Hrow. destruct Hrow as (? & s10 & Hpiw & Hrow).
    set (t1 := t ++ [EvConsider (start +v Vector3 1 (-1) 0) start 10]).
    assert (P10 : prefix_of t1 s10).
    { apply ProcessIfWalkable_spec in Hpiw.
      destruct Hpiw as [(reads & _ & Ht & _)|(s0 & Ht & _ & _ & _ & Hpc)].
      - exists reads. rewrite Ht. unfold t1. simpl. reflexivity.
      - apply ProcessCell_trace in Hpc. simpl in Ht.
        unfold prefix_of.
        destruct Hpc as [Hpc|Hpc]; rewrite Hpc, Ht; unfold t1; simpl;
          rewrite <- ?app_assoc; simpl; eexists; reflexivity. }
    assert (P9 : prefix_of t1 s9).
    { revert Hrow.
      match goal with |- ?m s10 = _ -> _ =>
        assert (K : preserves (prefix_of t1) m)
      end.
      { repeat first
          [ apply deref_prefix | apply ProcessIfWalkable_prefix
          | apply preserves_bind; [|intros ?] ]. }
      intros Hrow. eapply K; eauto. }
    assert (P8 : prefix_of t1 s8).
    { revert Hrows.
      match goal with |- ?m s9 = _ -> _ =>
        assert (K : preserves (prefix_of t1) m)
      end.
      { unfold expand_row.
        repeat first
          [ apply deref_prefix | apply ProcessIfWalkable_prefix
          | apply hoare_skip; intros; assumption
          | apply preserves_bind; [|intros ?] ]. }
      intros Hrows. eapply K; eauto. }
    assert (P7 : prefix_of t1 s7).
    { revert Hdiag.
      match goal with |- ?m s8 = _ -> _ =>
        assert (K : preserves (prefix_of t1) m)
      end.
      { repeat first
          [ apply deref_prefix | apply diagonal_prefix
          | apply preserves_for_each; intros ?
          | apply preserves_bind; [|intros ?] ]. }
      intros Hdiag. eapply K; eauto. }
    destruct P7 as (ext & ->). unfold t1, t. simpl.
    eexists. split; [reflexivity|]. intros _. eexists. reflexivity.
Qed.

End Constructor.

(** ** The constructor on sample worlds *)


(** C10 as stated fails: on the flat floor a start at (0,5,0) is not solid
    and has no solid cell below it, and with the goal inside the floor the
    object is in [PATH_NOT_FOUND], not in [CALCULATING]. *)
Lemma C10_solid_goal_not_calculating :
  world_solid flat_floor (Vector3 0 5 0) = false /\
  world_solid flat_floor (Vector3 0 4 0) = false /\
  exists s,
    cPath_new flat_floor 5 (Vector3 0 5 0) (Vector3 3 (-1) 0) 10 = Ok (false, s) /\
    m_Status s = PATH_NOT_FOUND /\ m_Status s <> CALCULATING.
Proof.
  split; [reflexivity|]. split; [reflexivity|].
  eexists. split; [vm_compute; reflexivity|]. split; [reflexivity|discriminate].
Qed.

(** A start in mid-air, five cells above the flat floor: the search is
    entered in [CALCULATING] all the same, and the first step pops the start
    and goes on to its neighbours. *)
Lemma C10_start_seeded_unchecked_witness :
  world_solid flat_floor (Vector3 0 4 0) = false /\
  exists s,
    cPath_new flat_floor 5 (Vector3 0 5 0) (Vector3 3 0 0) 10 = Ok (true, s) /\
    m_Status s = CALCULATING /\ m_OpenList s = [Vector3 0 5 0] /\
    forall done s', StepOnce flat_floor 5 s = Ok (done, s') ->
      exists rest',
        g_trace s' = g_trace s ++
          EvPop (Vector3 0 5 0) ::
          EvConsider (Vector3 1 4 0) (Vector3 0 5 0) 10 :: rest'.
Proof.
  split; [reflexivity|].
  destruct (GetCell_IsSolid flat_floor 5 (Vector3 0 5 0)
              (cPath_init (Vector3 0 5 0) (Vector3 3 0 0))) as [[src s1]|e] eqn:E1;
    [|vm_compute in E1; discriminate].
  assert (Hsrc : src = false).
  { assert (E' := E1). vm_compute in E'. injection E' as <- _. reflexivity. }
  subst src.
  destruct (GetCell_IsSolid flat_floor 5 (Vector3 3 0 0) s1) as [[dst s2]|e] eqn:E2.
  2:{ exfalso. assert (E' := E1). vm_compute in E'. injection E' as <-.
      vm_compute in E2. discriminate. }
  assert (Hdst : dst = false).
  { assert (E' := E1). vm_compute in E'. injection E' as <-.
    vm_compute in E2. injection E2 as <- _. reflexivity. }
  subst dst.
  destruct (cPath_new flat_floor 5 (Vector3 0 5 0) (Vector3 3 0 0) 10)
    as [[launched s]|e] eqn:En; [|vm_compute in En; discriminate].
  destruct (C10_start_seeded_unchecked flat_floor 5 _ _ 10 _ _ _ _ E1 E2 En)
    as (-> & Hst & Hol & _ & Hstep).
  exists s. split; [reflexivity|]. split; [exact Hst|]. split; [exact Hol|].
  intros done s' H. destruct (Hstep _ _ H) as (rest & Ht & Hrest).
  destruct (Hrest eq_refl) as (rest' & ->). exists rest'. exact Ht.
Defined.

(** * Further properties of the member functions *)

(** ** More on the scheduler loop *)

Section SchedulerMore.

Context (W : World).

(** The counter of the loop starts at 1, which is no multiple of
    [CALCULATIONS_PER_STEP]. *)
Lemma five_times_ne_one n : 1 <> CALCULATIONS_PER_STEP * n.
Proof. unfold CALCULATIONS_PER_STEP. lia. Qed.

(** Every way out of the loop of [Step]. *)
Lemma Step_loop_final depth fuel : forall Step s st s1,
  Step_loop W depth fuel Step s = Ok (st, s1) ->
  st = m_Status s1 /\ (st = PATH_FOUND \/ st = PATH_NOT_FOUND) /\
  m_Map s1 = ∅ /\ m_OpenList s1 = [] /\
  (st = PATH_NOT_FOUND -> m_PathPoints s1 = m_PathPoints s) /\
  (g_steps s <= g_steps s1)%nat /\
  (Step <> CALCULATIONS_PER_STEP * m_StepsLeft s -> (g_steps s < g_steps s1)%nat).
Proof.
  induction fuel as [|fuel IH]; intros Step s st s1 H;
    rewrite Step_loop_unfold in H;
    destruct (in_int _); try discriminate;
    destruct (decide _) as [Heq|Hne].
  1,3: unfold FinishCalculation, FinishCalculation0 in H; minv; simpl;
       repeat split; auto; try lia; intros; congruence.
  - discriminate.
  - apply bind_Ok in H. destruct H as (done & s2 & Hstep & H).
    assert (Hsteps := StepOnce_steps _ _ _ _ _ Hstep).
    destruct done.
    + destruct (StepOnce_done _ _ _ _ Hstep) as (Hst & Hmap & Hopen).
      minv. rewrite Hsteps. split; [reflexivity|]. split; [tauto|].
      split; [assumption|]. split; [assumption|].
      split; [|split; [lia|intros; lia]].
      intros Hnf. destruct Hst as [Hst|[_ Hst]]; congruence.
    + apply bind_Ok in H. destruct H as (Step' & ? & Hi & H).
      apply int_of_Ok in Hi. destruct Hi as (-> & -> & _).
      destruct (IH _ _ _ _ H) as (Hs & Hf & Hm & Ho & Hp & Hn & _).
      rewrite Hsteps in Hn. repeat (split; [assumption|]).
      split; [|split; [lia|intros; lia]].
      intros Hnf. rewrite (Hp Hnf). apply (StepOnce_more _ _ _ _ Hstep).
Qed.

(** A bound of the loop that is not positive is never met. *)
Lemma Step_loop_no_cap depth fuel : forall Step s r,
  m_StepsLeft s <= 0 -> 1 <= Step ->
  Step_loop W depth fuel Step s = Ok r -> run_to_end W depth fuel s = Ok r.
Proof.
  induction fuel as [|fuel IH]; intros Step s r H0 HStep H;
    rewrite Step_loop_unfold in H;
    destruct (in_int _); try discriminate;
    (destruct (decide _) as [Heq|_]; [unfold CALCULATIONS_PER_STEP in Heq; lia|]);
    [discriminate|].
  cbn [run_to_end]. unfold mbind, M_bind in *.
  destruct (StepOnce W depth s) as [[done s1]|e] eqn:E; [|discriminate].
  destruct done; [exact H|].
  assert (H1 : m_StepsLeft s1 <= 0).
  { rewrite (StepOnce_StepsLeft _ _ _ _ _ E). exact H0. }
  unfold int_of in H. destruct (in_int (Step + 1)); [|discriminate].
  unfold mret, M_ret in H. apply (IH (Step + 1) s1 r H1); [lia|exact H].
Qed.

End SchedulerMore.

(** X1.  Whatever the budget and the state of the object, a call of [Step]
    that returns has called [StepOnce] at least once, returns the status
    that it has stored, which is [PATH_FOUND] or [PATH_NOT_FOUND], and has
    freed the cache and emptied the open list; with [PATH_NOT_FOUND] it has
    added no way point. *)
Theorem X1_Step_returns_final W depth fuel s st s1 :
  Step W depth fuel s = Ok (st, s1) ->
  st = m_Status s1 /\ (st = PATH_FOUND \/ st = PATH_NOT_FOUND) /\
  m_Map s1 = ∅ /\ m_OpenList s1 = [] /\
  (g_steps s < g_steps s1)%nat /\
  (st = PATH_NOT_FOUND -> m_PathPoints s1 = m_PathPoints s).
Proof.
  intros H. unfold Step in H.
  destruct (Step_loop_final W _ _ _ _ _ _ H) as (H1 & H2 & H3 & H4 & H5 & _ & H7).
  repeat (split; [assumption|]). split; [|exact H5].
  apply H7. apply five_times_ne_one.
Qed.

(** X2.  With a budget of [n >= 1] a call of [Step] that returns has called
    [StepOnce] at least once and at most [CALCULATIONS_PER_STEP * n - 1]
    times: the counter starts at 1 and the loop ends when it equals the
    bound. *)
Theorem X2_Step_positive_budget_steps W depth fuel s st s1 :
  1 <= m_StepsLeft s ->
  Step W depth fuel s = Ok (st, s1) ->
  (g_steps s < g_steps s1)%nat /\
  Z.of_nat (g_steps s1) - Z.of_nat (g_steps s) <= CALCULATIONS_PER_STEP * m_StepsLeft s - 1.
Proof.
  intros Hn H. split.
  - unfold Step in H. apply Step_loop_final in H.
    apply H. apply five_times_ne_one.
  - unfold Step in H.
    assert (HStep : 1 <= 1 <= CALCULATIONS_PER_STEP * m_StepsLeft s)
      by (unfold CALCULATIONS_PER_STEP; lia).
    destruct (Step_loop_cap W depth fuel 1 s st s1 HStep H) as (H1 & _). lia.
Qed.

Lemma X2_Step_positive_budget_steps_witness :
  exists s0 s1,
    cPath_new flat_floor 1 (Vector3 0 0 0) (Vector3 5 0 0) 1 = Ok (true, s0) /\
    Step flat_floor 1 4 s0 = Ok (PATH_NOT_FOUND, s1) /\
    g_steps s0 = 0%nat /\ g_steps s1 = 4%nat /\
    Z.of_nat (g_steps s1) - Z.of_nat (g_steps s0) <= CALCULATIONS_PER_STEP * m_StepsLeft s0 - 1.
Proof.
  destruct (cPath_new flat_floor 1 (Vector3 0 0 0) (Vector3 5 0 0) 1)
    as [[[] s0]|e] eqn:E0; try (vm_compute in E0; discriminate).
  destruct (Step flat_floor 1 4 s0) as [[st s1]|e] eqn:E1.
  2:{ exfalso. vm_compute in E0. injection E0 as <-. vm_compute in E1. discriminate. }
  assert (Hn : 1 <= m_StepsLeft s0).
  { vm_compute in E0. injection E0 as <-. simpl. lia. }
  exists s0, s1. split; [reflexivity|].
  assert (H := proj2 (X2_Step_positive_budget_steps flat_floor 1 4 s0 st s1 Hn E1)).
  assert (Hst : st = PATH_NOT_FOUND /\ g_steps s0 = 0%nat /\ g_steps s1 = 4%nat).
  { vm_compute in E0. injection E0 as <-. vm_compute in E1. injection E1 as <- <-.
    repeat split. }
  destruct Hst as (-> & G0 & G1). repeat split; assumption.
Defined.

Lemma X1_Step_returns_final_witness :
  exists s0 st s1,
    cPath_new flat_floor 5 (Vector3 0 0 0) (Vector3 5 0 0) 2 = Ok (true, s0) /\
    Step flat_floor 5 9 s0 = Ok (st, s1) /\
    m_Map s1 = ∅ /\ m_OpenList s1 = [] /\ (g_steps s0 < g_steps s1)%nat.
Proof.
  destruct (cPath_new flat_floor 5 (Vector3 0 0 0) (Vector3 5 0 0) 2)
    as [[[] s0]|e] eqn:E0; try (vm_compute in E0; discriminate).
  destruct (Step flat_floor 5 9 s0) as [[st s1]|e] eqn:E1.
  2:{ exfalso. vm_compute in E0. injection E0 as <-. vm_compute in E1. discriminate. }
  exists s0, st, s1. split; [reflexivity|]. split; [exact E1|].
  destruct (X1_Step_returns_final flat_floor 5 9 s0 st s1 E1) as (_ & _ & H3 & H4 & H5 & _).
  auto.
Defined.

(** X3.  A negative budget caps nothing: the bound of the loop is negative
    and the counter, which starts at 1 and grows, never meets it, so every
    result of [Step] is the result of calling [StepOnce] until it says that
    no more calculation is needed. *)
Theorem X3_negative_budget_never_capped W depth fuel s r :
  m_StepsLeft s < 0 ->
  Step W depth fuel s = Ok r -> run_to_end W depth fuel s = Ok r.
Proof.
  intros Hn H. unfold Step in H. eapply Step_loop_no_cap; [|reflexivity|exact H]. lia.
Qed.

Lemma X3_negative_budget_never_capped_witness :
  exists s0 s1,
    cPath_new flat_floor 5 (Vector3 0 0 0) (Vector3 5 0 0) (-1) = Ok (true, s0) /\
    m_StepsLeft s0 = -1 /\
    run_to_end flat_floor 5 5 s0 = Ok (PATH_FOUND, s1) /\ g_steps s1 = 5%nat.
Proof.
  destruct (cPath_new flat_floor 5 (Vector3 0 0 0) (Vector3 5 0 0) (-1))
    as [[[] s0]|e] eqn:E0; try (vm_compute in E0; discriminate).
  destruct (Step flat_floor 5 5 s0) as [[st s1]|e] eqn:E1.
  2:{ exfalso. vm_compute in E0. injection E0 as <-. vm_compute in E1. discriminate. }
  assert (Hn : m_StepsLeft s0 = -1).
  { vm_compute in E0. injection E0 as <-. reflexivity. }
  assert (Hst : st = PATH_FOUND /\ g_steps s1 = 5%nat).
  { vm_compute in E0. injection E0 as <-. vm_compute in E1. injection E1 as <- <-.
    split; reflexivity. }
  destruct Hst as [-> Hg].
  exists s0, s1. split; [reflexivity|]. split; [exact Hn|]. split; [|exact Hg].
  apply (X3_negative_budget_never_capped flat_floor 5 5 s0 (PATH_FOUND, s1)); [lia|exact E1].
Defined.

(** ** GetCell *)

Section GetCellMore.

Context (W : World).

Lemma vadd_up_ne loc : loc +v Vector3 0 1 0 <> loc.
Proof. destruct loc. unfold vadd. simpl. intros [=]. lia. Qed.

Lemma vadd_down_ne loc : loc +v Vector3 0 (-1) 0 <> loc.
Proof. destruct loc. unfold vadd. simpl. intros [=]. lia. Qed.

Lemma cell_upd_solid c c1 :
  cell_upd c c1 -> Cell.m_IsSolid c = true -> Cell.m_IsSolid c1 = true.
Proof. intros [->| ->]; auto. Qed.

Lemma map_grows_solid m m1 k c :
  map_grows m m1 -> m !! k = Some c -> Cell.m_IsSolid c = true ->
  exists c1, m1 !! k = Some c1 /\ Cell.m_IsSolid c1 = true.
Proof.
  intros [Ho _] Hk Hs. destruct (Ho _ _ Hk) as (c1 & Hk1 & U).
  exists c1. split; [exact Hk1|]. eapply cell_upd_solid; eauto.
Qed.

(** What the two side effects of [IsSolid] leave behind. *)
Lemma IsSolid_with_forces g loc s b s1 bt :
  GetCell_grows_post g -> GetBlock W loc = Some bt ->
  IsSolid_with W g loc s = Ok (b, s1) ->
  (bt = E_BLOCK_FENCE W \/ bt = E_BLOCK_FENCE_GATE W ->
   exists c, m_Map s1 !! (loc +v Vector3 0 1 0) = Some c /\ Cell.m_IsSolid c = true) /\
  (bt = E_BLOCK_STATIONARY_WATER W ->
   exists c, m_Map s1 !! (loc +v Vector3 0 (-1) 0) = Some c /\ Cell.m_IsSolid c = true).
Proof.
  intros Hg Eb H. unfold IsSolid_with in H. rewrite Eb in H.
  apply bind_Ok in H. destruct H as (? & s0 & H0 & H). apply modify_Ok in H0. clear H0.
  apply bind_Ok in H. destruct H as (? & sb & Hfence & H).
  apply bind_Ok in H. destruct H as (? & sc & Hwater & H).
  apply ret_Ok in H. destruct H as [_ ->].
  assert (Hforce : forall off s2 s3 u,
            (p ← g (loc +v off); store p (Cell.set_IsSolid true)) s2 = Ok (u, s3) ->
            map_grows (m_Map s2) (m_Map s3) /\
            exists c, m_Map s3 !! (loc +v off) = Some c /\ Cell.m_IsSolid c = true).
  { intros off s2 s3 u Hc.
    apply bind_Ok in Hc. destruct Hc as (q & s4 & Hget & Hst).
    destruct (Hg _ _ _ _ Hget) as (-> & G4 & _).
    apply store_Ok in Hst. destruct Hst as (c & Hc & ->). simpl. split.
    - eapply map_grows_trans; [exact G4|]. apply map_grows_force. exact Hc.
    - rewrite lookup_insert_eq. eauto. }
  split.
  - intros Hbt. revert Hfence.
    destruct (decide (bt = E_BLOCK_FENCE W \/ bt = E_BLOCK_FENCE_GATE W)) as [_|[]];
      [|exact Hbt]. intros Hfence.
    destruct (Hforce _ _ _ _ Hfence) as (_ & c & Hc & Hs).
    revert Hwater. destruct (decide (bt = E_BLOCK_STATIONARY_WATER W)); intros Hwater.
    + destruct (Hforce _ _ _ _ Hwater) as (G & _).
      eapply map_grows_solid; eauto.
    + apply skip_Ok in Hwater. subst sc. eauto.
  - intros Hbt. revert Hwater.
    destruct (decide (bt = E_BLOCK_STATIONARY_WATER W)) as [_|[]]; [|exact Hbt].
    intros Hwater. apply (Hforce _ _ _ _ Hwater).
Qed.

End GetCellMore.

(** X5.  [GetCell] returns the cell of the location it was asked for and
    that cell is in the map afterwards.  A cell that was in the map before
    the call is still there, unchanged or with [m_IsSolid] forced to true
    and nothing else changed; a cell that the call has added (the one asked
    for, or one created on behalf of a fence or of water) has its location,
    [m_F = m_G = m_H = 0], no parent and status [NOLIST]. *)
Theorem X5_GetCell_frame W depth loc s p s1 :
  GetCell W depth loc s = Ok (p, s1) ->
  p = loc /\ is_Some (m_Map s1 !! loc) /\
  (forall k c, m_Map s !! k = Some c ->
     m_Map s1 !! k = Some c \/ m_Map s1 !! k = Some (Cell.set_IsSolid true c)) /\
  (forall k c1, m_Map s !! k = None -> m_Map s1 !! k = Some c1 ->
     exists solid, c1 = Cell.mk k 0 0 0 NOLIST None solid).
Proof.
  intros H. destruct (GetCell_grows W depth _ _ _ _ H) as (-> & [Ho Hn] & Hin).
  split; [reflexivity|]. split; [exact Hin|]. split.
  - intros k c Hk. destruct (Ho _ _ Hk) as (c1 & Hk1 & [->| ->]); auto.
  - intros k c1 Hk Hk1. apply (Hn _ _ Hk1 Hk).
Qed.

(** X6.  For a location that has no cell yet and whose block is neither a
    fence, a fence gate nor stationary water (or that lies in no valid
    chunk), [GetCell] needs no nested call: it returns, has asked the oracle
    for this location only, and has added exactly one cell, whose flag is
    the solidity of the block (true where there is no valid chunk). *)
Theorem X6_GetCell_plain_block W depth loc s :
  m_Map s !! loc = None ->
  (forall bt, GetBlock W loc = Some bt ->
     bt <> E_BLOCK_FENCE W /\ bt <> E_BLOCK_FENCE_GATE W /\
     bt <> E_BLOCK_STATIONARY_WATER W) ->
  GetCell W (S depth) loc s =
    Ok (loc, set_Map (<[loc := Cell.mk loc 0 0 0 NOLIST None (world_solid W loc)]> (m_Map s))
               (set_oracle (loc :: g_oracle s) s)).
Proof.
  intros Hloc Hbt. cbn [GetCell]. unfold mbind at 1, M_bind at 1, get at 1.
  rewrite Hloc. unfold IsSolid_with, world_solid.
  destruct (GetBlock W loc) as [bt|].
  - destruct (Hbt bt eq_refl) as (H1 & H2 & H3).
    destruct (decide (bt = E_BLOCK_FENCE W \/ bt = E_BLOCK_FENCE_GATE W)) as [[?|?]|_];
      [contradiction..|].
    destruct (decide (bt = E_BLOCK_STATIONARY_WATER W)); [contradiction|].
    unfold mbind, M_bind, modify, skip, mret, M_ret, store. simpl.
    repeat (progress (rewrite ?lookup_insert_eq, ?insert_insert_eq; simpl)).
    reflexivity.
  - unfold mbind, M_bind, modify, skip, mret, M_ret, store. simpl.
    repeat (progress (rewrite ?lookup_insert_eq, ?insert_insert_eq; simpl)).
    reflexivity.
Qed.

(** X7.  When [GetCell] creates the cell of a fence or fence gate, the cell
    right above it is in the map with [m_IsSolid] set when the call returns;
    when it creates the cell of stationary water, the same holds for the
    cell right below. *)
Theorem X7_fresh_fence_forces_neighbour W depth loc s p s1 bt :
  m_Map s !! loc = None -> GetBlock W loc = Some bt ->
  GetCell W depth loc s = Ok (p, s1) ->
  (bt = E_BLOCK_FENCE W \/ bt = E_BLOCK_FENCE_GATE W ->
   exists c, m_Map s1 !! (loc +v Vector3 0 1 0) = Some c /\ Cell.m_IsSolid c = true) /\
  (bt = E_BLOCK_STATIONARY_WATER W ->
   exists c, m_Map s1 !! (loc +v Vector3 0 (-1) 0) = Some c /\ Cell.m_IsSolid c = true).
Proof.
  intros Hloc Eb H. destruct depth as [|depth]; simpl in H;
    apply bind_Ok in H; destruct H as (? & ? & Hg & H);
    apply get_Ok in Hg; destruct Hg as [-> ->]; rewrite Hloc in H;
    [destruct (fail_Ok _ _ _ H)|].
  apply bind_Ok in H. destruct H as (? & s2 & Hins & H). apply modify_Ok in Hins.
  apply bind_Ok in H. destruct H as (solid & s3 & Hsol & H).
  apply bind_Ok in H. destruct H as (? & s4 & Hst1 & H).
  apply bind_Ok in H. destruct H as (? & s5 & Hst2 & H).
  apply ret_Ok in H. destruct H as [-> ->].
  destruct (IsSolid_with_forces W _ _ _ _ _ _ (GetCell_grows W depth) Eb Hsol) as [Hf Hw].
  apply store_Ok in Hst1. destruct Hst1 as (c4 & Hc4 & ->).
  apply store_Ok in Hst2. destruct Hst2 as (c5 & Hc5 & ->). simpl.
  split; intros Hbt.
  - destruct (Hf Hbt) as (c & Hc & Hs). exists c.
    rewrite !lookup_insert_ne by (intros E; symmetry in E; exact (vadd_up_ne _ E)).
    auto.
  - destruct (Hw Hbt) as (c & Hc & Hs). exists c.
    rewrite !lookup_insert_ne by (intros E; symmetry in E; exact (vadd_down_ne _ E)).
    auto.
Qed.

Lemma X5_GetCell_frame_witness :
  exists p s1,
    GetCell water_on_fence 5 (Vector3 0 1 0) (cPath_init (Vector3 0 0 0) (Vector3 3 0 0))
      = Ok (p, s1) /\
    p = Vector3 0 1 0 /\ is_Some (m_Map s1 !! Vector3 0 1 0).
Proof.
  destruct (GetCell water_on_fence 5 (Vector3 0 1 0)
              (cPath_init (Vector3 0 0 0) (Vector3 3 0 0))) as [[p s1]|e] eqn:E;
    [|vm_compute in E; discriminate].
  exists p, s1. split; [reflexivity|].
  destruct (X5_GetCell_frame _ _ _ _ _ _ E) as (H1 & H2 & _). auto.
Defined.

Lemma X6_GetCell_plain_block_witness :
  GetCell flat_floor 1 (Vector3 2 (-1) 0) (cPath_init (Vector3 0 0 0) (Vector3 3 0 0)) =
    Ok (Vector3 2 (-1) 0,
        set_Map (<[Vector3 2 (-1) 0 := Cell.mk (Vector3 2 (-1) 0) 0 0 0 NOLIST None true]> ∅)
          (set_oracle [Vector3 2 (-1) 0] (cPath_init (Vector3 0 0 0) (Vector3 3 0 0)))).
Proof.
  apply (X6_GetCell_plain_block flat_floor 0 (Vector3 2 (-1) 0)
           (cPath_init (Vector3 0 0 0) (Vector3 3 0 0))).
  - reflexivity.
  - intros bt [= <-]. vm_compute. repeat split; discriminate.
Defined.

Lemma X7_fresh_fence_forces_neighbour_witness :
  exists p s1 c,
    GetCell water_on_fence 5 (Vector3 0 0 0) (cPath_init (Vector3 0 0 0) (Vector3 3 0 0))
      = Ok (p, s1) /\
    m_Map s1 !! Vector3 0 1 0 = Some c /\ Cell.m_IsSolid c = true.
Proof.
  destruct (GetCell water_on_fence 5 (Vector3 0 0 0)
              (cPath_init (Vector3 0 0 0) (Vector3 3 0 0))) as [[p s1]|e] eqn:E;
    [|vm_compute in E; discriminate].
  destruct (proj1 (X7_fresh_fence_forces_neighbour water_on_fence 5 (Vector3 0 0 0)
                     (cPath_init (Vector3 0 0 0) (Vector3 3 0 0)) p s1 FENCE
                     eq_refl eq_refl E)) as (c & Hc & Hs).
  - left. reflexivity.
  - exists p, s1, c. split; [reflexivity|]. split; assumption.
Defined.

(** ** The open list *)

Lemma remove_first_perm p : forall l, p ∈ l -> l ≡ₚ p :: remove_first p l.
Proof.
  induction l as [|q l IH]; intros Hin; [inversion Hin|]. simpl.
  destruct (decide (p = q)) as [->|Hne]; [reflexivity|].
  apply elem_of_cons in Hin. destruct Hin as [->|Hin]; [contradiction|].
  rewrite (IH Hin) at 1. apply Permutation_swap.
Qed.

(** X8.  [OpenListPop] returns null exactly on an empty open list and then
    changes nothing.  Otherwise it returns an entry whose [m_F] is least
    among the entries, removes that one entry and no other, and marks the
    cell [CLOSEDLIST]; no other cell is written. *)
Theorem X8_OpenListPop_least_F W s r s1 :
  OpenListPop W s = Ok (r, s1) ->
  match r with
  | None => m_OpenList s = [] /\ s1 = s
  | Some p =>
      m_OpenList s ≡ₚ p :: m_OpenList s1 /\
      (forall q, q ∈ m_OpenList s -> F_of (m_Map s) p <= F_of (m_Map s) q) /\
      exists c, m_Map s !! p = Some c /\
        m_Map s1 = <[p := Cell.set_Status CLOSEDLIST c]> (m_Map s)
  end.
Proof.
  intros H. apply OpenListPop_spec in H.
  destruct H as [(Hnil & -> & ->)|(p & l & c & Hol & -> & Hc & ->)]; [auto|].
  simpl. rewrite Hol. split; [|split].
  - apply remove_first_perm. apply queue_top_in.
  - intros q Hq. apply queue_top_least. exact Hq.
  - exists c. auto.
Qed.

Lemma X8_OpenListPop_least_F_witness :
  exists s0 p s1,
    cPath_new flat_floor 5 (Vector3 0 0 0) (Vector3 5 0 0) 2 = Ok (true, s0) /\
    OpenListPop flat_floor s0 = Ok (Some p, s1) /\
    m_OpenList s0 ≡ₚ p :: m_OpenList s1.
Proof.
  destruct (cPath_new flat_floor 5 (Vector3 0 0 0) (Vector3 5 0 0) 2)
    as [[[] s0]|e] eqn:E0; try (vm_compute in E0; discriminate).
  destruct (OpenListPop flat_floor s0) as [[[p|] s1]|e] eqn:E1.
  2,3: exfalso; vm_compute in E0; injection E0 as <-; vm_compute in E1; discriminate.
  exists s0, p, s1. split; [reflexivity|]. split; [exact E1|].
  apply (X8_OpenListPop_least_F flat_floor s0 (Some p) s1 E1).
Defined.

(** X9.  [ProcessCell] writes to no cell but [a_Cell], and never to its
    location or its [m_IsSolid].  A cell on the closed list is left as it
    is.  For a cell on the open list the caller is not null, [m_G] becomes
    the smaller of its old value and the caller's [m_G] plus [a_GDelta], the
    parent becomes the caller exactly when that lowers [m_G], and [m_F] and
    the open list are left as they are.  A cell on no list gets the caller
    as parent, the caller's [m_G] plus [a_GDelta] (0 for a null caller) as
    [m_G], [m_F = m_H + m_G] and status [OPENLIST], and is appended to the
    open list. *)
Theorem X9_ProcessCell_frame cell caller cost s u s1 :
  ProcessCell cell caller cost s = Ok (u, s1) ->
  (forall k, k <> cell -> m_Map s1 !! k = m_Map s !! k) /\
  exists c c1, m_Map s !! cell = Some c /\ m_Map s1 !! cell = Some c1 /\
    Cell.m_Location c1 = Cell.m_Location c /\ Cell.m_IsSolid c1 = Cell.m_IsSolid c /\
    match Cell.m_Status c with
    | CLOSEDLIST => c1 = c /\ m_OpenList s1 = m_OpenList s
    | OPENLIST =>
        Cell.m_F c1 = Cell.m_F c /\ Cell.m_Status c1 = OPENLIST /\
        m_OpenList s1 = m_OpenList s /\
        exists p cc, caller = Some p /\ m_Map s !! p = Some cc /\
          Cell.m_G c1 = Z.min (Cell.m_G c) (Cell.m_G cc + cost) /\
          Cell.m_Parent c1 =
            (if Cell.m_G cc + cost <? Cell.m_G c then Some p else Cell.m_Parent c)
    | NOLIST =>
        Cell.m_F c1 = Cell.m_H c1 + Cell.m_G c1 /\ Cell.m_Parent c1 = caller /\
        Cell.m_Status c1 = OPENLIST /\ m_OpenList s1 = m_OpenList s ++ [cell] /\
        match caller with
        | Some p => exists cc, m_Map s !! p = Some cc /\
                      Cell.m_G c1 = Cell.m_G cc + cost
        | None => Cell.m_G c1 = 0
        end
    end.
Proof.
  intros H. apply ProcessCell_spec in H. destruct H as (c & Hc & H). cbv zeta in H.
  destruct (Cell.m_Status c) eqn:Est.
  - destruct H as (p & cc & -> & Hcc & H).
    destruct (Cell.m_G cc + cost <? Cell.m_G c) eqn:Elt; subst s1; simpl.
    + pose proof Elt as Eb. apply Z.ltb_lt in Elt.
      split; [intros k Hk; apply lookup_insert_ne; auto|].
      eexists c, _. rewrite lookup_insert_eq. split; [exact Hc|]. split; [reflexivity|].
      rewrite Est. simpl. repeat split; auto.
      exists p, cc. rewrite Eb. repeat split; auto; lia.
    + pose proof Elt as Eb. apply Z.ltb_ge in Elt.
      split; [reflexivity|]. exists c, c. rewrite Est.
      repeat split; auto. exists p, cc. rewrite Eb. repeat split; auto; lia.
  - subst s1. simpl. split; [reflexivity|]. exists c, c. rewrite Est. repeat split; auto.
  - destruct H as (g & Hg & ->). simpl.
    split; [intros k Hk; apply lookup_insert_ne; auto|].
    eexists c, _. rewrite lookup_insert_eq. split; [exact Hc|]. split; [reflexivity|].
    rewrite Est. simpl. repeat split; auto.
Qed.

Lemma X9_ProcessCell_frame_witness :
  exists s0 s1 c1,
    GetCell flat_floor 5 (Vector3 0 0 0) (cPath_init (Vector3 0 0 0) (Vector3 3 0 0))
      = Ok (Vector3 0 0 0, s0) /\
    ProcessCell (Vector3 0 0 0) None 0 s0 = Ok (tt, s1) /\
    m_Map s1 !! Vector3 0 0 0 = Some c1 /\
    Cell.m_F c1 = Cell.m_H c1 + Cell.m_G c1 /\ m_OpenList s1 = [Vector3 0 0 0].
Proof.
  destruct (GetCell flat_floor 5 (Vector3 0 0 0)
              (cPath_init (Vector3 0 0 0) (Vector3 3 0 0))) as [[p s0]|e] eqn:E0;
    [|vm_compute in E0; discriminate].
  assert (Hp : p = Vector3 0 0 0) by (vm_compute in E0; congruence). subst p.
  destruct (ProcessCell (Vector3 0 0 0) None 0 s0) as [[[] s1]|e] eqn:E1.
  2:{ exfalso. vm_compute in E0. injection E0 as <-. vm_compute in E1. discriminate. }
  destruct (X9_ProcessCell_frame _ _ _ _ _ _ E1) as (_ & c & c1 & Hc & Hc1 & _ & _ & Hcase).
  assert (Hst : Cell.m_Status c = NOLIST /\ m_OpenList s0 = []).
  { vm_compute in E0. injection E0 as <-. vm_compute in Hc. injection Hc as <-.
    split; reflexivity. }
  destruct Hst as [Hst Hol]. rewrite Hst in Hcase.
  destruct Hcase as (HF & _ & _ & Hopen & _).
  exists s0, s1, c1. split; [reflexivity|]. split; [exact E1|]. split; [exact Hc1|].
  split; [exact HF|]. rewrite Hopen, Hol. reflexivity.
Defined.

(** ** The destructor *)

Section Destructor.

Context (W : World).

Lemma cPath_dtor_final s :
  m_Status s <> CALCULATING -> cPath_dtor s = Ok (tt, s).
Proof.
  intros H. unfold cPath_dtor, mbind, M_bind, get.
  destruct (decide (m_Status s = CALCULATING)); [contradiction|reflexivity].
Qed.

End Destructor.

(** X15.  When the constructor gives up because an endpoint is solid, the
    status is [PATH_NOT_FOUND] and the destructor, which frees the cells of
    an object in [CALCULATING] only, changes nothing: the cell that was
    created for the start is still in the map when the object is gone. *)
Theorem X15_rejected_endpoint_keeps_cells W depth start goal budget s :
  cPath_new W depth start goal budget = Ok (false, s) ->
  cPath_dtor s = Ok (tt, s) /\ m_Status s = PATH_NOT_FOUND /\
  is_Some (m_Map s !! start).
Proof.
  intros H.
  assert (Hst : m_Status s = PATH_NOT_FOUND /\ is_Some (m_Map s !! start)).
  { rewrite cPath_new_unfold in H.
    destruct (GetCell_IsSolid W depth start (cPath_init start goal))
      as [[src s1]|e] eqn:Hsrc; [|discriminate].
    assert (Hin : is_Some (m_Map s1 !! start)).
    { apply GetCell_IsSolid_spec in Hsrc. destruct Hsrc as (_ & _ & _ & _ & c & Hc & _).
      eauto. }
    destruct src; [injection H as <-; split; [reflexivity|exact Hin]|].
    destruct (GetCell_IsSolid W depth goal s1) as [[dst s2]|e] eqn:Hdst; [|discriminate].
    destruct dst.
    - injection H as <-. split; [reflexivity|]. simpl.
      apply GetCell_IsSolid_spec in Hdst. destruct Hdst as (_ & _ & [Ho _] & _).
      destruct Hin as [c Hc]. destruct (Ho _ _ Hc) as (c1 & Hc1 & _). eauto.
    - apply bind_Ok in H. destruct H as (p & s3 & Hget & H).
      apply bind_Ok in H. destruct H as (? & s4 & Hpc & H).
      apply ret_Ok in H. destruct H as [[=] _]. }
  destruct Hst as [Hst Hin]. split; [|split; assumption].
  apply cPath_dtor_final. rewrite Hst. discriminate.
Qed.

Lemma X15_rejected_endpoint_keeps_cells_witness :
  exists s,
    cPath_new flat_floor 5 (Vector3 0 (-1) 0) (Vector3 3 0 0) 10 = Ok (false, s) /\
    cPath_dtor s = Ok (tt, s) /\ is_Some (m_Map s !! Vector3 0 (-1) 0).
Proof.
  destruct (cPath_new flat_floor 5 (Vector3 0 (-1) 0) (Vector3 3 0 0) 10)
    as [[[] s]|e] eqn:E; try (vm_compute in E; discriminate).
  exists s. split; [reflexivity|].
  destruct (X15_rejected_endpoint_keeps_cells _ _ _ _ _ _ E) as (H1 & _ & H2). auto.
Defined.

Section Launched.

Context (W : World).

(** The object as the constructor leaves it when it has started the
    background computation. *)
Lemma cPath_new_launched depth start goal budget s :
  cPath_new W depth start goal budget = Ok (true, s) ->
  exists s2 b,
    g_trace s2 = [EvRead start false; EvRead goal false] /\
    m_OpenList s2 = [] /\ m_Destination s2 = goal /\
    m_PathPoints s2 = [] /\ g_steps s2 = 0%nat /\
    m_Map s2 !! start = Some (new_cell start b) /\
    s = set_trace [EvRead start false; EvRead goal false;
                   EvProcess start None 0; EvPush start]
          (set_OpenList [start]
             (set_Map (<[start := Cell.mk start (Length10 (vsub start goal) + 0) 0
                                    (Length10 (vsub start goal)) OPENLIST None b]>
                         (m_Map s2))
                (set_StepsLeft budget (set_Status CALCULATING s2)))).
Proof.
  intros H. rewrite cPath_new_unfold in H.
  destruct (GetCell_IsSolid W depth start (cPath_init start goal))
    as [[[] s1]|e] eqn:H1; try discriminate.
  destruct (GetCell_IsSolid W depth goal s1) as [[[] s2]|e] eqn:H2; try discriminate.
  destruct (start_cell_resolved W _ _ _ _ _ H1 H2) as (T2 & O2 & D2 & b & Hcell).
  destruct (GetCell_IsSolid_fields W _ _ _ _ _ H1) as (G1 & P1 & _).
  destruct (GetCell_IsSolid_fields W _ _ _ _ _ H2) as (G2 & P2 & _).
  exists s2, b. split; [exact T2|]. split; [exact O2|]. split; [exact D2|].
  split; [rewrite P2, P1; reflexivity|]. split; [rewrite G2, G1; reflexivity|].
  split; [exact Hcell|].
  apply bind_Ok in H. destruct H as (p & s3 & Hget & H).
  rewrite (GetCell_present W start (new_cell start b)) in Hget by exact Hcell.
  injection Hget as <- <-.
  apply bind_Ok in H. destruct H as (? & s4 & Hpc & H).
  apply ret_Ok in H. destruct H as [_ ->].
  apply ProcessCell_spec in Hpc. destruct Hpc as (c & Hc & Hpc). cbv zeta in Hpc.
  simpl in Hc. rewrite Hcell in Hc. injection Hc as <-. simpl in Hpc.
  destruct Hpc as (g & -> & ->). simpl. rewrite T2, O2, D2. reflexivity.
Qed.

End Launched.

(** X16.  Once [Step] has returned, from whatever state it was called, the
    status is [PATH_FOUND] or [PATH_NOT_FOUND] and the cache and the open
    list are empty, so the destructor, which frees the cells of an object in
    [CALCULATING] only, changes nothing: the cells were freed once, by
    [FinishCalculation], and are not freed again. *)
Theorem X16_destructor_after_Step W depth fuel s0 st s1 :
  Step W depth fuel s0 = Ok (st, s1) ->
  m_Status s1 <> CALCULATING /\ m_Map s1 = ∅ /\ m_OpenList s1 = [] /\
  cPath_dtor s1 = Ok (tt, s1).
Proof.
  intros HS. unfold Step in HS.
  destruct (Step_loop_final W _ _ _ _ _ _ HS) as (H1 & H2 & H3 & H4 & _).
  assert (Hst : m_Status s1 <> CALCULATING).
  { rewrite <- H1. destruct H2 as [-> | ->]; discriminate. }
  split; [exact Hst|]. split; [exact H3|]. split; [exact H4|].
  apply cPath_dtor_final. exact Hst.
Qed.

Lemma X16_destructor_after_Step_witness :
  exists s0 st s1,
    cPath_new flat_floor 5 (Vector3 0 0 0) (Vector3 5 0 0) 2 = Ok (true, s0) /\
    Step flat_floor 5 9 s0 = Ok (st, s1) /\
    m_Map s1 = ∅ /\ cPath_dtor s1 = Ok (tt, s1).
Proof.
  destruct (cPath_new flat_floor 5 (Vector3 0 0 0) (Vector3 5 0 0) 2)
    as [[[] s0]|e] eqn:E0; try (vm_compute in E0; discriminate E0).
  destruct (Step flat_floor 5 9 s0) as [[st s1]|e] eqn:E1.
  2:{ exfalso. vm_compute in E0. injection E0 as <-. vm_compute in E1.
      discriminate E1. }
  destruct (X16_destructor_after_Step flat_floor 5 9 s0 st s1 E1) as (_ & H1 & _ & H2).
  exists s0, st, s1. split; [reflexivity|]. split; [exact E1|]. auto.
Defined.

(** X17.  When the start is one of the five places next to the goal, both
    are not solid and the bound of the loop fits an [int], the first call of
    [StepOnce] ends the search: [Step] returns [PATH_FOUND] and the path is
    the start alone. *)
Theorem X17_start_next_to_goal W depth fuel start goal budget s0 :
  cPath_new W depth start goal budget = Ok (true, s0) ->
  at_goal goal start = true ->
  in_int (CALCULATIONS_PER_STEP * budget) = true ->
  exists s1, Step W depth (S fuel) s0 = Ok (PATH_FOUND, s1) /\
    m_PathPoints s1 = [start] /\ g_steps s1 = 1%nat.
Proof.
  intros H Hgoal Hint.
  assert (Hd : exists d, depth = S d).
  { destruct depth as [|d]; [|eauto]. rewrite cPath_new_unfold in H. discriminate. }
  destruct Hd as (d & ->).
  destruct (cPath_new_launched W _ _ _ _ _ H) as (s2 & b & T2 & O2 & D2 & P2 & G2 & Hcell & ->).
  unfold Step. rewrite Step_loop_unfold. simpl m_StepsLeft. rewrite Hint.
  destruct (decide (1 = CALCULATIONS_PER_STEP * budget)) as [E|_];
    [destruct (five_times_ne_one _ E)|].
  unfold StepOnce, OpenListPop, FinishCalculation, FinishCalculation0, log.
  unfold mbind, M_bind, mret, M_ret, modify, get, store, deref. simpl.
  rewrite !queue_top_single. simpl.
  destruct (decide (start = start)) as [_|[]]; [|reflexivity]. simpl.
  repeat (progress (rewrite ?lookup_insert_eq, ?insert_insert_eq; simpl)).
  rewrite D2, Hgoal. simpl.
  unfold mbind, M_bind, mret, M_ret, modify, get, store, deref, skip. simpl.
  repeat (progress (rewrite ?lookup_insert_eq, ?insert_insert_eq; simpl)).
  eexists. split; [reflexivity|]. simpl. rewrite P2, G2. auto.
Qed.

Lemma X17_start_next_to_goal_witness :
  exists s0 s1,
    cPath_new flat_floor 5 (Vector3 0 0 0) (Vector3 1 0 0) 1 = Ok (true, s0) /\
    Step flat_floor 5 1 s0 = Ok (PATH_FOUND, s1) /\
    m_PathPoints s1 = [Vector3 0 0 0].
Proof.
  destruct (cPath_new flat_floor 5 (Vector3 0 0 0) (Vector3 1 0 0) 1)
    as [[[] s0]|e] eqn:E0; try (vm_compute in E0; discriminate).
  destruct (X17_start_next_to_goal flat_floor 5 0 _ _ _ s0 E0 eq_refl eq_refl)
    as (s1 & H1 & H2 & _).
  exists s0, s1. split; [reflexivity|]. auto.
Defined.

(** ** The discipline of the open and the closed list *)

Lemma status_of_Some m k st :
  status_of m k = Some st <-> exists c, m !! k = Some c /\ Cell.m_Status c = st.
Proof.
  unfold status_of. destruct (m !! k) as [c|]; simpl; split.
  - intros [= <-]. eauto.
  - intros (c0 & [= <-] & <-). reflexivity.
  - discriminate.
  - intros (c0 & [=] & _).
Qed.

Lemma status_of_insert m k j c :
  status_of (<[j := c]> m) k =
  if decide (j = k) then Some (Cell.m_Status c) else status_of m k.
Proof.
  unfold status_of. rewrite lookup_insert. destruct (decide (j = k)); reflexivity.
Qed.

Lemma pushes_app t ext : pushes (t ++ ext) = pushes t ++ pushes ext.
Proof. apply omap_app. Qed.

Lemma pops_app t ext : pops (t ++ ext) = pops t ++ pops ext.
Proof. apply omap_app. Qed.

Lemma rooted_kept m m1 src : closed_kept m m1 ->
  forall n k, rooted m src n k -> rooted m1 src n k.
Proof.
  intros Hk. induction n as [|n IH]; intros k; simpl;
    destruct (m !! k) as [c|] eqn:E; try tauto; intros [Hst Hp];
    destruct (Hk _ _ E Hst) as (c1 & -> & Hst1 & Hp1); rewrite Hp1;
    (split; [exact Hst1|]); destruct (Cell.m_Parent c); auto.
Qed.

Lemma rooted_closed m src n k : rooted m src n k -> status_of m k = Some CLOSEDLIST.
Proof.
  destruct n; simpl; destruct (m !! k) as [c|] eqn:E; try tauto;
    intros [Hst _]; apply status_of_Some; eauto.
Qed.

Lemma rooted_fun m src : forall n n' k, rooted m src n k -> rooted m src n' k -> n = n'.
Proof.
  induction n as [|n IH]; intros [|n'] k; simpl;
    destruct (m !! k) as [c|]; try tauto;
    destruct (Cell.m_Parent c); try tauto.
  intros [_ H1] [_ H2]. f_equal. eapply IH; eauto.
Qed.

Lemma lists_same_closed_kept m m1 : lists_same m m1 -> closed_kept m m1.
Proof.
  intros [Hf _] k c Hc Hst. destruct (Hf _ _ Hc) as (c1 & H1 & H2 & H3).
  exists c1. rewrite H2. auto.
Qed.

Lemma lists_same_status m m1 k st :
  lists_same m m1 -> st <> NOLIST ->
  (status_of m1 k = Some st <-> status_of m k = Some st).
Proof.
  intros [Hf Hb] Hst. rewrite !status_of_Some. split.
  - intros (c1 & Hc1 & E). destruct (Hb _ _ Hc1 ltac:(congruence)) as (c & Hc & E1 & _).
    exists c. split; [exact Hc|congruence].
  - intros (c & Hc & E). destruct (Hf _ _ Hc) as (c1 & Hc1 & E1 & _).
    exists c1. split; [exact Hc1|congruence].
Qed.

Lemma map_grows_lists_same m m1 : map_grows m m1 -> lists_same m m1.
Proof.
  intros [Ho Hn]. split.
  - intros k c Hc. destruct (Ho _ _ Hc) as (c1 & Hc1 & [->| ->]); eauto.
  - intros k c1 Hc1 Hst. destruct (m !! k) as [c|] eqn:E.
    + destruct (Ho _ _ E) as (c1' & Hc1' & U).
      assert (c1' = c1) by congruence. subst c1'.
      exists c. split; [reflexivity|]. destruct U as [->| ->]; auto.
    + destruct (Hn _ _ Hc1 E) as (b & ->). simpl in Hst. congruence.
Qed.

Lemma lists_inv_same src s s1 :
  lists_inv src s -> lists_same (m_Map s) (m_Map s1) ->
  m_OpenList s1 = m_OpenList s ->
  pushes (g_trace s1) = pushes (g_trace s) -> pops (g_trace s1) = pops (g_trace s) ->
  lists_inv src s1.
Proof.
  intros (L1 & L2 & L3 & L4 & L5 & L6 & L7 & L8) Hs Ho Hpu Hpo.
  assert (Hk := lists_same_closed_kept _ _ Hs).
  assert (Hst : forall k st, st <> NOLIST ->
            (status_of (m_Map s1) k = Some st <-> status_of (m_Map s) k = Some st)).
  { intros k st. apply lists_same_status. exact Hs. }
  rewrite <- Ho, <- Hpu, <- Hpo in *.
  split; [exact L1|]. split; [intros k; rewrite Hst by discriminate; apply L2|].
  split.
  { intros k Hc. apply Hst in Hc; [|discriminate]. destruct (L3 _ Hc) as (n & Hn).
    exists n. eapply rooted_kept; eauto. }
  split.
  { intros k c1 Hc1 Hopen. destruct Hs as [_ Hb].
    destruct (Hb _ _ Hc1 ltac:(congruence)) as (c & Hc & E1 & E2).
    assert (H := L4 _ _ Hc ltac:(congruence)). unfold open_ok in *. rewrite <- E2.
    destruct (Cell.m_Parent c); [|exact H]. destruct H as (n & Hn).
    exists n. eapply rooted_kept; eauto. }
  split; [exact L5|]. split; [exact L6|].
  split; intros k; rewrite !Hst by discriminate; auto.
Qed.

Lemma closed_kept_insert m cell c c' :
  m !! cell = Some c -> Cell.m_Status c <> CLOSEDLIST ->
  closed_kept m (<[cell := c']> m).
Proof.
  intros Hc Hst k c0 Hk Hst0. exists c0.
  rewrite lookup_insert_ne; [auto|]. intros ->. congruence.
Qed.

Lemma open_ok_kept m m1 src k c :
  closed_kept m m1 -> open_ok m src k c -> open_ok m1 src k c.
Proof.
  unfold open_ok. intros Hk. destruct (Cell.m_Parent c); [|auto].
  intros (n & Hn). exists n. eapply rooted_kept; eauto.
Qed.

Lemma lists_push src s cell c c' caller cost :
  lists_inv src s -> m_Map s !! cell = Some c -> Cell.m_Status c = NOLIST ->
  Cell.m_Status c' = OPENLIST -> open_ok (m_Map s) src cell c' ->
  lists_inv src
    (set_trace (g_trace s ++ [EvProcess cell caller cost; EvPush cell])
       (set_OpenList (m_OpenList s ++ [cell])
          (set_Map (<[cell := c']> (m_Map s)) s))).
Proof.
  intros (L1 & L2 & L3 & L4 & L5 & L6 & L7 & L8) Hc Hst Hst' Hok.
  assert (Hk : closed_kept (m_Map s) (<[cell := c']> (m_Map s))).
  { eapply closed_kept_insert; [exact Hc|congruence]. }
  assert (Hcell : status_of (m_Map s) cell = Some NOLIST).
  { apply status_of_Some. eauto. }
  unfold lists_inv. simpl. rewrite pushes_app, pops_app. simpl. rewrite app_nil_r.
  split.
  { apply NoDup_app. split; [exact L1|]. split; [|apply NoDup_singleton].
    intros k Hk1 Hk2. apply list_elem_of_singleton in Hk2. subst k.
    apply L2 in Hk1. congruence. }
  split.
  { intros k. rewrite elem_of_app, list_elem_of_singleton, status_of_insert.
    destruct (decide (cell = k)) as [<-|Hne].
    - rewrite Hst'. tauto.
    - rewrite L2. split; [intros [H|H]; [exact H|congruence]|auto]. }
  split.
  { intros k. rewrite status_of_insert. destruct (decide (cell = k)) as [<-|Hne].
    - rewrite Hst'. discriminate.
    - intros H. destruct (L3 _ H) as (n & Hn). exists n. eapply rooted_kept; eauto. }
  split.
  { intros k c0. rewrite lookup_insert. destruct (decide (cell = k)) as [<-|Hne].
    - intros [= <-] _. eapply open_ok_kept; eauto.
    - intros Hk0 Hopen. eapply open_ok_kept; eauto. }
  split.
  { apply NoDup_app. split; [exact L5|]. split; [|apply NoDup_singleton].
    intros k Hk1 Hk2. apply list_elem_of_singleton in Hk2. subst k.
    apply L7 in Hk1. destruct Hk1; congruence. }
  split; [exact L6|]. split.
  { intros k. rewrite elem_of_app, list_elem_of_singleton, status_of_insert.
    destruct (decide (cell = k)) as [<-|Hne].
    - rewrite Hst'. tauto.
    - rewrite L7. split; [intros [H|H]; [exact H|congruence]|auto]. }
  intros k. rewrite status_of_insert. destruct (decide (cell = k)) as [<-|Hne].
  - rewrite Hst', L8, Hcell. split; discriminate.
  - apply L8.
Qed.

Lemma lists_relax src s cell c c' e :
  lists_inv src s -> m_Map s !! cell = Some c -> Cell.m_Status c = OPENLIST ->
  Cell.m_Status c' = OPENLIST -> open_ok (m_Map s) src cell c' ->
  pushes [e] = [] -> pops [e] = [] ->
  lists_inv src
    (set_Map (<[cell := c']> (m_Map s)) (set_trace (g_trace s ++ [e]) s)).
Proof.
  intros (L1 & L2 & L3 & L4 & L5 & L6 & L7 & L8) Hc Hst Hst' Hok Hpu Hpo.
  assert (Hk : closed_kept (m_Map s) (<[cell := c']> (m_Map s))).
  { eapply closed_kept_insert; [exact Hc|congruence]. }
  assert (Hcell : status_of (m_Map s) cell = Some OPENLIST).
  { apply status_of_Some. eauto. }
  assert (Hsame : forall k, status_of (<[cell := c']> (m_Map s)) k = status_of (m_Map s) k).
  { intros k. rewrite status_of_insert. destruct (decide (cell = k)) as [<-|Hne];
      [congruence|reflexivity]. }
  unfold lists_inv. simpl. rewrite pushes_app, pops_app, Hpu, Hpo, !app_nil_r.
  split; [exact L1|]. split; [intros k; rewrite Hsame; apply L2|].
  split.
  { intros k. rewrite Hsame. intros H. destruct (L3 _ H) as (n & Hn).
    exists n. eapply rooted_kept; eauto. }
  split.
  { intros k c0. rewrite lookup_insert. destruct (decide (cell = k)) as [<-|Hne].
    - intros [= <-] _. eapply open_ok_kept; eauto.
    - intros Hk0 Hopen. eapply open_ok_kept; eauto. }
  split; [exact L5|]. split; [exact L6|].
  split; intros k; rewrite !Hsame; auto.
Qed.

Lemma lists_pop src s p l c :
  lists_inv src s -> m_OpenList s = l -> p ∈ l -> m_Map s !! p = Some c ->
  lists_inv src
    (set_trace (g_trace s ++ [EvPop p])
       (set_Map (<[p := Cell.set_Status CLOSEDLIST c]> (m_Map s))
          (set_OpenList (remove_first p l) s))).
Proof.
  intros (L1 & L2 & L3 & L4 & L5 & L6 & L7 & L8) <- Hin Hc.
  assert (Hopen : Cell.m_Status c = OPENLIST).
  { apply L2 in Hin. apply status_of_Some in Hin. destruct Hin as (c0 & E & Hst).
    congruence. }
  assert (Hcell : status_of (m_Map s) p = Some OPENLIST).
  { apply status_of_Some. eauto. }
  set (m1 := <[p := Cell.set_Status CLOSEDLIST c]> (m_Map s)).
  assert (Hk : closed_kept (m_Map s) m1).
  { eapply closed_kept_insert; [exact Hc|congruence]. }
  assert (Hperm := remove_first_perm p _ Hin).
  assert (Hnd : NoDup (p :: remove_first p (m_OpenList s))) by (rewrite <- Hperm; exact L1).
  assert (Hmem : forall k, k ∈ m_OpenList s <-> k = p \/ k ∈ remove_first p (m_OpenList s)).
  { intros k. rewrite <- elem_of_cons. revert Hperm.
    generalize (remove_first p (m_OpenList s)). intros rf ->. reflexivity. }
  clear Hperm.
  apply NoDup_cons in Hnd. destruct Hnd as [Hnotin Hnd].
  unfold lists_inv. simpl. rewrite pushes_app, pops_app. simpl. rewrite app_nil_r.
  fold m1.
  split; [exact Hnd|]. split.
  { intros k. unfold m1. rewrite status_of_insert.
    destruct (decide (p = k)) as [<-|Hne].
    - simpl. split; [contradiction|discriminate].
    - rewrite <- L2, Hmem. split; [auto|intros [H|H]; [congruence|exact H]]. }
  split.
  { intros k. unfold m1 at 1. rewrite status_of_insert.
    destruct (decide (p = k)) as [<-|Hne].
    - intros _. assert (Hok := L4 _ _ Hc Hopen). unfold open_ok in Hok.
      destruct (Cell.m_Parent c) as [q|] eqn:Ep.
      + destruct Hok as (n & Hn). exists (S n). simpl. unfold m1 at 1.
        rewrite lookup_insert_eq. simpl. rewrite Ep. split; [reflexivity|].
        eapply rooted_kept; eauto.
      + exists O. simpl. unfold m1. rewrite lookup_insert_eq. simpl. rewrite Ep. auto.
    - intros H. destruct (L3 _ H) as (n & Hn). exists n. eapply rooted_kept; eauto. }
  split.
  { intros k c0. unfold m1 at 1. rewrite lookup_insert.
    destruct (decide (p = k)) as [<-|Hne].
    - intros [= <-]. simpl. discriminate.
    - intros Hk0 Ho. eapply open_ok_kept; eauto. }
  split; [exact L5|]. split.
  { apply NoDup_app. split; [exact L6|]. split; [|apply NoDup_singleton].
    intros k Hk1 Hk2. apply list_elem_of_singleton in Hk2. subst k.
    apply L8 in Hk1. congruence. }
  split.
  { intros k. unfold m1. rewrite status_of_insert.
    destruct (decide (p = k)) as [<-|Hne].
    - simpl. rewrite L7. tauto.
    - apply L7. }
  intros k. unfold m1. rewrite elem_of_app, list_elem_of_singleton, status_of_insert.
  destruct (decide (p = k)) as [<-|Hne].
  - simpl. tauto.
  - rewrite L8. split; [intros [H|H]; [exact H|congruence]|auto].
Qed.

Section Lists.

Context (W : World) (src : Vector3i).

Lemma lists_inv_grows s s1 ext :
  lists_inv src s -> map_grows (m_Map s) (m_Map s1) ->
  m_OpenList s1 = m_OpenList s -> g_trace s1 = g_trace s ++ ext ->
  pushes ext = [] -> pops ext = [] -> lists_inv src s1.
Proof.
  intros L Hg Ho Ht Hpu Hpo.
  eapply lists_inv_same; [exact L|apply map_grows_lists_same; exact Hg|exact Ho|..].
  - rewrite Ht, pushes_app, Hpu, app_nil_r. reflexivity.
  - rewrite Ht, pops_app, Hpo, app_nil_r. reflexivity.
Qed.

Lemma is_closed_kept s s1 k :
  closed_kept (m_Map s) (m_Map s1) -> is_closed s k -> is_closed s1 k.
Proof.
  unfold is_closed. rewrite !status_of_Some. intros Hk (c & Hc & Hst).
  destruct (Hk _ _ Hc Hst) as (c1 & Hc1 & Hst1 & _). eauto.
Qed.

Lemma closed_kept_refl m : closed_kept m m.
Proof. intros k c Hc Hst. eauto. Qed.

Lemma closed_kept_grows m m1 : map_grows m m1 -> closed_kept m m1.
Proof. intros H. apply lists_same_closed_kept, map_grows_lists_same, H. Qed.

Lemma expanding_grows cur s s1 ext :
  expanding src cur s -> map_grows (m_Map s) (m_Map s1) ->
  m_OpenList s1 = m_OpenList s -> g_trace s1 = g_trace s ++ ext ->
  pushes ext = [] -> pops ext = [] -> expanding src cur s1.
Proof.
  intros [L C] Hg Ho Ht Hpu Hpo. split; [eapply lists_inv_grows; eauto|].
  eapply is_closed_kept; [apply closed_kept_grows; exact Hg|exact C].
Qed.

Lemma ProcessCell_lists cell caller cost s u s1 :
  lists_inv src s ->
  match caller with Some p => is_closed s p | None => cell = src end ->
  ProcessCell cell caller cost s = Ok (u, s1) ->
  lists_inv src s1 /\ closed_kept (m_Map s) (m_Map s1).
Proof.
  intros L Hcaller H. apply ProcessCell_spec in H. destruct H as (c & Hc & H).
  cbv zeta in H.
  assert (Hlog : lists_inv src (set_trace (g_trace s ++ [EvProcess cell caller cost]) s)).
  { eapply (lists_inv_grows s _ [EvProcess cell caller cost]);
      [exact L|apply map_grows_refl|reflexivity..]. }
  assert (Hok : forall c', Cell.m_Parent c' = caller -> open_ok (m_Map s) src cell c').
  { intros c' Hp. unfold open_ok. rewrite Hp. destruct caller as [p|]; [|exact Hcaller].
    apply L. exact Hcaller. }
  destruct (Cell.m_Status c) eqn:Est.
  - destruct H as (p & cc & -> & Hcc & H).
    destruct (Cell.m_G cc + cost <? Cell.m_G c); subst s1.
    + split; [|simpl; eapply closed_kept_insert; [exact Hc|congruence]].
      eapply lists_relax; try exact Hc; try reflexivity; auto.
    + split; [exact Hlog|apply closed_kept_refl].
  - subst s1. split; [exact Hlog|apply closed_kept_refl].
  - destruct H as (g & _ & ->).
    split; [|simpl; eapply closed_kept_insert; [exact Hc|congruence]].
    eapply lists_push; try exact Hc; auto.
Qed.

Lemma GetCell_IsSolid_expanding depth cur loc :
  preserves (expanding src cur) (GetCell_IsSolid W depth loc).
Proof.
  intros s b s1 E H. apply GetCell_IsSolid_spec in H.
  destruct H as (Ht & Ho & Hg & _).
  eapply expanding_grows; eauto.
Qed.

Lemma GetCell_IsSolid_lists depth loc :
  preserves (lists_inv src) (GetCell_IsSolid W depth loc).
Proof.
  intros s b s1 E H. apply GetCell_IsSolid_spec in H.
  destruct H as (Ht & Ho & Hg & _).
  eapply lists_inv_grows; eauto.
Qed.

Lemma GetCell_lists depth loc : preserves (lists_inv src) (GetCell W depth loc).
Proof.
  intros s p s1 L H.
  eapply (lists_inv_grows s s1 []); [exact L| | | |reflexivity..].
  - apply (GetCell_grows W depth _ _ _ _ H).
  - eapply GetCell_OpenList; exact H.
  - rewrite app_nil_r. eapply GetCell_trace; exact H.
Qed.

Lemma ProcessIfWalkable_expanding depth cur loc cost :
  preserves (expanding src cur) (ProcessIfWalkable W depth loc cur cost).
Proof.
  intros s u s1 E H. apply ProcessIfWalkable_spec in H.
  destruct H as [(reads & Hr & Ht & Ho & Hg)|(s0 & Ht & Ho & Hg & _ & H)].
  - eapply expanding_grows; eauto;
      destruct Hr as [->|[->| ->]]; reflexivity.
  - assert (E0 : expanding src cur s0).
    { eapply expanding_grows; eauto; reflexivity. }
    destruct E0 as [L0 C0].
    destruct (ProcessCell_lists loc (Some cur) cost _ _ _ L0 C0 H) as [L1 K1].
    split; [exact L1|]. eapply is_closed_kept; eauto.
Qed.

Lemma diagonal_expanding depth cur loc x z :
  preserves (expanding src cur) (diagonal W depth cur loc x z).
Proof.
  intros s u s1 E H. apply diagonal_spec in H.
  destruct H as [(reads & Hr & Ht & Ho & Hg)|(s0 & Ht & Ho & Hg & _ & H)].
  - eapply expanding_grows; eauto;
      destruct Hr as [->|[->|[->| ->]]]; reflexivity.
  - eapply ProcessIfWalkable_expanding; [|exact H].
    eapply expanding_grows; eauto; reflexivity.
Qed.

Lemma deref_preserves I p : preserves I (deref p).
Proof. intros s c s1 HI H. apply deref_Ok in H. destruct H as [_ ->]. exact HI. Qed.

Lemma expand_expanding depth cur : preserves (expanding src cur) (expand W depth cur).
Proof.
  unfold expand, expand_row.
  repeat first
    [ apply deref_preserves | apply ProcessIfWalkable_expanding
    | apply diagonal_expanding
    | apply preserves_for_each; intros ?
    | apply preserves_bind; [|intros ?] ].
Qed.

Lemma OpenListPop_lists :
  hoare (lists_inv src) (OpenListPop W)
    (fun r s1 => lists_inv src s1 /\
       match r with Some p => is_closed s1 p | None => m_OpenList s1 = [] end).
Proof.
  intros s r s1 L H. apply OpenListPop_spec in H.
  destruct H as [(Hnil & -> & ->)|(p & l & c & Hol & -> & Hc & ->)]; [auto|].
  split.
  - eapply lists_pop; [exact L|exact Hol|apply queue_top_in|exact Hc].
  - unfold is_closed. simpl. rewrite status_of_insert.
    destruct (decide _); [reflexivity|contradiction].
Qed.

Lemma lists_inv_done s s1 :
  lists_inv src s -> g_trace s1 = g_trace s -> lists_done s1.
Proof.
  intros (_ & _ & _ & _ & L5 & L6 & L7 & L8) Ht. unfold lists_done. rewrite Ht.
  split; [exact L5|].
  split; [exact L6|]. intros k Hk. apply L7. right. apply L8. exact Hk.
Qed.

Lemma chain_rooted m :
  (forall k c, m !! k = Some c -> Cell.m_Location c = k) ->
  forall n cur pts, rooted m src n cur -> chain m cur pts ->
    head pts = Some cur /\ last pts = Some src /\
    forall i a, pts !! i = Some a -> (i <= n)%nat /\ rooted m src (n - i) a.
Proof.
  intros Hloc. induction n as [|n IH]; intros cur pts Hr Hch;
    (destruct pts as [|a0 rest]; [destruct Hch|]);
    assert (Hhead := chain_head _ _ _ _ Hloc Hch); subst a0;
    assert (Hr0 := Hr);
    destruct Hch as (c & Hc & _ & Hpar); simpl in Hr; rewrite Hc in Hr;
    destruct Hr as [Hst Hr]; destruct (Cell.m_Parent c) as [p|]; try tauto.
  - subst rest cur. split; [reflexivity|]. split; [reflexivity|].
    intros [|i] a; simpl; [|discriminate]. intros [= <-]. split; [lia|exact Hr0].
  - destruct (IH _ _ Hr Hpar) as (Hh & Hl & Hi).
    split; [reflexivity|]. split.
    + destruct rest; [discriminate|]. exact Hl.
    + intros [|i] a; simpl.
      * intros [= <-]. split; [lia|exact Hr0].
      * intros Ha. destruct (Hi _ _ Ha). split; [lia|assumption].
Qed.

Lemma chain_NoDup m n cur pts :
  (forall k c, m !! k = Some c -> Cell.m_Location c = k) ->
  rooted m src n cur -> chain m cur pts -> NoDup pts.
Proof.
  intros Hloc Hr Hch. destruct (chain_rooted m Hloc _ _ _ Hr Hch) as (_ & _ & Hi).
  apply NoDup_alt. intros i j a Ha Hb.
  destruct (Hi _ _ Ha) as [Hin Hri]. destruct (Hi _ _ Hb) as [Hjn Hrj].
  assert (E := rooted_fun _ _ _ _ _ Hri Hrj). lia.
Qed.

Lemma StepOnce_lists depth dest :
  hoare (searching src dest) (StepOnce W depth)
    (fun done s1 => if done : bool then search_done src dest s1
                    else searching src dest s1).
Proof.
  intros s done s1 (R & L & D) H.
  assert (Hrun := StepOnce_run W depth _ _ _ R H).
  assert (Hdest : m_Destination s1 = dest).
  { rewrite <- D. revert H. apply (StepOnce_keeps W m_Destination);
      ignores_tac || (intros ? ?; reflexivity). }
  unfold StepOnce in H.
  apply bind_Ok in H. destruct H as (? & s0 & H0 & H). apply modify_Ok in H0.
  assert (L0 : lists_inv src s0) by (subst s0; exact L).
  assert (R0 : running s0).
  { subst s0. destruct R as [Inv Hpp]. split; [|exact Hpp].
    eapply search_inv_ext; [..|exact Inv]; reflexivity. }
  assert (D0 : m_Destination s0 = dest) by (subst s0; exact D).
  clear H0 L R D.
  apply bind_Ok in H. destruct H as (cur & s2 & Hpop & H).
  assert (R2 : running s2).
  { split; [eapply OpenListPop_inv; [apply R0|exact Hpop]|].
    rewrite (OpenListPop_keeps W m_PathPoints ltac:(ignores_tac) ltac:(ignores_tac)
               ltac:(ignores_tac) _ _ _ Hpop). apply R0. }
  assert (D2 : m_Destination s2 = dest).
  { rewrite (OpenListPop_keeps W m_Destination ltac:(ignores_tac) ltac:(ignores_tac)
               ltac:(ignores_tac) _ _ _ Hpop). exact D0. }
  destruct (OpenListPop_lists _ _ _ L0 Hpop) as [L2 Hcur].
  clear Hpop R0 L0 D0. destruct cur as [cur|].
  2:{ unfold FinishCalculation, FinishCalculation0 in H. minv.
      split; [eapply lists_inv_done; [exact L2|reflexivity]|].
      split; simpl; [rewrite (proj2 R2); apply NoDup_nil_2|apply R2]. }
  apply bind_Ok in H. destruct H as (c & ? & Hd & H).
  apply deref_Ok in Hd. destruct Hd as [Hc ->].
  apply bind_Ok in H. destruct H as (? & ? & Hg & H).
  apply get_Ok in Hg. destruct Hg as [-> ->].
  destruct (at_goal _ _) eqn:Eg.
  - clear Hdest Hrun. subst dest.
    apply bind_Ok in H. destruct H as (? & s3 & Hcol & H).
    apply collect_path_spec in Hcol. destruct Hcol as (pts & -> & Hch).
    unfold FinishCalculation, FinishCalculation0 in H. minv.
    destruct R2 as [(Hcache & _ & _) Hpp].
    assert (Hloc := proj2 (proj2 Hcache)).
    destruct (proj1 (proj2 (proj2 L2)) _ Hcur) as (n & Hn).
    destruct (chain_rooted _ Hloc _ _ _ Hn Hch) as (Hh & Hl & _).
    split; [eapply lists_inv_done; [exact L2|reflexivity]|].
    split; simpl; rewrite Hpp; simpl.
    + eapply chain_NoDup; eauto.
    + exists cur. split; [exact Hh|]. split; [|exact Hl].
      rewrite <- (Hloc _ _ Hc). exact Eg.
  - apply bind_Ok in H. destruct H as (? & s3 & Hexp & H).
    apply ret_Ok in H. destruct H as [-> ->].
    split; [exact Hrun|]. split; [|exact Hdest].
    eapply expand_expanding; [|exact Hexp]. split; assumption.
Qed.

Lemma searching_done dest s s1 :
  searching src dest s -> g_trace s1 = g_trace s ->
  m_PathPoints s1 = m_PathPoints s -> m_Status s1 = PATH_NOT_FOUND ->
  search_done src dest s1.
Proof.
  intros ([_ Hpp] & L & _) Ht Hp Hst.
  split; [eapply lists_inv_done; eauto|].
  split; [rewrite Hp, Hpp; apply NoDup_nil_2|]. rewrite Hst, Hp. exact Hpp.
Qed.

Lemma Step_loop_lists depth dest fuel : forall Step s st s1,
  searching src dest s -> Step_loop W depth fuel Step s = Ok (st, s1) ->
  search_done src dest s1.
Proof.
  induction fuel as [|fuel IH]; intros Step s st s1 R H;
    rewrite Step_loop_unfold in H;
    destruct (in_int _); try discriminate;
    destruct (decide _).
  1,3: unfold FinishCalculation, FinishCalculation0 in H; minv;
       eapply searching_done; [exact R|reflexivity..].
  - discriminate.
  - apply bind_Ok in H. destruct H as (done & s2 & Hstep & H).
    assert (R2 := StepOnce_lists depth dest _ _ _ R Hstep). destruct done.
    + minv. exact R2.
    + apply bind_Ok in H. destruct H as (Step' & ? & Hi & H).
      apply int_of_Ok in Hi. destruct Hi as (-> & -> & _).
      eapply IH; eauto.
Qed.

End Lists.

Section SearchLists.

Context (W : World).

Lemma lists_inv_init start goal : lists_inv start (cPath_init start goal).
Proof.
  assert (Hs : forall k, status_of ∅ k = None).
  { intros k. unfold status_of. rewrite lookup_empty. reflexivity. }
  unfold lists_inv. simpl.
  split; [apply NoDup_nil_2|].
  split; [intros k; rewrite Hs; split; [intros H; inversion H|discriminate]|].
  split; [intros k; rewrite Hs; discriminate|].
  split; [intros k c; rewrite lookup_empty; discriminate|].
  split; [apply NoDup_nil_2|]. split; [apply NoDup_nil_2|].
  split; intros k; rewrite Hs;
    (split; [intros H; inversion H|try intros [?|?]; discriminate]).
Qed.

Lemma lists_inv_ext src s s1 :
  m_Map s1 = m_Map s -> m_OpenList s1 = m_OpenList s -> g_trace s1 = g_trace s ->
  lists_inv src s -> lists_inv src s1.
Proof. unfold lists_inv. intros -> -> ->. auto. Qed.

Lemma cPath_new_lists depth start goal budget launched s :
  cPath_new W depth start goal budget = Ok (launched, s) ->
  if launched : bool then searching start goal s
  else search_done start goal s /\ m_Status s = PATH_NOT_FOUND.
Proof.
  intros H. assert (Hrun := cPath_new_run W _ _ _ _ _ _ H).
  destruct launched.
  - split; [exact Hrun|].
    assert (Hdest : m_Destination s = goal).
    { destruct (cPath_new_launched W _ _ _ _ _ H) as (s2 & b & _ & _ & D2 & _ & _ & _ & ->).
      exact D2. }
    split; [|exact Hdest].
    rewrite cPath_new_unfold in H.
    destruct (GetCell_IsSolid W depth start (cPath_init start goal))
      as [[[] s1]|e] eqn:H1; try discriminate.
    destruct (GetCell_IsSolid W depth goal s1) as [[[] s2]|e] eqn:H2; try discriminate.
    assert (L1 := GetCell_IsSolid_lists W start _ _ _ _ _ (lists_inv_init start goal) H1).
    assert (L2 := GetCell_IsSolid_lists W start _ _ _ _ _ L1 H2).
    apply bind_Ok in H. destruct H as (p & s3 & Hget & H).
    apply bind_Ok in H. destruct H as (? & s4 & Hpc & H).
    apply ret_Ok in H. destruct H as [_ ->].
    assert (Hp : p = start) by (apply (GetCell_grows W depth _ _ _ _ Hget)). subst p.
    assert (L3 : lists_inv start s3).
    { eapply GetCell_lists; [|exact Hget].
      eapply lists_inv_ext; [..|exact L2]; reflexivity. }
    apply (ProcessCell_lists start start None 0 _ _ _ L3 eq_refl Hpc).
  - assert (Hs : exists s1, lists_inv start s1 /\ m_PathPoints s1 = [] /\
                   s = set_Status PATH_NOT_FOUND s1).
    { rewrite cPath_new_unfold in H.
      destruct (GetCell_IsSolid W depth start (cPath_init start goal))
        as [[src s1]|e] eqn:H1; [|discriminate].
      assert (L1 := GetCell_IsSolid_lists W start _ _ _ _ _ (lists_inv_init start goal) H1).
      destruct (GetCell_IsSolid_fields W _ _ _ _ _ H1) as (_ & P1 & _).
      destruct src; [injection H as <-; eauto|].
      destruct (GetCell_IsSolid W depth goal s1) as [[dst s2]|e] eqn:H2; [|discriminate].
      assert (L2 := GetCell_IsSolid_lists W start _ _ _ _ _ L1 H2).
      destruct (GetCell_IsSolid_fields W _ _ _ _ _ H2) as (_ & P2 & _).
      destruct dst.
      - injection H as <-. exists s2. rewrite P2, P1. auto.
      - apply bind_Ok in H. destruct H as (p & s3 & Hget & H).
        apply bind_Ok in H. destruct H as (? & s4 & Hpc & H).
        apply ret_Ok in H. destruct H as [[=] _]. }
    destruct Hs as (s1 & L1 & P1 & ->). split; [|reflexivity].
    split; [eapply lists_inv_done; [exact L1|reflexivity]|].
    split; simpl; [rewrite P1; apply NoDup_nil_2|exact P1].
Qed.

Lemma search_lists depth fuel start goal budget st s :
  search W depth fuel start goal budget = Ok (st, s) ->
  search_done start goal s /\ st = m_Status s /\
  (st = PATH_FOUND \/ st = PATH_NOT_FOUND).
Proof.
  unfold search. intros H.
  destruct (cPath_new W depth start goal budget) as [[launched s0]|e] eqn:E;
    [|discriminate].
  apply cPath_new_lists in E. destruct launched.
  - split; [eapply Step_loop_lists; eauto|].
    destruct (Step_loop_final W _ _ _ _ _ _ H) as (H1 & H2 & _). auto.
  - injection H as <- <-. destruct E as [E ->]. auto.
Qed.

(** The reads of the constructor stay in the trace. *)
Lemma search_found_reads depth fuel start goal budget s :
  search W depth fuel start goal budget = Ok (PATH_FOUND, s) ->
  EvRead start false ∈ g_trace s /\ EvRead goal false ∈ g_trace s.
Proof.
  unfold search. intros H.
  destruct (cPath_new W depth start goal budget) as [[launched s0]|e] eqn:E;
    [|discriminate].
  destruct launched.
  - destruct (cPath_new_launched W _ _ _ _ _ E) as (s2 & b & _ & _ & _ & _ & _ & _ & Hs).
    assert (P0 : prefix_of [EvRead start false; EvRead goal false] s0).
    { subst s0. simpl. exists [EvProcess start None 0; EvPush start]. reflexivity. }
    destruct (Step_loop_prefix W _ _ _ _ _ _ _ P0 H) as (ext & ->).
    split; apply elem_of_app; left; [left|right; left].
  - apply cPath_new_lists in E. destruct E as [_ E]. injection H as H <-. congruence.
Qed.

End SearchLists.

Lemma at_goal_ne dest loc : at_goal dest loc = true -> loc <> dest.
Proof.
  unfold at_goal, goal_offsets. intros H ->. apply bool_decide_eq_true in H.
  rewrite !Exists_cons, Exists_nil in H. destruct dest as [x y z].
  unfold vadd in H. simpl in H.
  destruct H as [H|[H|[H|[H|[H|[]]]]]]; injection H; lia.
Qed.

(** X10.  A search ends with [PATH_FOUND] or [PATH_NOT_FOUND].  With
    [PATH_FOUND] the path is not empty, its first way point is one of the
    five places next to the goal (so not the goal itself) and its last way
    point is the start; with [PATH_NOT_FOUND] there are no way points.  The world
    [W] is arbitrary, and with it the entry that the heap has on top among
    entries of equal [m_F]. *)
Theorem X10_found_path_ends W depth fuel start goal budget st s :
  search W depth fuel start goal budget = Ok (st, s) ->
  match st with
  | PATH_FOUND =>
      exists first, head (m_PathPoints s) = Some first /\
        at_goal goal first = true /\ first <> goal /\
        last (m_PathPoints s) = Some start
  | PATH_NOT_FOUND => m_PathPoints s = []
  | CALCULATING => False
  end.
Proof.
  intros H. destruct (search_lists W _ _ _ _ _ _ _ H) as ((_ & _ & Hp) & -> & Hst).
  destruct (m_Status s); [destruct Hst; discriminate| |exact Hp].
  destruct Hp as (first & H1 & H2 & H3). exists first.
  split; [exact H1|]. split; [exact H2|]. split; [apply at_goal_ne; exact H2|exact H3].
Qed.

Lemma X10_found_path_ends_witness :
  exists s first,
    search flat_floor 5 5 (Vector3 0 0 0) (Vector3 5 0 0) 2 = Ok (PATH_FOUND, s) /\
    head (m_PathPoints s) = Some first /\ at_goal (Vector3 5 0 0) first = true /\
    last (m_PathPoints s) = Some (Vector3 0 0 0).
Proof.
  destruct (search flat_floor 5 5 (Vector3 0 0 0) (Vector3 5 0 0) 2)
    as [[st s]|e] eqn:E; [|vm_compute in E; discriminate].
  assert (Hst : st = PATH_FOUND) by (vm_compute in E; congruence). subst st.
  destruct (X10_found_path_ends _ _ _ _ _ _ _ _ E) as (first & H1 & H2 & _ & H3).
  exists s, first. auto.
Defined.

(** X13.  No location occurs twice among the way points of a search.  The world
    [W] is arbitrary, and with it the entry that the heap has on top among
    entries of equal [m_F]. *)
Theorem X13_way_points_distinct W depth fuel start goal budget st s :
  search W depth fuel start goal budget = Ok (st, s) ->
  NoDup (m_PathPoints s).
Proof.
  intros H. destruct (search_lists W _ _ _ _ _ _ _ H) as ((_ & Hnd & _) & _). exact Hnd.
Qed.

Lemma X13_way_points_distinct_witness :
  exists s,
    search flat_floor 5 5 (Vector3 0 0 0) (Vector3 5 0 0) 2 = Ok (PATH_FOUND, s) /\
    length (m_PathPoints s) = 5%nat /\ NoDup (m_PathPoints s).
Proof.
  destruct (search flat_floor 5 5 (Vector3 0 0 0) (Vector3 5 0 0) 2)
    as [[st s]|e] eqn:E; [|vm_compute in E; discriminate].
  assert (Hst : st = PATH_FOUND /\ length (m_PathPoints s) = 5%nat).
  { vm_compute in E. injection E as <- <-. split; reflexivity. }
  destruct Hst as [-> Hlen].
  exists s. split; [reflexivity|]. split; [exact Hlen|].
  apply (X13_way_points_distinct _ _ _ _ _ _ _ _ E).
Defined.

(** X14.  In a search no cell is pushed onto the open list twice, no cell
    is popped twice, and every cell that was popped had been pushed.  The world
    [W] is arbitrary, and with it the entry that the heap has on top among
    entries of equal [m_F]. *)
Theorem X14_pushed_and_popped_once W depth fuel start goal budget st s :
  search W depth fuel start goal budget = Ok (st, s) ->
  NoDup (pushes (g_trace s)) /\ NoDup (pops (g_trace s)) /\
  (forall k, k ∈ pops (g_trace s) -> k ∈ pushes (g_trace s)).
Proof.
  intros H. destruct (search_lists W _ _ _ _ _ _ _ H) as ((Hd & _) & _). exact Hd.
Qed.

Lemma X14_pushed_and_popped_once_witness :
  exists s,
    search flat_floor 5 5 (Vector3 0 0 0) (Vector3 5 0 0) 2 = Ok (PATH_FOUND, s) /\
    length (pops (g_trace s)) = 5%nat /\ NoDup (pops (g_trace s)).
Proof.
  destruct (search flat_floor 5 5 (Vector3 0 0 0) (Vector3 5 0 0) 2)
    as [[st s]|e] eqn:E; [|vm_compute in E; discriminate].
  assert (Hst : st = PATH_FOUND /\ length (pops (g_trace s)) = 5%nat).
  { vm_compute in E. injection E as <- <-. split; reflexivity. }
  destruct Hst as [-> Hlen].
  exists s. split; [reflexivity|]. split; [exact Hlen|].
  apply (X14_pushed_and_popped_once _ _ _ _ _ _ _ _ E).
Defined.

Section PathMoves.

Context (W : World).

(** What the trace holds for each move of a reported path. *)
Lemma path_move_logged depth fuel start goal budget st s i a b :
  search W depth fuel start goal budget = Ok (st, s) ->
  m_PathPoints s !! i = Some a -> m_PathPoints s !! S i = Some b ->
  exists pre cost post,
    g_trace s = pre ++ EvConsider a b cost :: walk_reads a ++
                EvProcess a (Some b) cost :: post /\
    justified pre (EvConsider a b cost).
Proof.
  intros H Ha Hb.
  destruct (search_finished W _ _ _ _ _ _ _ H) as [Hwf Hpath].
  destruct (Hpath _ _ _ Ha Hb) as (cost & Hin).
  apply list_elem_of_split in Hin. destruct Hin as (pre & post & Ht).
  destruct (Hwf _ _ _ Ht) as (pre1 & Hpre). simpl in Hpre.
  assert (Ht1 : g_trace s = pre1 ++ EvConsider a b cost ::
                  (walk_reads a ++ EvProcess a (Some b) cost :: post)).
  { rewrite Ht, Hpre, <- app_assoc. reflexivity. }
  exists pre1, cost, post. split; [exact Ht1|]. apply (Hwf _ _ _ Ht1).
Qed.

End PathMoves.

(** X11.  Every move of a reported path, from a way point [b] to the way
    point [a] stored before it, is one of the sixteen neighbour steps of the
    expansion: one unit along x or z with a change of height of at most one,
    or one unit along both at the same height.  The world
    [W] is arbitrary, and with it the entry that the heap has on top among
    entries of equal [m_F]. *)
Theorem X11_moves_are_neighbour_steps W depth fuel start goal budget st s i a b :
  search W depth fuel start goal budget = Ok (st, s) ->
  m_PathPoints s !! i = Some a -> m_PathPoints s !! S i = Some b ->
  exists off, a = b +v off /\
    (orthogonal off \/ exists x z, is_unit x /\ is_unit z /\ off = Vector3 x 0 z).
Proof.
  intros H Ha Hb.
  destruct (path_move_logged W _ _ _ _ _ _ _ _ _ _ H Ha Hb) as (pre & cost & post & _ & Hj).
  simpl in Hj. destruct Hj as [(_ & off & Hoff & ->)|(_ & x & z & Hx & Hz & -> & _)].
  - exists off. auto.
  - exists (Vector3 x 0 z). split; [reflexivity|]. right. eauto.
Qed.

Lemma X11_moves_are_neighbour_steps_witness :
  exists s off,
    search flat_floor 5 5 (Vector3 0 0 0) (Vector3 2 0 1) 2 = Ok (PATH_FOUND, s) /\
    m_PathPoints s = [Vector3 1 0 1; Vector3 0 0 0] /\
    Vector3 1 0 1 = Vector3 0 0 0 +v off.
Proof.
  destruct (search flat_floor 5 5 (Vector3 0 0 0) (Vector3 2 0 1) 2)
    as [[st s]|e] eqn:E; [|vm_compute in E; discriminate].
  assert (Hst : st = PATH_FOUND /\ m_PathPoints s = [Vector3 1 0 1; Vector3 0 0 0]).
  { vm_compute in E. injection E as <- <-. split; reflexivity. }
  destruct Hst as [-> Hpts].
  destruct (X11_moves_are_neighbour_steps flat_floor 5 5 _ _ _ _ s 0%nat
              (Vector3 1 0 1) (Vector3 0 0 0) E) as (off & Hoff & _).
  - rewrite Hpts. reflexivity.
  - rewrite Hpts. reflexivity.
  - exists s, off. auto.
Defined.

(** X12.  After [PATH_FOUND] the block of the goal is not solid, and every
    way point lies in a valid chunk in a block that is not solid.  Every way
    point other than the start has a block above it that is not solid and a
    cell below it that was read as solid: a solid block, or no valid chunk,
    or the cell above a fence or fence gate, or the cell below stationary
    water.  The world
    [W] is arbitrary, and with it the entry that the heap has on top among
    entries of equal [m_F]. *)
Theorem X12_way_points_walkable W depth fuel start goal budget s :
  search W depth fuel start goal budget = Ok (PATH_FOUND, s) ->
  world_solid W goal = false /\
  forall a, a ∈ m_PathPoints s ->
    world_solid W a = false /\
    (a <> start ->
     world_solid W (a +v Vector3 0 1 0) = false /\
     read_ok W (a +v Vector3 0 (-1) 0) true).
Proof.
  intros H.
  assert (Hreads := search_reads_explained W _ _ _ _ _ _ _ H).
  destruct (search_found_reads W _ _ _ _ _ _ H) as [Rs Rg].
  split; [apply (Hreads _ _ Rg)|].
  intros a Ha. apply list_elem_of_lookup in Ha. destruct Ha as (i & Ha).
  destruct (m_PathPoints s !! S i) as [b|] eqn:Hb.
  - destruct (path_move_logged W _ _ _ _ _ _ _ _ _ _ H Ha Hb)
      as (pre & cost & post & Ht & _).
    assert (Hin : forall e, e ∈ walk_reads a -> e ∈ g_trace s).
    { intros e He. rewrite Ht. apply elem_of_app. right. right.
      apply elem_of_app. left. exact He. }
    split; [|intros _; split].
    + apply (Hreads a false). apply Hin. left.
    + apply (Hreads _ false). apply Hin. right. right. left.
    + apply (Hreads _ true). apply Hin. right. left.
  - assert (Hlast : a = start).
    { destruct (search_lists W _ _ _ _ _ _ _ H) as ((_ & _ & Hp) & Hst & _).
      rewrite <- Hst in Hp. destruct Hp as (first & _ & _ & Hl).
      rewrite last_lookup in Hl.
      apply lookup_ge_None in Hb. apply lookup_lt_Some in Ha as Hlt.
      replace (pred (length (m_PathPoints s))) with i in Hl by lia. congruence. }
    subst a. split; [apply (Hreads _ _ Rs)|]. intros []. reflexivity.
Qed.

Lemma X12_way_points_walkable_witness :
  exists s,
    search flat_floor 5 5 (Vector3 0 0 0) (Vector3 2 0 1) 2 = Ok (PATH_FOUND, s) /\
    Vector3 1 0 1 ∈ m_PathPoints s /\
    world_solid flat_floor (Vector3 1 0 1) = false.
Proof.
  destruct (search flat_floor 5 5 (Vector3 0 0 0) (Vector3 2 0 1) 2)
    as [[st s]|e] eqn:E; [|vm_compute in E; discriminate].
  assert (Hst : st = PATH_FOUND /\ m_PathPoints s = [Vector3 1 0 1; Vector3 0 0 0]).
  { vm_compute in E. injection E as <- <-. split; reflexivity. }
  destruct Hst as [-> Hpts].
  assert (Hin : Vector3 1 0 1 ∈ m_PathPoints s) by (rewrite Hpts; left).
  exists s. split; [reflexivity|]. split; [exact Hin|].
  exact (proj1 (proj2 (X12_way_points_walkable flat_floor 5 5 _ _ _ s E) _ Hin)).
Defined.

(** ** Cells that are on a list *)

Lemma settled_refl c : settled c c.
Proof.
  split; [reflexivity|]. destruct (Cell.m_Status c) eqn:E; auto.
  - repeat split; [congruence|lia].
  - left. reflexivity.
Qed.

Lemma settled_upd c c1 : cell_upd c c1 -> settled c c1.
Proof.
  intros U. split; [destruct U as [->| ->]; reflexivity|].
  destruct (Cell.m_Status c) eqn:E; auto.
  destruct U as [->| ->]; simpl; repeat split; try congruence; lia.
Qed.

Lemma settled_trans c c1 c2 : settled c c1 -> settled c1 c2 -> settled c c2.
Proof.
  intros [L1 H1] [L2 H2]. split; [congruence|].
  destruct (Cell.m_Status c) eqn:E; auto.
  - destruct H1 as (N1 & F1 & G1).
    destruct (Cell.m_Status c1) eqn:E1; [|destruct H2 as [->| ->]; simpl in *|congruence].
    + destruct H2 as (N2 & F2 & G2). repeat split; [assumption|congruence|lia].
    + repeat split; [congruence|assumption..].
    + repeat split; [congruence|assumption..].
  - assert (E1 : Cell.m_Status c1 = CLOSEDLIST) by (destruct H1 as [->| ->]; assumption).
    rewrite E1 in H2. eapply cell_upd_trans; eauto.
Qed.

Lemma cells_settle_refl m : cells_settle m m.
Proof. intros k c Hc. exists c. split; [exact Hc|apply settled_refl]. Qed.

Lemma cells_settle_trans m m1 m2 :
  cells_settle m m1 -> cells_settle m1 m2 -> cells_settle m m2.
Proof.
  intros H1 H2 k c Hc. destruct (H1 _ _ Hc) as (c1 & Hc1 & S1).
  destruct (H2 _ _ Hc1) as (c2 & Hc2 & S2). exists c2. split; [exact Hc2|].
  eapply settled_trans; eauto.
Qed.

Lemma cells_settle_grows m m1 : map_grows m m1 -> cells_settle m m1.
Proof.
  intros [Ho _] k c Hc. destruct (Ho _ _ Hc) as (c1 & Hc1 & U).
  exists c1. split; [exact Hc1|apply settled_upd; exact U].
Qed.

Lemma cells_settle_insert m k c c' :
  m !! k = Some c -> settled c c' -> cells_settle m (<[k := c']> m).
Proof.
  intros Hc Hs j cj Hj. rewrite lookup_insert. destruct (decide (k = j)) as [<-|Hne].
  - exists c'. split; [reflexivity|]. congruence.
  - exists cj. split; [exact Hj|apply settled_refl].
Qed.

Lemma ProcessCell_settles cell caller cost s u s1 :
  ProcessCell cell caller cost s = Ok (u, s1) -> cells_settle (m_Map s) (m_Map s1).
Proof.
  intros H. apply ProcessCell_spec in H. destruct H as (c & Hc & H). cbv zeta in H.
  destruct (Cell.m_Status c) eqn:Est.
  - destruct H as (p & cc & -> & Hcc & H).
    destruct (Cell.m_G cc + cost <? Cell.m_G c) eqn:Elt; subst s1; simpl;
      [|apply cells_settle_refl].
    apply Z.ltb_lt in Elt. eapply cells_settle_insert; [exact Hc|].
    split; [reflexivity|]. rewrite Est. simpl. repeat split; [discriminate|lia].
  - subst s1. apply cells_settle_refl.
  - destruct H as (g & _ & ->). simpl. eapply cells_settle_insert; [exact Hc|].
    split; [reflexivity|]. rewrite Est. exact I.
Qed.

Lemma OpenListPop_settles W s r s1 :
  OpenListPop W s = Ok (r, s1) -> cells_settle (m_Map s) (m_Map s1).
Proof.
  intros H. apply OpenListPop_spec in H.
  destruct H as [(_ & _ & ->)|(p & l & c & _ & _ & Hc & ->)]; [apply cells_settle_refl|].
  simpl. eapply cells_settle_insert; [exact Hc|]. split; [reflexivity|].
  destruct (Cell.m_Status c) eqn:Est; simpl.
  - repeat split; [discriminate|lia].
  - left. destruct c. simpl in Est. subst. reflexivity.
  - exact I.
Qed.

Section Settle.

Context (W : World) (m0 : gmap Vector3i cPathCell).

Lemma settles_step {A} (f : M A) :
  (forall s a s1, f s = Ok (a, s1) -> cells_settle (m_Map s) (m_Map s1)) ->
  preserves (fun s => cells_settle m0 (m_Map s)) f.
Proof. intros Hf s a s1 H0 H. eapply cells_settle_trans; [exact H0|eauto]. Qed.

Lemma ProcessIfWalkable_settles depth loc cur cost :
  preserves (fun s => cells_settle m0 (m_Map s)) (ProcessIfWalkable W depth loc cur cost).
Proof.
  apply settles_step. intros s u s1 H. apply ProcessIfWalkable_spec in H.
  destruct H as [(reads & _ & _ & _ & Hg)|(s0 & _ & _ & Hg & _ & H)].
  - apply cells_settle_grows. exact Hg.
  - eapply cells_settle_trans; [apply cells_settle_grows; exact Hg|].
    eapply ProcessCell_settles; eauto.
Qed.

Lemma diagonal_settles depth cur loc x z :
  preserves (fun s => cells_settle m0 (m_Map s)) (diagonal W depth cur loc x z).
Proof.
  intros s u s1 H0 H. apply diagonal_spec in H.
  destruct H as [(reads & _ & _ & _ & Hg)|(s0 & _ & _ & Hg & _ & H)].
  - eapply cells_settle_trans; [exact H0|apply cells_settle_grows; exact Hg].
  - eapply ProcessIfWalkable_settles; [|exact H].
    eapply cells_settle_trans; [exact H0|apply cells_settle_grows; exact Hg].
Qed.

Lemma expand_settles depth cur :
  preserves (fun s => cells_settle m0 (m_Map s)) (expand W depth cur).
Proof.
  unfold expand, expand_row.
  repeat first
    [ apply deref_preserves | apply ProcessIfWalkable_settles
    | apply diagonal_settles
    | apply preserves_for_each; intros ?
    | apply preserves_bind; [|intros ?] ].
Qed.

End Settle.

(** X18.  A call of [StepOnce] that asks for more calculation removes no
    cell from the cache and keeps the location of each.  A cell that was on
    the open list is still on a list, with the same [m_F] and an [m_G] that
    is not larger; a cell that was on the closed list is unchanged but for
    [m_IsSolid], which may have been forced to true. *)
Theorem X18_StepOnce_keeps_listed_cells W depth s s1 k c :
  StepOnce W depth s = Ok (false, s1) -> m_Map s !! k = Some c ->
  exists c1, m_Map s1 !! k = Some c1 /\ settled c c1.
Proof.
  intros H Hc. revert k c Hc. change (cells_settle (m_Map s) (m_Map s1)).
  unfold StepOnce in H.
  apply bind_Ok in H. destruct H as (? & s0 & H0 & H). apply modify_Ok in H0.
  apply bind_Ok in H. destruct H as (cur & s2 & Hpop & H).
  assert (S2 : cells_settle (m_Map s) (m_Map s2)).
  { apply OpenListPop_settles in Hpop. subst s0. exact Hpop. }
  destruct cur as [cur|]; [|minv; discriminate].
  apply bind_Ok in H. destruct H as (c & ? & Hd & H).
  apply deref_Ok in Hd. destruct Hd as [Hc ->].
  apply bind_Ok in H. destruct H as (? & ? & Hg & H).
  apply get_Ok in Hg. destruct Hg as [-> ->].
  destruct (at_goal _ _); [minv; discriminate|].
  apply bind_Ok in H. destruct H as (? & s3 & Hexp & H).
  apply ret_Ok in H. destruct H as [_ ->].
  eapply expand_settles; [exact S2|exact Hexp].
Qed.

Lemma X18_StepOnce_keeps_listed_cells_witness :
  exists s0 s1 c c1,
    cPath_new two_blocks 3 (Vector3 0 0 0) (Vector3 4 0 1) 100 = Ok (true, s0) /\
    StepOnce two_blocks 3 s0 = Ok (false, s1) /\
    m_Map s0 !! Vector3 0 0 0 = Some c /\ m_Map s1 !! Vector3 0 0 0 = Some c1 /\
    Cell.m_F c1 = Cell.m_F c.
Proof.
  destruct (cPath_new two_blocks 3 (Vector3 0 0 0) (Vector3 4 0 1) 100)
    as [[[] s0]|e] eqn:E0; try (vm_compute in E0; discriminate).
  destruct (StepOnce two_blocks 3 s0) as [[[] s1]|e] eqn:E1.
  1,3: exfalso; vm_compute in E0; injection E0 as <-; vm_compute in E1; discriminate E1.
  destruct (m_Map s0 !! Vector3 0 0 0) as [c|] eqn:Ec.
  2:{ exfalso. vm_compute in E0. injection E0 as <-. vm_compute in Ec. discriminate Ec. }
  destruct (X18_StepOnce_keeps_listed_cells two_blocks 3 s0 s1 _ c E1 Ec)
    as (c1 & Hc1 & _ & Hs).
  assert (Hst : Cell.m_Status c = OPENLIST).
  { vm_compute in E0. injection E0 as <-. vm_compute in Ec. injection Ec as <-.
    reflexivity. }
  rewrite Hst in Hs. destruct Hs as (_ & HF & _).
  exists s0, s1, c, c1. split; [reflexivity|]. split; [exact E1|]. auto.
Defined.

(** X4.  On an object whose open list is empty, whatever its status and
    whatever the budget (as long as the bound of the loop fits an [int]),
    [Step] calls [StepOnce] once and returns [PATH_NOT_FOUND]: the status is
    overwritten, the cache is emptied and the way points are kept. *)
Theorem X4_Step_on_empty_open_list W depth fuel s :
  m_OpenList s = [] -> in_int (CALCULATIONS_PER_STEP * m_StepsLeft s) = true ->
  Step W depth (S fuel) s =
    Ok (PATH_NOT_FOUND,
        set_OpenList [] (set_Map ∅ (set_Status PATH_NOT_FOUND
          (set_steps (S (g_steps s)) s)))).
Proof.
  intros Ho Hint. unfold Step. rewrite Step_loop_unfold, Hint.
  destruct (decide (1 = CALCULATIONS_PER_STEP * m_StepsLeft s)) as [E|_];
    [destruct (five_times_ne_one _ E)|].
  unfold StepOnce, OpenListPop, FinishCalculation, FinishCalculation0.
  unfold mbind, M_bind, mret, M_ret, modify, get. simpl. rewrite Ho. reflexivity.
Qed.

Lemma X4_Step_on_empty_open_list_witness :
  exists s0 s1 s2,
    search flat_floor 5 5 (Vector3 0 0 0) (Vector3 5 0 0) 2 = Ok (PATH_FOUND, s0) /\
    m_StepsLeft s0 = 2 /\ m_Status s0 = PATH_FOUND /\
    Step flat_floor 5 1 s0 = Ok (PATH_NOT_FOUND, s1) /\
    m_PathPoints s1 = m_PathPoints s0 /\ s2 = s1.
Proof.
  destruct (search flat_floor 5 5 (Vector3 0 0 0) (Vector3 5 0 0) 2)
    as [[st s0]|e] eqn:E; [|vm_compute in E; discriminate].
  assert (Hst : st = PATH_FOUND /\ m_OpenList s0 = [] /\ m_StepsLeft s0 = 2 /\
                m_Status s0 = PATH_FOUND).
  { vm_compute in E. injection E as <- <-. repeat split. }
  destruct Hst as (-> & Ho & Hn & Hs).
  assert (Hint : in_int (CALCULATIONS_PER_STEP * m_StepsLeft s0) = true)
    by (rewrite Hn; reflexivity).
  assert (H := X4_Step_on_empty_open_list flat_floor 5 0 s0 Ho Hint).
  eexists s0, _, _. split; [reflexivity|]. split; [exact Hn|]. split; [exact Hs|].
  split; [exact H|]. split; reflexivity.
Defined.

(** ** Pointers *)

Lemma safe_bind {A B} P (m : M A) Q (f : A -> M B) :
  safe P m -> hoare P m Q -> (forall a, safe (Q a) (f a)) -> safe P (m ≫= f).
Proof.
  intros Hm Hh Hf s HP. unfold mbind, M_bind.
  destruct (m s) as [[a s1]|e] eqn:E.
  - apply (Hf a). eapply Hh; eauto.
  - intros Heq. apply (Hm s HP). rewrite E. injection Heq as Heq. rewrite Heq.
    reflexivity.
Qed.

Lemma safe_conseq {A} (P P1 : cPath -> Prop) (m : M A) :
  safe P1 m -> (forall s, P s -> P1 s) -> safe P m.
Proof. intros H HP s Hs. apply H, HP, Hs. Qed.

Lemma safe_ret {A} P (a : A) : safe P (mret a : M A).
Proof. intros s _. discriminate. Qed.

Lemma safe_skip P : safe P skip.
Proof. intros s _. discriminate. Qed.

Lemma safe_get P : safe P get.
Proof. intros s _. discriminate. Qed.

Lemma safe_modify P f : safe P (modify f).
Proof. intros s _. discriminate. Qed.

Lemma safe_log P e : safe P (log e).
Proof. intros s _. discriminate. Qed.

Lemma safe_int_of P z : safe P (int_of z).
Proof. intros s _. unfold int_of. destruct (in_int z); discriminate. Qed.

Lemma safe_fail {A} P e : e <> BadPointer -> safe P (fail e : M A).
Proof. intros He s HP Heq. unfold fail in Heq. congruence. Qed.

Lemma safe_deref (P : cPath -> Prop) p :
  (forall s, P s -> has_cell p s) -> safe P (deref p).
Proof.
  intros H s HP. unfold deref. destruct (H s HP) as [c ->]. discriminate.
Qed.

Lemma safe_store (P : cPath -> Prop) p f :
  (forall s, P s -> has_cell p s) -> safe P (store p f).
Proof.
  intros H s HP. unfold store. destruct (H s HP) as [c ->]. discriminate.
Qed.

Lemma safe_for_each {A} I (l : list A) body :
  (forall a, safe I (body a)) -> (forall a, preserves I (body a)) ->
  safe I (for_each l body).
Proof.
  intros Hs Hp. induction l as [|a l IH]; simpl; [apply safe_skip|].
  eapply safe_bind; [apply Hs|apply Hp|intros u; exact IH].
Qed.

Lemma cells_settle_has_cell m m1 k :
  cells_settle m m1 -> is_Some (m !! k) -> is_Some (m1 !! k).
Proof. intros H [c Hc]. destruct (H _ _ Hc) as (c1 & Hc1 & _). eauto. Qed.

Lemma has_cell_store k p f : preserves (has_cell k) (store p f).
Proof.
  intros s u s1 Hk H. apply store_Ok in H. destruct H as (c & Hc & ->).
  unfold has_cell. simpl. rewrite lookup_insert. destruct (decide (p = k)); eauto.
Qed.

Section Safe.

Context (W : World).

Lemma has_cell_GetCell k depth loc : preserves (has_cell k) (GetCell W depth loc).
Proof.
  intros s p s1 Hk H. destruct (GetCell_grows W depth _ _ _ _ H) as (_ & Hg & _).
  eapply cells_settle_has_cell; [apply cells_settle_grows; exact Hg|exact Hk].
Qed.

Lemma has_cell_GetCell_IsSolid k depth loc :
  preserves (has_cell k) (GetCell_IsSolid W depth loc).
Proof.
  intros s p s1 Hk H. apply GetCell_IsSolid_spec in H. destruct H as (_ & _ & Hg & _).
  eapply cells_settle_has_cell; [apply cells_settle_grows; exact Hg|exact Hk].
Qed.

Lemma has_cell_ProcessCell k cell caller cost :
  preserves (has_cell k) (ProcessCell cell caller cost).
Proof.
  intros s u s1 Hk H. eapply cells_settle_has_cell; [|exact Hk].
  eapply ProcessCell_settles; eauto.
Qed.

Lemma has_cell_ProcessIfWalkable k depth loc cur cost :
  preserves (has_cell k) (ProcessIfWalkable W depth loc cur cost).
Proof.
  intros s u s1 Hk H. eapply cells_settle_has_cell; [|exact Hk].
  eapply (ProcessIfWalkable_settles W (m_Map s)); [apply cells_settle_refl|exact H].
Qed.

Lemma has_cell_diagonal k depth cur loc x z :
  preserves (has_cell k) (diagonal W depth cur loc x z).
Proof.
  intros s u s1 Hk H. eapply cells_settle_has_cell; [|exact Hk].
  eapply (diagonal_settles W (m_Map s)); [apply cells_settle_refl|exact H].
Qed.

(** [IsSolid] dereferences what [GetCell] has just returned. *)
Lemma IsSolid_with_safe g loc :
  (forall l, safe (fun _ => True) (g l)) -> GetCell_grows_post g ->
  safe (fun _ => True) (IsSolid_with W g loc).
Proof.
  intros Hs Hg. unfold IsSolid_with.
  assert (Hside : forall off, safe (fun _ => True)
            (p ← g (loc +v off); store p (Cell.set_IsSolid true))).
  { intros off. eapply (safe_bind _ _ (fun p s => has_cell p s)); [apply Hs| |].
    - intros s p s1 _ H. destruct (Hg _ _ _ _ H) as (-> & _ & Hin). exact Hin.
    - intros p. apply safe_store. auto. }
  eapply (safe_bind _ _ (fun _ _ => True)); [apply safe_modify|intros ? ? ? _ _; exact I|].
  intros u0. destruct (GetBlock W loc) as [bt|]; [|apply safe_ret].
  eapply (safe_bind _ _ (fun _ _ => True)); [|intros ? ? ? _ _; exact I|].
  { destruct (decide _); [apply Hside|apply safe_skip]. }
  intros u1. eapply (safe_bind _ _ (fun _ _ => True)); [|intros ? ? ? _ _; exact I|].
  { destruct (decide _); [apply Hside|apply safe_skip]. }
  intros u2. apply safe_ret.
Qed.

Lemma GetCell_safe depth : forall loc, safe (fun _ => True) (GetCell W depth loc).
Proof.
  induction depth as [|depth IH]; intros loc; simpl;
    (eapply safe_bind; [apply safe_get|apply hoare_get|intros s0]);
    destruct (m_Map s0 !! loc); try apply safe_ret;
    [apply safe_fail; discriminate|].
  eapply (safe_bind _ _ (fun _ => has_cell loc)); [apply safe_modify| |intros u0].
  { apply hoare_modify. intros s _. unfold has_cell. simpl.
    rewrite lookup_insert_eq. eauto. }
  eapply (safe_bind _ _ (fun _ => has_cell loc)); [| |intros solid].
  { eapply safe_conseq;
      [apply IsSolid_with_safe; [exact IH|apply GetCell_grows]|intros; exact I]. }
  { intros s b s1 Hk H.
    destruct (IsSolid_with_grows W _ (GetCell_grows W depth) _ _ _ _ H) as [Hg _].
    eapply cells_settle_has_cell; [apply cells_settle_grows; exact Hg|exact Hk]. }
  eapply (safe_bind _ _ (fun _ => has_cell loc));
    [apply safe_store; auto|apply has_cell_store|intros u1].
  eapply (safe_bind _ _ (fun _ => has_cell loc));
    [apply safe_store; auto|apply has_cell_store|intros u2].
  apply safe_ret.
Qed.

Lemma GetCell_has_cell (K : cPath -> Prop) depth loc :
  preserves K (GetCell W depth loc) ->
  hoare K (GetCell W depth loc) (fun p s => p = loc /\ has_cell loc s /\ K s).
Proof.
  intros HK s p s1 Hs H. destruct (GetCell_grows W depth _ _ _ _ H) as (-> & _ & Hin).
  split; [reflexivity|]. split; [exact Hin|]. eapply HK; eauto.
Qed.

Lemma GetCell_IsSolid_safe depth loc : safe (fun _ => True) (GetCell_IsSolid W depth loc).
Proof.
  unfold GetCell_IsSolid, read_IsSolid.
  eapply safe_bind; [apply GetCell_safe| |intros p].
  { apply (GetCell_has_cell (fun _ => True)). intros ? ? ? _ _. exact I. }
  eapply (safe_bind _ _ (fun _ _ => True)).
  - apply safe_deref. intros s (-> & H & _). exact H.
  - intros ? ? ? _ _. exact I.
  - intros c. eapply (safe_bind _ _ (fun _ _ => True));
      [apply safe_log|intros ? ? ? _ _; exact I|intros u; apply safe_ret].
Qed.

End Safe.

(** Straight-line code that dereferences nothing but cells known to be in
    the map. *)
Ltac keeps_keys :=
  solve
    [ apply deref_preserves
    | apply has_cell_store
    | apply hoare_modify; intros ? Hkk; exact Hkk
    | intros ? ? ? Hkk Hrr; apply get_Ok in Hrr; destruct Hrr as [_ ->]; exact Hkk
    | intros ? ? ? Hkk Hrr; apply int_of_Ok in Hrr; destruct Hrr as (_ & -> & _); exact Hkk
    | intros ? ? ? Hkk Hrr; apply ret_Ok in Hrr; destruct Hrr as [_ ->]; exact Hkk
    | intros ? ? ? [? ?] Hrr; apply store_Ok in Hrr; destruct Hrr as (? & ? & ->);
      split; unfold has_cell in *; simpl; rewrite lookup_insert;
      case_decide; eauto
    | apply preserves_bind; [keeps_keys|intros ?; keeps_keys] ].

Ltac safe_line K :=
  repeat first
    [ apply safe_ret | apply safe_skip | apply safe_get | apply safe_int_of
    | apply safe_modify | apply safe_log
    | (apply safe_deref; intros ? Hkk; apply Hkk)
    | (apply safe_store; intros ? Hkk; apply Hkk)
    | (eapply (safe_bind K _ (fun _ => K)); [|keeps_keys|intros ?])
    | match goal with
      | |- safe _ (if ?b then _ else _) => destruct b
      end ].

Section SafeSearch.

Context (W : World).

Lemma ProcessCell_safe cell caller cost :
  safe (fun s => has_cell cell s /\
          match caller with
          | Some p => has_cell p s
          | None => status_of (m_Map s) cell <> Some OPENLIST
          end)
    (ProcessCell cell caller cost).
Proof.
  unfold ProcessCell, OpenListAdd.
  match goal with |- safe ?P _ => set (P0 := P) end.
  eapply (safe_bind P0 _ (fun _ => P0));
    [apply safe_log|apply hoare_modify; intros s Hs; exact Hs|intros u].
  eapply (safe_bind P0 _ (fun c s => m_Map s !! cell = Some c /\ P0 s));
    [apply safe_deref; intros s Hs; apply Hs|apply hoare_deref|intros c].
  unfold P0. clear P0.
  destruct (Cell.m_Status c) eqn:Est.
  - destruct caller as [p|].
    + eapply safe_conseq; [|intros s [_ Hs]; exact Hs].
      safe_line (fun s => has_cell cell s /\ has_cell p s).
    + intros s (Hc & _ & Hn). exfalso. apply Hn. apply status_of_Some. eauto.
  - apply safe_skip.
  - destruct caller as [p|].
    + eapply safe_conseq; [|intros s [_ Hs]; exact Hs].
      safe_line (fun s => has_cell cell s /\ has_cell p s).
    + eapply safe_conseq; [|intros s [_ [Hs _]]; exact Hs].
      safe_line (has_cell cell).
Qed.

Lemma has_cell2_GetCell_IsSolid k1 k2 depth loc :
  preserves (fun s => has_cell k1 s /\ has_cell k2 s) (GetCell_IsSolid W depth loc).
Proof.
  intros s b s1 [H1 H2] H. split; eapply has_cell_GetCell_IsSolid; eauto.
Qed.

Lemma ProcessIfWalkable_safe depth loc cur cost :
  safe (has_cell cur) (ProcessIfWalkable W depth loc cur cost).
Proof.
  unfold ProcessIfWalkable.
  eapply (safe_bind _ _ (fun _ => has_cell cur));
    [apply safe_log|apply hoare_modify; intros s Hs; exact Hs|intros u].
  eapply (safe_bind _ _ (fun p s => p = loc /\ has_cell loc s /\ has_cell cur s));
    [eapply safe_conseq; [apply GetCell_safe|intros; exact I]
    |apply GetCell_has_cell; apply has_cell_GetCell|intros p].
  destruct (decide (p = loc)) as [->|Hne]; [|intros s [E _]; contradiction].
  eapply safe_conseq; [|intros s [_ Hs]; exact Hs].
  unfold read_IsSolid.
  repeat first
    [ apply safe_skip
    | (eapply safe_conseq; [apply ProcessCell_safe|intros s Hs; exact Hs])
    | (eapply (safe_bind (fun s => has_cell loc s /\ has_cell cur s) _
                 (fun _ s => has_cell loc s /\ has_cell cur s));
       [first [ (eapply safe_conseq; [apply GetCell_IsSolid_safe|intros; exact I])
              | safe_line (fun s => has_cell loc s /\ has_cell cur s) ]
       |first [ apply has_cell2_GetCell_IsSolid | keeps_keys ]
       |intros ?])
    | match goal with
      | |- safe _ (if ?b then _ else _) => destruct b
      end ].
Qed.

Lemma diagonal_safe depth cur loc x z :
  safe (has_cell cur) (diagonal W depth cur loc x z).
Proof.
  unfold diagonal.
  repeat first
    [ apply safe_skip
    | apply ProcessIfWalkable_safe
    | (eapply (safe_bind (has_cell cur) _ (fun _ => has_cell cur));
       [eapply safe_conseq; [apply GetCell_IsSolid_safe|intros; exact I]
       |apply has_cell_GetCell_IsSolid
       |intros ?])
    | match goal with
      | |- safe _ (if ?b then _ else _) => destruct b
      end ].
Qed.

Lemma expand_safe depth cur : safe (has_cell cur) (expand W depth cur).
Proof.
  unfold expand, expand_row.
  repeat first
    [ apply ProcessIfWalkable_safe
    | apply diagonal_safe
    | (apply safe_deref; intros ? Hkk; exact Hkk)
    | (apply safe_for_each; intros ?)
    | (eapply (safe_bind (has_cell cur) _ (fun _ => has_cell cur)); [| |intros ?])
    | apply deref_preserves
    | apply has_cell_ProcessIfWalkable
    | apply has_cell_diagonal
    | (apply preserves_for_each; intros ?)
    | (apply preserves_bind; [|intros ?]) ].
Qed.

Lemma OpenListPop_safe :
  safe (fun s => forall k, k ∈ m_OpenList s -> has_cell k s) (OpenListPop W).
Proof.
  intros s HP. unfold OpenListPop, mbind at 1, M_bind at 1, get at 1.
  destruct (m_OpenList s) as [|p l] eqn:E; [discriminate|].
  assert (Hin : has_cell (queue_top W s p l) s) by (apply HP, queue_top_in).
  destruct Hin as [c Hc].
  unfold mbind, M_bind, modify, store, log, modify. simpl. rewrite Hc. simpl.
  discriminate.
Qed.

Lemma collect_path_safe src depth : forall n cur,
  safe (fun s => rooted (m_Map s) src n cur) (collect_path depth cur).
Proof.
  induction depth as [|depth IH]; intros n cur s Hr; simpl; [discriminate|].
  unfold mbind at 1, M_bind at 1, deref at 1.
  destruct n as [|n]; simpl in Hr;
    destruct (m_Map s !! cur) as [c|]; try tauto;
    destruct Hr as [_ Hr]; destruct (Cell.m_Parent c) as [p|]; try tauto;
    unfold mbind, M_bind, modify at 1; [discriminate|].
  apply (IH n p). exact Hr.
Qed.

Lemma lists_inv_steps src s n : lists_inv src s -> lists_inv src (set_steps n s).
Proof. intros H. exact H. Qed.

Lemma StepOnce_safe src depth : safe (lists_inv src) (StepOnce W depth).
Proof.
  unfold StepOnce.
  eapply (safe_bind _ _ (fun _ => lists_inv src));
    [apply safe_modify|apply hoare_modify; intros s Hs; exact Hs|intros u].
  eapply safe_bind; [|apply OpenListPop_lists|intros cur].
  { eapply safe_conseq; [apply OpenListPop_safe|].
    intros s L k Hk. apply (proj1 (proj2 L)) in Hk.
    apply status_of_Some in Hk. destruct Hk as (c & Hc & _). exists c. exact Hc. }
  destruct cur as [cur|].
  2:{ unfold FinishCalculation, FinishCalculation0.
      intros s _. discriminate. }
  eapply (safe_bind _ _ (fun _ s => lists_inv src s /\ is_closed s cur)).
  { apply safe_deref. intros s [_ Hc]. apply status_of_Some in Hc.
    destruct Hc as (c & Hc & _). exists c. exact Hc. }
  { apply deref_preserves. }
  intros c.
  eapply (safe_bind _ _ (fun _ s => lists_inv src s /\ is_closed s cur));
    [apply safe_get
    |intros ? ? ? Hkk Hrr; apply get_Ok in Hrr; destruct Hrr as [_ ->]; exact Hkk
    |intros s0].
  destruct (at_goal _ _).
  - eapply (safe_bind _ _ (fun _ _ => True)); [|intros ? ? ? _ _; exact I|intros u0].
    + intros s [L Hc]. destruct (proj1 (proj2 (proj2 L)) _ Hc) as (n & Hn).
      eapply collect_path_safe; eauto.
    + unfold FinishCalculation, FinishCalculation0. intros s _. discriminate.
  - eapply (safe_bind _ _ (fun _ _ => True));
      [|intros ? ? ? _ _; exact I|intros u0; apply safe_ret].
    eapply safe_conseq; [apply expand_safe|].
    intros s [_ Hc]. apply status_of_Some in Hc.
    destruct Hc as (c0 & Hc0 & _). exists c0. exact Hc0.
Qed.

Lemma Step_loop_safe src dest depth fuel : forall Step,
  safe (searching src dest) (Step_loop W depth fuel Step).
Proof.
  induction fuel as [|fuel IH]; intros Step s R; rewrite Step_loop_unfold;
    destruct (in_int _); try discriminate;
    destruct (decide _); try discriminate.
  unfold mbind at 1, M_bind at 1.
  destruct (StepOnce W depth s) as [[done s1]|e] eqn:E.
  - assert (R1 := StepOnce_lists W src depth dest _ _ _ R E).
    destruct done; [discriminate|].
    unfold mbind, M_bind, int_of. destruct (in_int (Step + 1)); [|discriminate].
    apply IH. exact R1.
  - intros [= ->]. apply (StepOnce_safe src depth s (proj1 (proj2 R))). exact E.
Qed.

Lemma cPath_new_safe depth start goal budget :
  cPath_new W depth start goal budget <> Err BadPointer.
Proof.
  rewrite cPath_new_unfold.
  destruct (GetCell_IsSolid W depth start (cPath_init start goal))
    as [[src s1]|e] eqn:H1.
  2:{ intros [= ->]. apply (GetCell_IsSolid_safe W depth start _ I H1). }
  assert (L1 := GetCell_IsSolid_lists W start _ _ _ _ _ (lists_inv_init start goal) H1).
  assert (O1 : m_OpenList s1 = []).
  { apply GetCell_IsSolid_spec in H1. destruct H1 as (_ & -> & _). reflexivity. }
  destruct src; [discriminate|].
  destruct (GetCell_IsSolid W depth goal s1) as [[dst s2]|e] eqn:H2.
  2:{ intros [= ->]. apply (GetCell_IsSolid_safe W depth goal _ I H2). }
  assert (L2 := GetCell_IsSolid_lists W start _ _ _ _ _ L1 H2).
  assert (O2 : m_OpenList s2 = []).
  { apply GetCell_IsSolid_spec in H2. destruct H2 as (_ & -> & _). exact O1. }
  destruct dst; [discriminate|].
  set (s3 := set_StepsLeft budget (set_Status CALCULATING s2)).
  unfold mbind at 1, M_bind at 1.
  destruct (GetCell W depth start s3) as [[p s4]|e] eqn:H3.
  2:{ intros [= ->]. apply (GetCell_safe W depth start _ I H3). }
  assert (L4 : lists_inv start s4).
  { eapply GetCell_lists; [|exact H3]. exact L2. }
  assert (O4 : m_OpenList s4 = []).
  { rewrite (GetCell_OpenList W _ _ _ _ _ H3). exact O2. }
  destruct (GetCell_grows W depth _ _ _ _ H3) as (-> & _ & Hin).
  unfold mbind, M_bind.
  destruct (ProcessCell start None 0 s4) as [[u s5]|e] eqn:H5; [discriminate|].
  intros [= ->]. apply (ProcessCell_safe start None 0 s4); [|exact H5].
  split; [exact Hin|]. intros Hopen. apply (proj1 (proj2 L4)) in Hopen.
  rewrite O4 in Hopen. inversion Hopen.
Qed.

End SafeSearch.

(** X19.  A search (the constructor, and [Step] when the constructor has
    started it) never dereferences a null cell pointer or a pointer to a
    cell that is not in the map: every cell pointer taken from the open
    list, from a parent link or from [GetCell] points to a live cell, and
    the null caller of the start cell is never read.  If the search yields
    no result, it is for a signed overflow or because the model ran out of
    fuel.  The world
    [W] is arbitrary, and with it the entry that the heap has on top among
    entries of equal [m_F]. *)
Theorem X19_no_bad_pointer W depth fuel start goal budget :
  search W depth fuel start goal budget <> Err BadPointer.
Proof.
  unfold search.
  destruct (cPath_new W depth start goal budget) as [[launched s]|e] eqn:E.
  - destruct launched; [|discriminate].
    apply cPath_new_lists in E. unfold Step.
    eapply Step_loop_safe; exact E.
  - intros [= ->]. apply (cPath_new_safe W depth start goal budget). exact E.
Qed.
